(** * The inheritance inliner of the Warp transpiler

    A shallow embedding of [InheritanceInliner] (the pass that flattens a
    linearized contract hierarchy into self-contained contracts) and the
    properties of its scheduler, function, storage and constructor
    flatteners.

    The pass mutates an AST in place.  Contracts are objects that are read
    through references (a derived contract reads its bases while it is being
    rewritten), so the embedding keeps them in a store indexed by node id and
    every operation of the pass is a computation over that store that may
    throw. *)

From stdpp Require Import gmap strings list fin_maps pretty.
From Stdlib Require Import Permutation Ascii.

Set Default Proof Using "Type".
Set Warnings "-register-all".
Local Open Scope string_scope.
Local Open Scope nat_scope.
Local Open Scope list_scope.

(** ** AST nodes (the part of [solc-typed-ast] the pass touches) *)

Inductive FunctionKind : Type :=
  | KindConstructor | KindFunction | KindReceive | KindFallback | KindFree.

Inductive FunctionVisibility : Type :=
  | VisDefault | VisExternal | VisPublic | VisInternal | VisPrivate.

Inductive FunctionStateMutability : Type :=
  | MutPure | MutView | MutConstant | MutPayable | MutNonPayable.

(** Expressions and statements.  Only the node kinds the pass builds or
    inspects are distinguished; every other kind is kept as an opaque node
    with its children.  Expression and statement nodes are modelled without
    their own [id], [src] and [typeString]: the pass never reads them. *)
Inductive Expression : Type :=
  | Identifier (name : string) (referencedDeclaration : nat)
  | IdentifierPath (name : string) (referencedDeclaration : nat)
  | MemberAccess (vExpression : Expression) (memberName : string)
                 (referencedDeclaration : nat)
  | FunctionCall (vExpression : Expression) (vArguments : list Expression)
  | OtherExpression (label : string) (children : list Expression).

Inductive Statement : Type :=
  | ExpressionStatement (vExpression : Expression)
  | Return (functionReturnParameters : nat) (vExpression : option Expression)
  | Block (vStatements : list Statement)
  | OtherStatement (label : string) (exprs : list Expression)
                   (stmts : list Statement).

Record VariableDeclaration : Type := mkVariableDeclaration {
  v_id : nat;
  v_name : string;
  v_typeString : string;
  v_scope : nat;
  v_value : option Expression
}.

Record ParameterList : Type := mkParameterList {
  pl_id : nat;
  pl_parameters : list VariableDeclaration
}.

(** The node that names the target of a modifier invocation
    ([Identifier | IdentifierPath]) or the base of an inheritance specifier
    ([UserDefinedTypeName | IdentifierPath]). *)
Inductive NameNode : Type :=
  | NameIdentifier (name : string) (referencedDeclaration : nat)
  | NameIdentifierPath (name : string) (referencedDeclaration : nat)
  | NameUserDefinedTypeName (name : string) (referencedDeclaration : nat).

Definition nn_referencedDeclaration (n : NameNode) : nat :=
  match n with
  | NameIdentifier _ r | NameIdentifierPath _ r
  | NameUserDefinedTypeName _ r => r
  end.

(** A modifier invocation names either a modifier or, in a constructor, a
    base contract. *)
Record ModifierInvocation : Type := mkModifierInvocation {
  mi_modifierName : NameNode;
  mi_arguments : list Expression
}.

Record FunctionDefinition : Type := mkFunctionDefinition {
  f_id : nat;
  f_scope : nat;
  f_kind : FunctionKind;
  f_name : string;
  f_virtual : bool;
  f_visibility : FunctionVisibility;
  f_stateMutability : FunctionStateMutability;
  f_isConstructor : bool;
  f_parameters : ParameterList;
  f_returnParameters : ParameterList;
  f_modifiers : list ModifierInvocation;
  f_body : option (list Statement)
}.

Record ModifierDefinition : Type := mkModifierDefinition {
  m_id : nat;
  m_name : string;
  m_parameters : ParameterList;
  m_body : option (list Statement)
}.

Record InheritanceSpecifier : Type := mkInheritanceSpecifier {
  is_baseType : NameNode;
  is_arguments : list Expression
}.

(** The children of a contract, in source order.  [vFunctions],
    [vStateVariables], [vModifiers] and [vInheritanceSpecifiers] below are
    the getters that select one kind of child. *)
Inductive ContractChild : Type :=
  | ChildSpecifier (s : InheritanceSpecifier)
  | ChildVariable (v : VariableDeclaration)
  | ChildFunction (f : FunctionDefinition)
  | ChildModifier (m : ModifierDefinition)
  | ChildOther (label : string).

(** A contract.  Its node id is the key under which the store holds it. *)
Record ContractDefinition : Type := mkContractDefinition {
  c_name : string;
  linearizedBaseContracts : list nat;
  c_children : list ContractChild
}.

(** The AST: the source units with the ids of their contracts, the context
    that locates a contract by id and the counter behind [reserveId]. *)
Record AST : Type := mkAST {
  roots : list (list nat);
  context : gmap nat ContractDefinition;
  nextId : nat
}.

#[global] Instance FunctionKind_eq_dec : EqDecision FunctionKind.
Proof. solve_decision. Defined.
#[global] Instance FunctionVisibility_eq_dec : EqDecision FunctionVisibility.
Proof. solve_decision. Defined.

(** ** Getters of [ContractDefinition] *)

Definition vFunctions (c : ContractDefinition) : list FunctionDefinition :=
  omap (fun ch => match ch with ChildFunction f => Some f | _ => None end)
       (c_children c).

Definition vStateVariables (c : ContractDefinition) : list VariableDeclaration :=
  omap (fun ch => match ch with ChildVariable v => Some v | _ => None end)
       (c_children c).

Definition vModifiers (c : ContractDefinition) : list ModifierDefinition :=
  omap (fun ch => match ch with ChildModifier m => Some m | _ => None end)
       (c_children c).

Definition vInheritanceSpecifiers (c : ContractDefinition)
  : list InheritanceSpecifier :=
  omap (fun ch => match ch with ChildSpecifier s => Some s | _ => None end)
       (c_children c).

Definition isConstructorKind (f : FunctionDefinition) : bool :=
  bool_decide (f_kind f = KindConstructor).

(** [vConstructor]: the first function child of kind constructor. *)
Definition vConstructor (c : ContractDefinition) : option FunctionDefinition :=
  head (filter (fun f => isConstructorKind f = true) (vFunctions c)).

(** ** Errors and the computation monad *)

Inductive TranspileFailure : Type :=
  | UnableToSerialise
  | MultipleFunctions (functionName : string) (contract : nat)
  | FailedToFind (functionName : string) (contract : nat).

Inductive AssertionFailure : Type :=
  | NoInlinedBaseFunction (f : nat)
  | CopyNonMemberFunction (name : string)
  | WrongNumberOfArguments.

Inductive error : Type :=
  | TranspileFailedError (why : TranspileFailure)
  | NotSupportedYetError
  | AssertionError (why : AssertionFailure)
  | TypeError          (* a property of [undefined] is read *)
  | RangeError         (* the call stack is exhausted by a recursion *)
  | LoopFuel.          (* the bound of the scheduler loop, never reached *)

Inductive result (A : Type) : Type :=
  | Ok (a : A)
  | Err (e : error).
Arguments Ok {A} a.
Arguments Err {A} e.

Definition M (A : Type) : Type := AST -> result (A * AST).

Definition ret {A} (a : A) : M A := fun ast => Ok (a, ast).
Definition throw {A} (e : error) : M A := fun _ => Err e.
Definition bind {A B} (m : M A) (k : A -> M B) : M B :=
  fun ast => match m ast with
             | Ok (a, ast') => k a ast'
             | Err e => Err e
             end.

Notation "'let*' x ':=' m 'in' k" := (bind m (fun x => k))
  (at level 10, x pattern, m at level 100, k at level 200).
Notation "m ';;' k" := (bind m (fun _ => k))
  (at level 100, k at level 200, right associativity).

(** Reading the store without changing it. *)
Definition R (A : Type) : Type := AST -> result A.

Definition bindR {A B} (r : R A) (k : A -> R B) : R B :=
  fun ast => match r ast with Ok a => k a ast | Err e => Err e end.

Notation "'let?' x ':=' r 'in' k" := (bindR r (fun x => k))
  (at level 10, x pattern, r at level 100, k at level 200).

Definition liftR {A} (r : R A) : M A :=
  fun ast => match r ast with Ok a => Ok (a, ast) | Err e => Err e end.

Definition assert (b : bool) (why : AssertionFailure) : M unit :=
  if b then ret tt else throw (AssertionError why).

Fixpoint forEach {A} (f : A -> M unit) (l : list A) : M unit :=
  match l with
  | [] => ret tt
  | x :: l' => f x ;; forEach f l'
  end.

Fixpoint foldM {A B} (f : B -> A -> M B) (l : list A) (b : B) : M B :=
  match l with
  | [] => ret b
  | x :: l' => let* b' := f b x in foldM f l' b'
  end.

(** [l.map(f)] for an [f] that allocates ids. *)
Fixpoint mapM {A B} (f : A -> M B) (l : list A) : M (list B) :=
  match l with
  | [] => ret []
  | x :: l' => let* y := f x in let* ys := mapM f l' in ret (y :: ys)
  end.

(** ** Primitive operations on the store *)

Definition reserveId : M nat :=
  fun ast => Ok (nextId ast,
                 mkAST (roots ast) (context ast) (S (nextId ast))).

(** [context.locate(id)]; reading a field of a node that is not there
    throws. *)
Definition locateR (id : nat) : R ContractDefinition :=
  fun ast => match context ast !! id with
             | Some c => Ok c
             | None => Err TypeError
             end.

Definition locate (id : nat) : M ContractDefinition := liftR (locateR id).

Definition setChildren (c : ContractDefinition) (chs : list ContractChild)
  : ContractDefinition :=
  mkContractDefinition (c_name c) (linearizedBaseContracts c) chs.

Definition modifyChildren (node : nat)
    (g : list ContractChild -> list ContractChild) : M unit :=
  fun ast => match context ast !! node with
             | Some c =>
                 Ok (tt, mkAST (roots ast)
                               (<[node := setChildren c (g (c_children c))]>
                                  (context ast))
                               (nextId ast))
             | None => Err TypeError
             end.

(** [appendChild] puts the new child last, [insertAtBeginning] first. *)
Definition appendChild (node : nat) (ch : ContractChild) : M unit :=
  modifyChildren node (fun chs => chs ++ [ch]).

Definition insertAtBeginning (node : nat) (ch : ContractChild) : M unit :=
  modifyChildren node (fun chs => ch :: chs).

(** ** Cloning and node templates *)

(** Modelled from the spec: [cloneASTNode] ([utils/cloning]) is not part of
    the sources at hand.  "Cloning always allocates fresh ids for new nodes":
    the copy of a declaration gets an id from [reserveId], and so does every
    declaration below it; all other fields are copied. *)
Definition cloneVariableDeclaration (v : VariableDeclaration)
  : M VariableDeclaration :=
  let* i := reserveId in
  ret (mkVariableDeclaration i (v_name v) (v_typeString v) (v_scope v)
                             (v_value v)).

Definition cloneParameterList (p : ParameterList) : M ParameterList :=
  let* i := reserveId in
  let* ps := mapM cloneVariableDeclaration (pl_parameters p) in
  ret (mkParameterList i ps).

Definition cloneModifierInvocation (m : ModifierInvocation)
  : M ModifierInvocation := ret m.

Definition cloneBlock (b : list Statement) : M (list Statement) := ret b.

Definition cloneFunctionDefinition (f : FunctionDefinition)
  : M FunctionDefinition :=
  let* i := reserveId in
  let* ps := cloneParameterList (f_parameters f) in
  let* rs := cloneParameterList (f_returnParameters f) in
  let* ms := mapM cloneModifierInvocation (f_modifiers f) in
  let* b := match f_body f with
            | Some b => let* b' := cloneBlock b in ret (Some b')
            | None => ret None
            end in
  ret (mkFunctionDefinition i (f_scope f) (f_kind f) (f_name f) (f_virtual f)
         (f_visibility f) (f_stateMutability f) (f_isConstructor f)
         ps rs ms b).

Definition cloneModifierDefinition (m : ModifierDefinition)
  : M ModifierDefinition :=
  let* i := reserveId in
  let* ps := cloneParameterList (m_parameters m) in
  let* b := match m_body m with
            | Some b => let* b' := cloneBlock b in ret (Some b')
            | None => ret None
            end in
  ret (mkModifierDefinition i (m_name m) ps b).

(** Modelled from the spec: [isExternallyVisible] ([utils/utils]) is not part
    of the sources at hand; "externally-callable (public/external)". *)
Definition isExternallyVisible (f : FunctionDefinition) : bool :=
  match f_visibility f with
  | VisExternal | VisPublic => true
  | _ => false
  end.

(** Modelled from the spec: the node templates ([utils/nodeTemplates],
    [utils/functionGeneration]) are not part of the sources at hand.
    [createIdentifier] is a fresh identifier node that refers to a
    declaration, [createParameterList] a fresh parameter list,
    [generateFunctionCall] a call of a function by a fresh identifier. *)
Definition createIdentifier (v : VariableDeclaration) : M Expression :=
  let* _ := reserveId in
  ret (Identifier (v_name v) (v_id v)).

Definition createParameterList (ps : list VariableDeclaration)
  : M ParameterList :=
  let* i := reserveId in
  ret (mkParameterList i ps).

Definition createBlock (stmts : list Statement) : M (list Statement) :=
  let* _ := reserveId in
  ret stmts.

Definition generateFunctionCall (f : FunctionDefinition)
    (args : list Expression) : M Expression :=
  let* _ := reserveId in
  let* _ := reserveId in
  ret (FunctionCall (Identifier (f_name f) (f_id f)) args).

(** ** The pass *)

(** [getBaseContracts]: [vLinearizedBaseContracts.slice(1)], as references. *)
Definition getBaseContracts (c : ContractDefinition) : list nat :=
  drop 1 (linearizedBaseContracts c).

Definition suffixed (name : string) (depth : nat) : string :=
  name +:+ "_s" +:+ pretty (depth + 1).

Definition privateSuperCopy (node depth : nat) (cloned : FunctionDefinition)
  : FunctionDefinition :=
  mkFunctionDefinition (f_id cloned) node (f_kind cloned)
    (suffixed (f_name cloned) depth) (f_virtual cloned) VisPrivate
    (f_stateMutability cloned) (f_isConstructor cloned)
    (f_parameters cloned) (f_returnParameters cloned) (f_modifiers cloned)
    (f_body cloned).

(** One base of [addPrivateSuperFunctions]: the clones of its functions, in
    order, each paired with the function it copies.  The remapping holds the
    clone object, which is renamed, made private and rescoped after it is
    recorded: the value recorded is the clone as it is after that. *)
Definition clonePrivateSuperFunctions (node depth base : nat)
  : M (list (FunctionDefinition * FunctionDefinition)) :=
  let* b := locate base in
  mapM (fun func =>
          let* clonedFunction := cloneFunctionDefinition func in
          ret (func, privateSuperCopy node depth clonedFunction))
       (filter (fun func => f_isConstructor func = false) (vFunctions b)).

(** The body of the loop over the bases of [addPrivateSuperFunctions]. *)
Definition inlineBase (node : nat) (idRemapping : gmap nat FunctionDefinition)
    (indexed : nat * nat) : M (gmap nat FunctionDefinition) :=
  let '(depth, base) := indexed in
  let* clones := clonePrivateSuperFunctions node depth base in
  forEach (fun func => appendChild node (ChildFunction func)) (clones.*2) ;;
  ret (foldl (fun m '(func, cl) => <[f_id func := cl]> m) idRemapping clones).

Definition addPrivateSuperFunctions (node : nat)
    (idRemapping : gmap nat FunctionDefinition)
  : M (gmap nat FunctionDefinition) :=
  let* c := locate node in
  foldM (inlineBase node) (imap pair (getBaseContracts c)) idRemapping.

(** A [Set<string>] or the keys of a [Map<string, _>]: iteration follows
    insertion order, and adding a member again leaves its place. *)
Definition set_add (x : string) (s : list string) : list string :=
  if bool_decide (x ∈ s) then s else s ++ [x].

Definition new_Set (l : list string) : list string :=
  foldl (fun s x => set_add x s) [] l.

(** [squashInterface] and [resolveFunctionName] recurse along first bases.
    [fuel] bounds the depth of the recursion; running out of it is the
    overflow of the call stack, which is what a recursion that comes back to
    a contract it has left ends in.  The pass calls both with [callStack]
    below, a depth no recursion that stops can reach. *)
Fixpoint squashInterface (fuel : nat) (node : nat) : R (list string) :=
  match fuel with
  | 0 => fun _ => Err RangeError
  | S fuel' =>
      let? c := locateR node in
      let visibleFunctions :=
        new_Set (f_name <$>
                   filter (fun func => isExternallyVisible func
                                       && negb (f_isConstructor func) = true)
                          (vFunctions c)) in
      match getBaseContracts c with
      | [] => fun _ => Ok visibleFunctions
      | b0 :: _ =>
          let? inheritedVisibleFunctions := squashInterface fuel' b0 in
          fun _ => Ok (foldl (fun s f => set_add f s) visibleFunctions
                             inheritedVisibleFunctions)
      end
  end.

Fixpoint resolveFunctionName (fuel : nat) (node : nat) (functionName : string)
  : R FunctionDefinition :=
  match fuel with
  | 0 => fun _ => Err RangeError
  | S fuel' =>
      let? c := locateR node in
      let matches :=
        filter (fun f => f_name f = functionName) (vFunctions c) in
      if bool_decide (1 < length matches) then
        fun _ => Err (TranspileFailedError
                        (MultipleFunctions functionName node))
      else
        match matches with
        | f :: _ => fun _ => Ok f
        | [] =>
            match getBaseContracts c with
            | [] => fun _ => Err (TranspileFailedError
                                    (FailedToFind functionName node))
            | b0 :: _ => resolveFunctionName fuel' b0 functionName
            end
        end
  end.

(** More than the number of contracts there are: a recursion along first
    bases that gets deeper has come back to a contract and never ends. *)
Definition callStack (ast : AST) : nat := S (size (context ast)).

Definition gets {A} (f : AST -> A) : M A := fun ast => Ok (f ast, ast).

Fixpoint mapR {A B} (f : A -> R B) (l : list A) : R (list B) :=
  match l with
  | [] => fun _ => Ok []
  | x :: l' => let? y := f x in let? ys := mapR f l' in fun _ => Ok (y :: ys)
  end.

(** The ids of the new nodes are drawn in the order in which the arguments
    of the nested constructor calls are evaluated. *)
Definition createDelegatingFunction (funcToCopy delegate : FunctionDefinition)
    (scope : nat) : M FunctionDefinition :=
  let* inputParams := cloneParameterList (f_parameters funcToCopy) in
  let* retParams := cloneParameterList (f_returnParameters funcToCopy) in
  assert (bool_decide (f_kind funcToCopy = KindFunction))
         (CopyNonMemberFunction (f_name funcToCopy)) ;;
  if f_isConstructor funcToCopy then throw NotSupportedYetError
  else
    let* newId := reserveId in
    let* modifiers := mapM cloneModifierInvocation (f_modifiers funcToCopy) in
    let* _ := reserveId in      (* Block *)
    let* _ := reserveId in      (* Return *)
    let* _ := reserveId in      (* FunctionCall *)
    let* _ := reserveId in      (* Identifier *)
    let* arguments := mapM createIdentifier (pl_parameters inputParams) in
    ret (mkFunctionDefinition newId scope (f_kind funcToCopy)
           (f_name funcToCopy) (f_virtual funcToCopy)
           (f_visibility funcToCopy) (f_stateMutability funcToCopy)
           (f_isConstructor funcToCopy) inputParams retParams modifiers
           (Some [Return (pl_id retParams)
                    (Some (FunctionCall
                             (Identifier (f_name delegate) (f_id delegate))
                             arguments))])).

(** The body of the loop over the functions to move of
    [addNonoverridenPublicFunctions]. *)
Definition promote (node : nat) (idRemapping : gmap nat FunctionDefinition)
    (f : FunctionDefinition) : M unit :=
  match idRemapping !! f_id f with
  | None => throw (AssertionError (NoInlinedBaseFunction (f_id f)))
  | Some privateFunc =>
      let* d := createDelegatingFunction f privateFunc node in
      appendChild node (ChildFunction d)
  end.

Definition addNonoverridenPublicFunctions (node : nat)
    (idRemapping : gmap nat FunctionDefinition) : M unit :=
  let* depth := gets callStack in
  let* visibleFunctionNames := liftR (squashInterface depth node) in
  let* resolvedVisibleFunctions :=
    liftR (mapR (resolveFunctionName depth node) visibleFunctionNames) in
  let functionsToMove :=
    filter (fun func => f_scope func ≠ node) resolvedVisibleFunctions in
  forEach (promote node idRemapping) functionsToMove.

(** [Map.prototype.set] on a map that iterates in insertion order: the value
    of a key that is present is replaced where it stands. *)
Fixpoint map_set {V} (k : string) (v : V) (m : list (string * V))
  : list (string * V) :=
  match m with
  | [] => [(k, v)]
  | (k', v') :: m' =>
      if bool_decide (k' = k) then (k, v) :: m' else (k', v') :: map_set k v m'
  end.

Definition collectInheritedVariables (inherited : list (string * VariableDeclaration))
    (b : ContractDefinition) : list (string * VariableDeclaration) :=
  foldl (fun m decl => map_set (v_name decl) decl m) inherited
        (vStateVariables b).

(** The body of the loop over the bases, and the body of the loop over the
    map, of [addStorageVariables]. *)
Definition collectBase (inherited : list (string * VariableDeclaration))
    (base : nat) : M (list (string * VariableDeclaration)) :=
  let* b := locate base in
  ret (collectInheritedVariables inherited b).

Definition inheritVariable (node : nat)
    (idRemapping : gmap nat VariableDeclaration)
    (variable : VariableDeclaration) : M (gmap nat VariableDeclaration) :=
  let* newVariable := cloneVariableDeclaration variable in
  insertAtBeginning node (ChildVariable newVariable) ;;
  ret (<[v_id variable := newVariable]> idRemapping).

Definition addStorageVariables (node : nat)
    (idRemapping : gmap nat VariableDeclaration)
  : M (gmap nat VariableDeclaration) :=
  let* c := locate node in
  let* inheritedVariables :=
    foldM collectBase (reverse (getBaseContracts c)) [] in
  foldM (inheritVariable node) (inheritedVariables.*2) idRemapping.

(** [modifierNames] is a [Set<string>] of which only the membership and the
    size are read. *)
Definition addNonOverridenModifiers (node : nat)
    (idRemapping : gmap nat ModifierDefinition)
  : M (gmap nat ModifierDefinition) :=
  let* c := locate node in
  let modifierNames :=
    foldl (fun s modifier => set_add (m_name modifier) s) [] (vModifiers c) in
  let* (_, idRemapping) :=
    foldM (fun st contract =>
             let* b := locate contract in
             foldM (fun '(modifierNames, idRemapping) modifier =>
                      let sz := length modifierNames in
                      let modifierNames := set_add (m_name modifier) modifierNames in
                      if bool_decide (sz < length modifierNames) then
                        let* clonedModifier := cloneModifierDefinition modifier in
                        appendChild node (ChildModifier clonedModifier) ;;
                        ret (modifierNames,
                             <[m_id modifier := clonedModifier]> idRemapping)
                      else ret (modifierNames, idRemapping))
                   (vModifiers b) st)
          (getBaseContracts c) (modifierNames, idRemapping) in
  ret idRemapping.

(** *** The reference rewriter *)

Class Declaration (V : Type) : Type := {
  decl_id : V -> nat;
  decl_name : V -> string
}.

#[global] Instance FunctionDefinition_Declaration
  : Declaration FunctionDefinition := {| decl_id := f_id; decl_name := f_name |}.
#[global] Instance VariableDeclaration_Declaration
  : Declaration VariableDeclaration := {| decl_id := v_id; decl_name := v_name |}.
#[global] Instance ModifierDefinition_Declaration
  : Declaration ModifierDefinition := {| decl_id := m_id; decl_name := m_name |}.

Section Rewriter.
Context {V : Type} `{Declaration V} (idRemapping : gmap nat V).

(** The walk threads the id counter: a member access that is replaced
    takes a fresh id for the identifier that replaces it. *)
Definition walkList {A} (walk : A -> nat -> A * nat)
  : list A -> nat -> list A * nat :=
  fix go (l : list A) (n : nat) : list A * nat :=
    match l with
    | [] => ([], n)
    | x :: l' =>
        let '(x', n1) := walk x n in
        let '(l'', n2) := go l' n1 in
        (x' :: l'', n2)
    end.

Definition walkOption {A} (walk : A -> nat -> A * nat)
    (o : option A) (n : nat) : option A * nat :=
  match o with
  | Some x => let '(x', n1) := walk x n in (Some x', n1)
  | None => (None, n)
  end.

Fixpoint walkExpression (e : Expression) (n : nat) : Expression * nat :=
  match e with
  | Identifier name r =>
      match idRemapping !! r with
      | Some remapping =>
          (Identifier (decl_name remapping) (decl_id remapping), n)
      | None => (e, n)
      end
  | IdentifierPath name r =>
      match idRemapping !! r with
      | Some remapping =>
          (IdentifierPath (decl_name remapping) (decl_id remapping), n)
      | None => (e, n)
      end
  | MemberAccess b member r =>
      match idRemapping !! r with
      | Some remapping =>
          (Identifier (decl_name remapping) (decl_id remapping), S n)
      | None =>
          let '(b', n1) := walkExpression b n in (MemberAccess b' member r, n1)
      end
  | FunctionCall f args =>
      let '(f', n1) := walkExpression f n in
      let '(args', n2) := walkList walkExpression args n1 in
      (FunctionCall f' args', n2)
  | OtherExpression label children =>
      let '(children', n1) := walkList walkExpression children n in
      (OtherExpression label children', n1)
  end.

Fixpoint walkStatement (s : Statement) (n : nat) : Statement * nat :=
  match s with
  | ExpressionStatement e =>
      let '(e', n1) := walkExpression e n in (ExpressionStatement e', n1)
  | Return p e =>
      let '(e', n1) := walkOption walkExpression e n in (Return p e', n1)
  | Block stmts =>
      let '(stmts', n1) := walkList walkStatement stmts n in (Block stmts', n1)
  | OtherStatement label exprs stmts =>
      let '(exprs', n1) := walkList walkExpression exprs n in
      let '(stmts', n2) := walkList walkStatement stmts n1 in
      (OtherStatement label exprs' stmts', n2)
  end.

Definition walkNameNode (x : NameNode) (n : nat) : NameNode * nat :=
  match x with
  | NameIdentifier name r =>
      match idRemapping !! r with
      | Some remapping =>
          (NameIdentifier (decl_name remapping) (decl_id remapping), n)
      | None => (x, n)
      end
  | NameIdentifierPath name r =>
      match idRemapping !! r with
      | Some remapping =>
          (NameIdentifierPath (decl_name remapping) (decl_id remapping), n)
      | None => (x, n)
      end
  | NameUserDefinedTypeName _ _ => (x, n)
  end.

Definition walkVariableDeclaration (v : VariableDeclaration) (n : nat)
  : VariableDeclaration * nat :=
  let '(value, n1) := walkOption walkExpression (v_value v) n in
  (mkVariableDeclaration (v_id v) (v_name v) (v_typeString v) (v_scope v)
                         value, n1).

Definition walkParameterList (p : ParameterList) (n : nat)
  : ParameterList * nat :=
  let '(ps, n1) := walkList walkVariableDeclaration (pl_parameters p) n in
  (mkParameterList (pl_id p) ps, n1).

Definition walkModifierInvocation (m : ModifierInvocation) (n : nat)
  : ModifierInvocation * nat :=
  let '(name, n1) := walkNameNode (mi_modifierName m) n in
  let '(args, n2) := walkList walkExpression (mi_arguments m) n1 in
  (mkModifierInvocation name args, n2).

Definition walkFunctionDefinition (f : FunctionDefinition) (n : nat)
  : FunctionDefinition * nat :=
  let '(ps, n1) := walkParameterList (f_parameters f) n in
  let '(rs, n2) := walkParameterList (f_returnParameters f) n1 in
  let '(ms, n3) := walkList walkModifierInvocation (f_modifiers f) n2 in
  let '(b, n4) := walkOption (walkList walkStatement) (f_body f) n3 in
  (mkFunctionDefinition (f_id f) (f_scope f) (f_kind f) (f_name f)
     (f_virtual f) (f_visibility f) (f_stateMutability f)
     (f_isConstructor f) ps rs ms b, n4).

Definition walkModifierDefinition (m : ModifierDefinition) (n : nat)
  : ModifierDefinition * nat :=
  let '(ps, n1) := walkParameterList (m_parameters m) n in
  let '(b, n2) := walkOption (walkList walkStatement) (m_body m) n1 in
  (mkModifierDefinition (m_id m) (m_name m) ps b, n2).

Definition walkChild (ch : ContractChild) (n : nat) : ContractChild * nat :=
  match ch with
  | ChildSpecifier s =>
      let '(base, n1) := walkNameNode (is_baseType s) n in
      let '(args, n2) := walkList walkExpression (is_arguments s) n1 in
      (ChildSpecifier (mkInheritanceSpecifier base args), n2)
  | ChildVariable v =>
      let '(v', n1) := walkVariableDeclaration v n in (ChildVariable v', n1)
  | ChildFunction f =>
      let '(f', n1) := walkFunctionDefinition f n in (ChildFunction f', n1)
  | ChildModifier m =>
      let '(m', n1) := walkModifierDefinition m n in (ChildModifier m', n1)
  | ChildOther _ => (ch, n)
  end.

End Rewriter.

(** [node.walkChildren] with the callback of the rewriter: identifiers and
    identifier paths are redirected in place, a member access whose target is
    remapped is replaced by an identifier (what is below the replaced node is
    no longer in the tree). *)
Definition updateReferencedDeclarations {V : Type} `{Declaration V}
    (node : nat) (idRemapping : gmap nat V) : M unit :=
  fun ast =>
    match context ast !! node with
    | None => Err TypeError
    | Some c =>
        let '(chs, n) :=
          walkList (walkChild idRemapping) (c_children c) (nextId ast) in
        Ok (tt, mkAST (roots ast)
                      (<[node := setChildren c chs]> (context ast)) n)
    end.

(** *** The constructor linearizer *)

(** [x instanceof ContractDefinition] for the node a reference resolves to. *)
Definition isContractDefinition (ast : AST) (id : nat) : bool :=
  bool_decide (is_Some (context ast !! id)).

(** One inheritance specifier of [getArguments]. *)
Definition specifierArguments (args : gmap nat (list Expression))
    (specifier : InheritanceSpecifier) : gmap nat (list Expression) :=
  let contractId := nn_referencedDeclaration (is_baseType specifier) in
  match args !! contractId with
  | None => <[contractId := is_arguments specifier]> args
  | Some argList =>
      if bool_decide (length argList < length (is_arguments specifier))
      then <[contractId := is_arguments specifier]> args
      else args
  end.

Definition getArguments (contract : ContractDefinition)
    (constructorFunc : option FunctionDefinition)
    (args : gmap nat (list Expression)) (ast : AST)
  : gmap nat (list Expression) :=
  let args :=
    match constructorFunc with
    | Some constructorFunc =>
        foldl (fun args modInvocation =>
                 let contractDef :=
                   nn_referencedDeclaration (mi_modifierName modInvocation) in
                 if isContractDefinition ast contractDef
                 then <[contractDef := mi_arguments modInvocation]> args
                 else args)
              args (f_modifiers constructorFunc)
    | None => args
    end in
  foldl specifierArguments args (vInheritanceSpecifiers contract).

Definition constructorFunctionName (id : nat) : string :=
  "__warp_constructor_" +:+ pretty id.

Definition createFunctionFromConstructor (constructorFunc : FunctionDefinition)
    (id : nat) (node : nat) : M FunctionDefinition :=
  let* newFunc := cloneFunctionDefinition constructorFunc in
  ret (mkFunctionDefinition (f_id newFunc) (f_scope newFunc) KindFunction
         (constructorFunctionName id) (f_virtual newFunc) VisPrivate
         (f_stateMutability newFunc) false (f_parameters newFunc)
         (f_returnParameters newFunc) (f_modifiers newFunc) (f_body newFunc)).

(** The new constructor is returned to the caller; nothing makes it a child
    of [node]. *)
Definition createDefaultConstructor (node : nat) : M FunctionDefinition :=
  let* i := reserveId in
  let* ps := createParameterList [] in
  let* rs := createParameterList [] in
  ret (mkFunctionDefinition i node KindConstructor "" false VisPublic
         MutNonPayable true ps rs [] None).

Definition setBody (body : list Statement) (f : FunctionDefinition)
  : FunctionDefinition :=
  mkFunctionDefinition (f_id f) (f_scope f) (f_kind f) (f_name f)
    (f_virtual f) (f_visibility f) (f_stateMutability f) (f_isConstructor f)
    (f_parameters f) (f_returnParameters f) (f_modifiers f) (Some body).

(** [generateBody] assigns the body to the function object it is given; the
    function with its body is the result, and a caller whose function is a
    child of a contract writes it through. *)
Definition generateBody (statements : list Statement)
    (constructorFunc : FunctionDefinition) : M FunctionDefinition :=
  let* newBody := createBlock statements in
  ret (setBody newBody constructorFunc).

(** Writing to the object [node.vConstructor] refers to: the first child that
    is a function of kind constructor. *)
Fixpoint updateConstructor (g : FunctionDefinition -> FunctionDefinition)
    (chs : list ContractChild) : list ContractChild :=
  match chs with
  | [] => []
  | ChildFunction f :: chs' =>
      if isConstructorKind f then ChildFunction (g f) :: chs'
      else ChildFunction f :: updateConstructor g chs'
  | ch :: chs' => ch :: updateConstructor g chs'
  end.

(** The first loop: constructors and arguments along the linearization. *)
Definition collectConstructor
    (collected : gmap nat (list Expression) * gmap nat FunctionDefinition)
    (contractId : nat)
  : M (gmap nat (list Expression) * gmap nat FunctionDefinition) :=
  let '(args, constructors) := collected in
  let* contract := locate contractId in
  let constructorFunc := vConstructor contract in
  let constructors :=
    match constructorFunc with
    | Some f => <[contractId := f]> constructors
    | None => constructors
    end in
  let* args := gets (getArguments contract constructorFunc args) in
  ret (args, constructors).

Definition collectConstructors (c : ContractDefinition)
  : M (gmap nat (list Expression) * gmap nat FunctionDefinition) :=
  foldM collectConstructor (linearizedBaseContracts c) (∅, ∅).

(** The second loop: one private function and one call per base that has a
    constructor. *)
Definition callConstructor (node : nat) (args : gmap nat (list Expression))
    (constructors : gmap nat FunctionDefinition)
    (statements : list Statement) (contractId : nat) : M (list Statement) :=
  match constructors !! contractId with
  | Some constructorFunc =>
      let* newFunc :=
        createFunctionFromConstructor constructorFunc contractId node in
      appendChild node (ChildFunction newFunc) ;;
      let argList := default [] (args !! contractId) in
      assert (bool_decide
                (length (pl_parameters (f_parameters constructorFunc))
                 = length argList))
             WrongNumberOfArguments ;;
      let* _ := reserveId in
      let* call := generateFunctionCall newFunc argList in
      ret (statements ++ [ExpressionStatement call])
  | None => ret statements
  end.

Definition callConstructors (node : nat) (c : ContractDefinition)
    (args : gmap nat (list Expression))
    (constructors : gmap nat FunctionDefinition) : M (list Statement) :=
  foldM (callConstructor node args constructors)
        (reverse (drop 1 (linearizedBaseContracts c))) [].

Definition solveConstructorInheritance (node : nat) : M unit :=
  let* c := locate node in
  let* (args, constructors) := collectConstructors c in
  let* statements := callConstructors node c args constructors in
  if bool_decide (0 < length statements) then
    let* c' := locate node in
    match vConstructor c' with
    | Some selfConstructor =>
        match f_body selfConstructor with
        | None =>
            let* withBody := generateBody statements selfConstructor in
            modifyChildren node (updateConstructor (fun _ => withBody))
        | Some body =>
            let* cloned := cloneBlock body in
            let* newBody := createBlock (statements ++ cloned) in
            modifyChildren node (updateConstructor (setBody newBody))
        end
    | None =>
        let* selfConstructor := createDefaultConstructor node in
        let* _ := generateBody statements selfConstructor in
        ret tt
    end
  else ret tt.

(** *** The visitor and the scheduler *)

(** Modelled from the spec: [ASTMapper.commonVisit] ([ast/mapper]) is not part
    of the sources at hand.  It dispatches to the visitors of the children;
    this pass overrides none of them but [visitContractDefinition], and no
    contract is below a contract, so nothing is left to do. *)
Definition commonVisit (node : nat) : M unit := ret tt.

Module InheritanceInliner.

Definition visitContractDefinition (node : nat) : M unit :=
  let* c := locate node in
  if bool_decide (length (linearizedBaseContracts c) < 2) then ret tt
  else
    solveConstructorInheritance node ;;
    let* functionRemapping := addPrivateSuperFunctions node ∅ in
    addNonoverridenPublicFunctions node functionRemapping ;;
    let* variableRemapping := addStorageVariables node ∅ in
    let* modifierRemapping := addNonOverridenModifiers node ∅ in
    updateReferencedDeclarations node functionRemapping ;;
    updateReferencedDeclarations node variableRemapping ;;
    updateReferencedDeclarations node modifierRemapping ;;
    commonVisit node.

(** The bases of a pending contract, read from the current store. *)
Definition basesOf (ast : AST) (contract : nat) : list nat :=
  match context ast !! contract with
  | Some c => getBaseContracts c
  | None => []
  end.

Definition mostDerivedContracts (ast : AST) (contracts : list nat) : list nat :=
  filter (fun derivedContract =>
            ¬ Exists (fun otherContract =>
                        derivedContract ∈ basesOf ast otherContract)
                     contracts)
         contracts.

(** The loop of [map]; [rounds] bounds the number of rounds. *)
Fixpoint mapLoop (rounds : nat) (contracts : list nat) : M unit :=
  match contracts with
  | [] => ret tt
  | _ :: _ =>
      match rounds with
      | 0 => throw LoopFuel
      | S rounds' =>
          let* mostDerived := gets (fun ast => mostDerivedContracts ast contracts) in
          if bool_decide (length mostDerived = 0) then
            throw (TranspileFailedError UnableToSerialise)
          else
            let contracts' := filter (fun c => c ∉ mostDerived) contracts in
            forEach visitContractDefinition mostDerived ;;
            mapLoop rounds' contracts'
      end
  end.

(** [ast.roots.flatMap((root) => root.vContracts)]. *)
Definition vContracts (ast : AST) : list nat := concat (roots ast).

(** [map]: every round takes at least one contract out of the pending ones,
    so as many rounds as there are contracts suffice. *)
Definition map (ast : AST) : result AST :=
  let contracts := vContracts ast in
  match mapLoop (length contracts) contracts ast with
  | Ok (_, ast') => Ok ast'
  | Err e => Err e
  end.

End InheritanceInliner.

Import InheritanceInliner.

(** ** Notions used to state the properties *)

(** A computation keeps a relation between the store before and after. *)
Definition preserves (Rel : AST -> AST -> Prop) {A} (m : M A) : Prop :=
  ∀ ast a ast', m ast = Ok (a, ast') -> Rel ast ast'.

(** The linearization of the contract under an id, if there is one. *)
Definition linearizationOf (ast : AST) (k : nat) : option (list nat) :=
  linearizedBaseContracts <$> (context ast !! k).

(** What a run that only rewrites the contracts in [touched] leaves alone:
    the source units, every other contract, and every linearization. *)
Definition frame (touched : list nat) (ast ast' : AST) : Prop :=
  roots ast' = roots ast
  ∧ (∀ k, k ∉ touched -> context ast' !! k = context ast !! k)
  ∧ (∀ k, linearizationOf ast' k = linearizationOf ast k).

(** The order in which [map] flattens, computed on the store it starts from:
    round after round, the contracts no pending contract has as a base. *)
Fixpoint schedule (rounds : nat) (ast : AST) (contracts : list nat)
  : option (list nat) :=
  match contracts with
  | [] => Some []
  | _ :: _ =>
      match rounds with
      | 0 => None
      | S rounds' =>
          let mostDerived := mostDerivedContracts ast contracts in
          if bool_decide (length mostDerived = 0) then None
          else
            (fun rest => mostDerived ++ rest)
              <$> schedule rounds' ast
                    (filter (fun c => c ∉ mostDerived) contracts)
      end
  end.

(** The rounds of [map]: from the pending contracts and the store at the
    start of a round to those at the start of a later round. *)
Inductive roundsTo : list nat -> AST -> list nat -> AST -> Prop :=
  | roundsTo_here contracts ast : roundsTo contracts ast contracts ast
  | roundsTo_round contracts ast ast1 contracts2 ast2 :
      mostDerivedContracts ast contracts ≠ [] ->
      forEach InheritanceInliner.visitContractDefinition
              (mostDerivedContracts ast contracts) ast = Ok (tt, ast1) ->
      roundsTo (filter (fun c => c ∉ mostDerivedContracts ast contracts)
                       contracts) ast1 contracts2 ast2 ->
      roundsTo contracts ast contracts2 ast2.

(** The shape of a parameter list: the names and types, in order. *)
Definition shape (p : ParameterList) : list (string * string) :=
  (fun v => (v_name v, v_typeString v)) <$> pl_parameters p.

(** The merge of the storage flattener over the declarations it meets, in
    the order it meets them. *)
Definition mergeByName (decls : list VariableDeclaration)
  : list (string * VariableDeclaration) :=
  foldl (fun m decl => map_set (v_name decl) decl m) [] decls.

(** The contracts a list of references resolves to. *)
Definition located (ast : AST) (ids : list nat) (bs : list ContractDefinition)
  : Prop :=
  Forall2 (fun id b => context ast !! id = Some b) ids bs.

(** A clone: the declaration under a fresh id. *)
Definition withId (i : nat) (v : VariableDeclaration) : VariableDeclaration :=
  mkVariableDeclaration i (v_name v) (v_typeString v) (v_scope v) (v_value v).

(** The clones of a list of declarations, made one after the other from the
    id [n] on. *)
Definition cloned (n : nat) (vars : list VariableDeclaration)
  : list VariableDeclaration :=
  imap (fun i v => withId (n + i) v) vars.

(** The declarations the storage flattener meets: base after base, from the
    farthest to the nearest. *)
Definition inheritedDeclarations (bs : list ContractDefinition)
  : list VariableDeclaration :=
  concat (vStateVariables <$> reverse bs).

(** What a state variable keeps through the reference rewriter, which may
    rewrite its initial value. *)
Definition signature (v : VariableDeclaration) : string * string * nat :=
  (v_name v, v_typeString v, v_scope v).

(** The state variables of a contract in the store, by signature. *)
Definition variableSignatures (ast : AST) (node : nat)
  : option (list (string * string * nat)) :=
  (fun c => signature <$> vStateVariables c) <$> context ast !! node.

(** A step that neither adds, drops nor reorders state variables of
    [node]. *)
Definition keepsVariables (node : nat) (ast ast' : AST) : Prop :=
  variableSignatures ast' node = variableSignatures ast node.

(** Computations that only draw ids leave the contracts alone. *)
Definition sameContext (ast ast' : AST) : Prop := context ast' = context ast.

(** What marks the private copy of a base function at a depth. *)
Definition privateCopyOf (node depth : nat) (func cl : FunctionDefinition)
  : Prop :=
  f_name cl = suffixed (f_name func) depth
  ∧ f_visibility cl = VisPrivate
  ∧ f_scope cl = node.

(** The private copy a remapping entry stands for: made of a function [func]
    of the base at [depth], which is not a constructor and has the id the
    entry is recorded under. *)
Definition recordedCopy (ast : AST) (node : nat)
    (indexed : list (nat * nat)) (k : nat) (priv : FunctionDefinition) : Prop :=
  ∃ depth base b func,
    (depth, base) ∈ indexed
    ∧ context ast !! base = Some b
    ∧ func ∈ vFunctions b
    ∧ f_isConstructor func = false
    ∧ f_id func = k
    ∧ privateCopyOf node depth func priv.

(** [d] forwards to [priv] in the place of [f]: the name, visibility,
    mutability and the shapes of the parameter lists are those of [f], and
    the body returns the call of [priv] on the parameters of [d]. *)
Definition delegatesTo (scope : nat) (f priv d : FunctionDefinition) : Prop :=
  f_name d = f_name f
  ∧ f_scope d = scope
  ∧ f_kind d = KindFunction
  ∧ f_isConstructor d = false
  ∧ f_visibility d = f_visibility f
  ∧ f_stateMutability d = f_stateMutability f
  ∧ shape (f_parameters d) = shape (f_parameters f)
  ∧ shape (f_returnParameters d) = shape (f_returnParameters f)
  ∧ f_body d
    = Some [Return (pl_id (f_returnParameters d))
              (Some (FunctionCall
                       (Identifier (f_name priv) (f_id priv))
                       ((fun v => Identifier (v_name v) (v_id v))
                          <$> pl_parameters (f_parameters d))))].

(** The errors a computation, or a read, can end in. *)
Definition throwsOnly (E : error -> Prop) {A} (m : M A) : Prop :=
  ∀ ast e, m ast = Err e -> E e.

(** The same for a read of the store. *)
Definition failsOnly (E : error -> Prop) {A} (r : R A) : Prop :=
  ∀ ast e, r ast = Err e -> E e.

(** Every error but the bound of the scheduler loop. *)
Definition notLoopFuel (e : error) : Prop := e ≠ LoopFuel.

(** The private function made of the constructor of the ancestor [id]. *)
Definition constructorClone (id : nat) (constructorFunc newFunc : FunctionDefinition)
  : Prop :=
  f_name newFunc = constructorFunctionName id
  ∧ f_kind newFunc = KindFunction
  ∧ f_isConstructor newFunc = false
  ∧ f_visibility newFunc = VisPrivate
  ∧ f_body newFunc = f_body constructorFunc.

(** The statement that calls it. *)
Definition constructorCall (args : gmap nat (list Expression)) (id : nat)
    (newFunc : FunctionDefinition) : Statement :=
  ExpressionStatement
    (FunctionCall (Identifier (constructorFunctionName id) (f_id newFunc))
                  (default [] (args !! id))).

(** The constructor of the contract a reference resolves to. *)
Definition constructorOf (ast : AST) (id : nat) : option FunctionDefinition :=
  context ast !! id ≫= vConstructor.

(** One step of the map of constructors of the first loop. *)
Definition recordConstructor (ast : AST)
    (constructors : gmap nat FunctionDefinition) (id : nat)
  : gmap nat FunctionDefinition :=
  match constructorOf ast id with
  | Some f => <[id := f]> constructors
  | None => constructors
  end.

(** The ancestors of [c] that declare a constructor, farthest first. *)
Definition ancestorsWithConstructor (ast : AST) (c : ContractDefinition)
  : list nat :=
  filter (fun id => is_Some (constructorOf ast id))
         (reverse (drop 1 (linearizedBaseContracts c))).

(** Where [squashInterface] goes on from a contract: its first base. *)
Definition nextInterface (ast : AST) (node : nat) : option nat :=
  context ast !! node ≫= fun c => head (getBaseContracts c).

(** [resolveFunctionName] goes on only from a contract without a function
    of the name. *)
Definition nextResolution (ast : AST) (functionName : string) (node : nat)
  : option nat :=
  context ast !! node ≫= fun c =>
    match filter (fun f => f_name f = functionName) (vFunctions c) with
    | [] => head (getBaseContracts c)
    | _ :: _ => None
    end.

(** The contracts a recursion passes before it stops at [z]. *)
Inductive chain (next : nat -> option nat) : nat -> list nat -> nat -> Prop :=
  | chain_stop x : next x = None -> chain next x [] x
  | chain_step x y p z :
      next x = Some y -> chain next y p z -> chain next x (x :: p) z.

(** *** Notions of the properties of the single steps *)

(** The names a contract itself puts in the visible interface. *)
Definition ownInterface (c : ContractDefinition) : list string :=
  f_name <$> filter (fun func => isExternallyVisible func
                                 && negb (f_isConstructor func) = true)
                    (vFunctions c).

(** The same for the contract under an id. *)
Definition interfaceOf (ast : AST) (k : nat) : list string :=
  match context ast !! k with
  | Some c => ownInterface c
  | None => []
  end.

(** A walk along [next] that may stop anywhere: the contracts left behind,
    and the contract reached. *)
Inductive path (next : nat -> option nat) : nat -> list nat -> nat -> Prop :=
  | path_here x : path next x [] x
  | path_step x y p z :
      next x = Some y -> path next y p z -> path next x (x :: p) z.

Definition add_all (s l : list string) : list string :=
  foldl (fun s x => set_add x s) s l.

(** A contract without a function of the name. *)
Definition declaresNone (ast : AST) (functionName : string) (k : nat) : Prop :=
  ∃ c, context ast !! k = Some c
       ∧ filter (fun f => f_name f = functionName) (vFunctions c) = [].

(** Where an error of the search comes from. *)
Definition resolutionError (ast : AST) (functionName : string) (fuel : nat)
    (p : list nat) (z : nat) (e : error) : Prop :=
  match e with
  | TranspileFailedError (MultipleFunctions n k) =>
      n = functionName ∧ k = z
      ∧ ∃ c, context ast !! z = Some c
             ∧ 1 < length (filter (fun f => f_name f = functionName)
                                  (vFunctions c))
  | TranspileFailedError (FailedToFind n k) =>
      n = functionName ∧ k = z
      ∧ ∃ c, context ast !! z = Some c
             ∧ filter (fun f => f_name f = functionName) (vFunctions c) = []
             ∧ getBaseContracts c = []
  | TypeError => context ast !! z = None
  | RangeError => length p = fuel
  | _ => False
  end.

(** Computations that draw ids and build nodes always return. *)
Definition returns {A} (m : M A) : Prop :=
  ∀ ast, ∃ a ast', m ast = Ok (a, ast') ∧ context ast' = context ast.

(** The arguments [solveConstructorInheritance] has collected when its first
    loop ends. *)
Definition collectedArguments (ast : AST) (c : ContractDefinition)
  : gmap nat (list Expression) :=
  foldl (fun args id =>
           match context ast !! id with
           | Some contract => getArguments contract (vConstructor contract) args ast
           | None => args
           end)
        ∅ (linearizedBaseContracts c).

(** The call of the constructor of an ancestor has as many arguments as the
    constructor has parameters. *)
Definition arityMatches (ast : AST) (args : gmap nat (list Expression))
    (id : nat) : Prop :=
  ∀ constructorFunc, constructorOf ast id = Some constructorFunc ->
    length (pl_parameters (f_parameters constructorFunc))
    = length (default [] (args !! id)).

(** The counter behind [reserveId] never goes back. *)
Definition grows (ast ast' : AST) : Prop := nextId ast ≤ nextId ast'.

(** An invocation on a constructor that names the contract [k]. *)
Definition invokes (ast : AST) (k : nat) (modInvocation : ModifierInvocation)
  : Prop :=
  nn_referencedDeclaration (mi_modifierName modInvocation) = k
  ∧ isContractDefinition ast k = true.

(** An inheritance specifier of the base [k]. *)
Definition specifies (k : nat) (specifier : InheritanceSpecifier) : Prop :=
  nn_referencedDeclaration (is_baseType specifier) = k.

(** The first loop of [getArguments]. *)
Definition invocationArguments (ast : AST) (args : gmap nat (list Expression))
    (modifiers : list ModifierInvocation) : gmap nat (list Expression) :=
  foldl (fun args modInvocation =>
           let contractDef :=
             nn_referencedDeclaration (mi_modifierName modInvocation) in
           if isContractDefinition ast contractDef
           then <[contractDef := mi_arguments modInvocation]> args
           else args)
        args modifiers.

(** The functions [addPrivateSuperFunctions] copies: base after base from
    the nearest, every function that is not a constructor, with the depth of
    its base. *)
Definition superFunctionsOf (indexed : list (nat * ContractDefinition))
  : list (nat * FunctionDefinition) :=
  concat ((fun ib : nat * ContractDefinition =>
             pair ib.1 <$> filter (fun func => f_isConstructor func = false)
                                  (vFunctions ib.2))
            <$> indexed).

Definition superFunctions (bs : list ContractDefinition)
  : list (nat * FunctionDefinition) :=
  superFunctionsOf (imap pair bs).

(** What a clone keeps of the function it is made of. *)
Definition copyOf (func cl : FunctionDefinition) : Prop :=
  f_kind cl = f_kind func
  ∧ f_stateMutability cl = f_stateMutability func
  ∧ f_isConstructor cl = f_isConstructor func
  ∧ f_body cl = f_body func
  ∧ shape (f_parameters cl) = shape (f_parameters func)
  ∧ shape (f_returnParameters cl) = shape (f_returnParameters func).

Definition record (idRemapping : gmap nat FunctionDefinition)
    (clones : list (FunctionDefinition * FunctionDefinition))
  : gmap nat FunctionDefinition :=
  foldl (fun m '(func, cl) => <[f_id func := cl]> m) idRemapping clones.

(** The modifiers [addNonOverridenModifiers] clones, of the modifiers of the
    bases in the order it meets them: those whose name has not been seen. *)
Fixpoint nonOverridden (seen : list string) (mods : list ModifierDefinition)
  : list ModifierDefinition :=
  match mods with
  | [] => []
  | m :: mods' =>
      if bool_decide (m_name m ∈ seen) then nonOverridden seen mods'
      else m :: nonOverridden (m_name m :: seen) mods'
  end.

(** What the clone of a modifier keeps. *)
Definition modifierCopyOf (m cl : ModifierDefinition) : Prop :=
  m_name cl = m_name m
  ∧ m_body cl = m_body m
  ∧ shape (m_parameters cl) = shape (m_parameters m).

(** The entries a flattener records, one after the other. *)
Definition recorded {A V : Type} (key : A -> nat) (idRemapping : gmap nat V)
    (pairs : list (A * V)) : gmap nat V :=
  foldl (fun m p => <[key p.1 := p.2]> m) idRemapping pairs.

(** The body of the loop over the modifiers of a base, and of the loop over
    the bases, of [addNonOverridenModifiers]. *)
Definition inheritModifier (node : nat)
  : list string * gmap nat ModifierDefinition -> ModifierDefinition
    -> M (list string * gmap nat ModifierDefinition) :=
  fun '(modifierNames, idRemapping) modifier =>
    let sz := length modifierNames in
    let modifierNames := set_add (m_name modifier) modifierNames in
    if bool_decide (sz < length modifierNames) then
      let* clonedModifier := cloneModifierDefinition modifier in
      appendChild node (ChildModifier clonedModifier) ;;
      ret (modifierNames, <[m_id modifier := clonedModifier]> idRemapping)
    else ret (modifierNames, idRemapping).

Definition inheritModifiers (node : nat)
    (st : list string * gmap nat ModifierDefinition) (contract : nat)
  : M (list string * gmap nat ModifierDefinition) :=
  let* b := locate contract in
  foldM (inheritModifier node) (vModifiers b) st.

(** The declarations the nodes below a contract refer to, through the nodes
    the rewriter looks at: identifiers, identifier paths and member
    accesses. *)
Fixpoint referencesOfExpression (e : Expression) : list nat :=
  match e with
  | Identifier _ r | IdentifierPath _ r => [r]
  | MemberAccess b _ r => r :: referencesOfExpression b
  | FunctionCall f args =>
      referencesOfExpression f ++ concat (referencesOfExpression <$> args)
  | OtherExpression _ children =>
      concat (referencesOfExpression <$> children)
  end.

Fixpoint referencesOfStatement (s : Statement) : list nat :=
  match s with
  | ExpressionStatement e => referencesOfExpression e
  | Return _ e => from_option referencesOfExpression [] e
  | Block stmts => concat (referencesOfStatement <$> stmts)
  | OtherStatement _ exprs stmts =>
      concat (referencesOfExpression <$> exprs)
      ++ concat (referencesOfStatement <$> stmts)
  end.

Definition referencesOfNameNode (x : NameNode) : list nat :=
  match x with
  | NameIdentifier _ r | NameIdentifierPath _ r => [r]
  | NameUserDefinedTypeName _ _ => []
  end.

Definition referencesOfVariable (v : VariableDeclaration) : list nat :=
  from_option referencesOfExpression [] (v_value v).

Definition referencesOfParameters (p : ParameterList) : list nat :=
  concat (referencesOfVariable <$> pl_parameters p).

Definition referencesOfInvocation (m : ModifierInvocation) : list nat :=
  referencesOfNameNode (mi_modifierName m)
  ++ concat (referencesOfExpression <$> mi_arguments m).

Definition referencesOfBody (b : option (list Statement)) : list nat :=
  from_option (fun stmts => concat (referencesOfStatement <$> stmts)) [] b.

Definition referencesOfFunction (f : FunctionDefinition) : list nat :=
  referencesOfParameters (f_parameters f)
  ++ referencesOfParameters (f_returnParameters f)
  ++ concat (referencesOfInvocation <$> f_modifiers f)
  ++ referencesOfBody (f_body f).

Definition referencesOfModifier (m : ModifierDefinition) : list nat :=
  referencesOfParameters (m_parameters m) ++ referencesOfBody (m_body m).

Definition referencesOfChild (ch : ContractChild) : list nat :=
  match ch with
  | ChildSpecifier s =>
      referencesOfNameNode (is_baseType s)
      ++ concat (referencesOfExpression <$> is_arguments s)
  | ChildVariable v => referencesOfVariable v
  | ChildFunction f => referencesOfFunction f
  | ChildModifier m => referencesOfModifier m
  | ChildOther _ => []
  end.

Definition referencesOf (c : ContractDefinition) : list nat :=
  concat (referencesOfChild <$> c_children c).

(** What a function declaration is apart from what is below it: everything
    but the initial values of its parameters, its modifier invocations and
    its body. *)
Definition sameHeader (f f' : FunctionDefinition) : Prop :=
  f_id f' = f_id f
  ∧ f_scope f' = f_scope f
  ∧ f_kind f' = f_kind f
  ∧ f_name f' = f_name f
  ∧ f_virtual f' = f_virtual f
  ∧ f_visibility f' = f_visibility f
  ∧ f_stateMutability f' = f_stateMutability f
  ∧ f_isConstructor f' = f_isConstructor f
  ∧ shape (f_parameters f') = shape (f_parameters f)
  ∧ shape (f_returnParameters f') = shape (f_returnParameters f).

(** The same declaration, before and after a rewrite of what is below it. *)
Definition sameDeclaration (ch ch' : ContractChild) : Prop :=
  match ch, ch' with
  | ChildSpecifier _, ChildSpecifier _ => True
  | ChildVariable v, ChildVariable v' =>
      v_id v' = v_id v ∧ signature v' = signature v
  | ChildFunction f, ChildFunction f' => sameHeader f f'
  | ChildModifier m, ChildModifier m' =>
      m_id m' = m_id m ∧ m_name m' = m_name m
      ∧ shape (m_parameters m') = shape (m_parameters m)
  | ChildOther label, ChildOther label' => label' = label
  | _, _ => False
  end.

(** The contract under [node] keeps its declarations: its children are then
    new state variables, the children it had, each the same declaration, and
    new functions and modifiers. *)
Definition isVariable (ch : ContractChild) : Prop :=
  match ch with ChildVariable _ => True | _ => False end.

Definition isFunctionOrModifier (ch : ContractChild) : Prop :=
  match ch with ChildFunction _ | ChildModifier _ => True | _ => False end.

Definition grownFrom (chs chs' : list ContractChild) : Prop :=
  ∃ front kept back,
    chs' = front ++ kept ++ back
    ∧ Forall isVariable front
    ∧ Forall2 sameDeclaration chs kept
    ∧ Forall isFunctionOrModifier back.

Definition keepsDeclarations (node : nat) (ast ast' : AST) : Prop :=
  ∀ c, context ast !! node = Some c ->
       ∃ c', context ast' !! node = Some c'
             ∧ grownFrom (c_children c) (c_children c').

(** A string in which no underscore stands. *)
Fixpoint noUnderscore (s : string) : Prop :=
  match s with
  | EmptyString => True
  | String a s' => a ≠ "_"%char ∧ noUnderscore s'
  end.

(** Every contract a linearization names is in the store. *)
Definition closed (ast : AST) : Prop :=
  ∀ k c, context ast !! k = Some c ->
         ∀ b, b ∈ linearizedBaseContracts c -> is_Some (context ast !! b).

(** No contract is among its own bases. *)
Definition selfless (ast : AST) : Prop :=
  ∀ k c, context ast !! k = Some c -> k ∉ getBaseContracts c.

(** The errors a visit ends in on such a store. *)
Definition visitError (e : error) : Prop :=
  match e with
  | TranspileFailedError (MultipleFunctions _ _) => True
  | AssertionError _ => True
  | NotSupportedYetError => True
  | RangeError => True
  | _ => False
  end.

(** What a step needs of the store, and what the steps before it keep. *)
Definition ready (node : nat) (ast : AST) : Prop :=
  closed ast
  ∧ ∃ c, context ast !! node = Some c ∧ node ∉ getBaseContracts c.

Definition keepsModifiers (node : nat) (ast ast' : AST) : Prop :=
  (vModifiers <$> context ast' !! node) = (vModifiers <$> context ast !! node).

(** The ids of the declarations of a contract are below [n]. *)
Definition declaredBelow (n : nat) (b : ContractDefinition) : Prop :=
  Forall (fun f => f_id f < n) (vFunctions b)
  ∧ Forall (fun v => v_id v < n) (vStateVariables b)
  ∧ Forall (fun m => m_id m < n) (vModifiers b).

(** What the reference rewriter does to the references of a node, for a
    mapping [idRemapping]. *)
Section References.
Context {V : Type} `{Declaration V} (idRemapping : gmap nat V).

(** No reference among [rs] is remapped. *)
Definition untouched (rs : list nat) : Prop :=
  ∀ r, r ∈ rs -> idRemapping !! r = None.

(** Where a reference found after the rewrite comes from: it was there and
    is not remapped, or it is the id of what a reference that was there is
    remapped to. *)
Definition redirected (before : list nat) (r : nat) : Prop :=
  (r ∈ before ∧ idRemapping !! r = None)
  ∨ ∃ k v, k ∈ before ∧ idRemapping !! k = Some v ∧ r = decl_id v.

Definition redirects (before after : list nat) : Prop :=
  ∀ r, r ∈ after -> redirected before r.
End References.

(** ** Sample hierarchies *)

Module Samples.
Definition noParameters (i : nat) : ParameterList := mkParameterList i [].

Definition variable (i : nat) (name : string) (scope : nat)
  : VariableDeclaration :=
  mkVariableDeclaration i name "uint256" scope None.

Definition function (i scope : nat) (name : string)
    (visibility : FunctionVisibility) : FunctionDefinition :=
  mkFunctionDefinition i scope KindFunction name false visibility MutView
    false (mkParameterList (i + 1) [variable (i + 2) "n" i])
    (mkParameterList (i + 3) [variable (i + 4) "" i]) []
    (Some [Return (i + 3) (Some (Identifier "n" (i + 2)))]).

Definition constructor (i scope : nat) (body : list Statement)
  : FunctionDefinition :=
  mkFunctionDefinition i scope KindConstructor "" false VisPublic
    MutNonPayable true (noParameters (i + 1)) (noParameters (i + 2)) []
    (Some body).

(** [contract Base { uint x; uint a; constructor() {..}
                     function foo(uint n) external view returns (uint) } ]
    [contract Derived is Base { uint x; uint b; } ] *)
Definition Base : ContractDefinition :=
  mkContractDefinition "Base" [1]
    [ChildVariable (variable 10 "x" 1); ChildVariable (variable 11 "a" 1);
     ChildFunction (constructor 20 1 [OtherStatement "init" [] []]);
     ChildFunction (function 30 1 "foo" VisExternal)].

Definition Derived : ContractDefinition :=
  mkContractDefinition "Derived" [2; 1]
    [ChildSpecifier (mkInheritanceSpecifier
                       (NameUserDefinedTypeName "Base" 1) []);
     ChildVariable (variable 40 "x" 2); ChildVariable (variable 41 "b" 2)].

Definition hierarchy : AST :=
  mkAST [[1; 2]] (<[1 := Base]> (<[2 := Derived]> ∅)) 100.

Definition flattened : AST :=
  Eval vm_compute in
    match map hierarchy with Ok ast' => ast' | Err _ => hierarchy end.

(** The function flattener on [Derived], step by step. *)
Definition privateCopies : gmap nat FunctionDefinition * AST :=
  Eval vm_compute in
    match addPrivateSuperFunctions 2 ∅ hierarchy with
    | Ok r => r
    | Err _ => (∅, hierarchy)
    end.

Definition promoted : AST :=
  Eval vm_compute in
    match addNonoverridenPublicFunctions 2 privateCopies.1 privateCopies.2 with
    | Ok (_, ast') => ast'
    | Err _ => hierarchy
    end.

(** The constructor linearizer on [Derived], which has no constructor. *)
Definition linearized : AST :=
  Eval vm_compute in
    match solveConstructorInheritance 2 hierarchy with
    | Ok (_, ast') => ast'
    | Err _ => hierarchy
    end.

(** [Derived] with a constructor of its own. *)
Definition DerivedWithConstructor : ContractDefinition :=
  mkContractDefinition "Derived" [2; 1]
    [ChildVariable (variable 40 "x" 2);
     ChildFunction (constructor 50 2 [OtherStatement "own" [] []])].

Definition hierarchyWithConstructor : AST :=
  mkAST [[1; 2]] (<[1 := Base]> (<[2 := DerivedWithConstructor]> ∅)) 100.

(** [contract Derived is Base(b) { constructor() Base(a) {} }]: the base
    is given one argument at the constructor and one at the specifier. *)
Definition specifierOfBase : InheritanceSpecifier :=
  mkInheritanceSpecifier (NameUserDefinedTypeName "Base" 1)
                         [Identifier "b" 8].

Definition constructorNamingBase : FunctionDefinition :=
  mkFunctionDefinition 50 2 KindConstructor "" false VisPublic
    MutNonPayable true (noParameters 51) (noParameters 52)
    [mkModifierInvocation (NameIdentifier "Base" 1) [Identifier "a" 7]]
    (Some []).

Definition DerivedTwice : ContractDefinition :=
  mkContractDefinition "Derived" [2; 1]
    [ChildSpecifier specifierOfBase; ChildFunction constructorNamingBase].

(** Two contracts that name each other as a base, and a third apart. *)
Definition cyclic : AST :=
  mkAST [[1; 2; 3]]
    (<[1 := mkContractDefinition "A" [1; 2] []]>
       (<[2 := mkContractDefinition "B" [2; 1] []]>
          (<[3 := mkContractDefinition "C" [3] []]> ∅)))
    100.

(** The constructor linearizer on [Derived] with a constructor. *)
Definition linearizedWithConstructor : AST :=
  Eval vm_compute in
    match solveConstructorInheritance 2 hierarchyWithConstructor with
    | Ok (_, ast') => ast'
    | Err _ => hierarchyWithConstructor
    end.

(** A modifier with an empty parameter list and the body [_;]. *)
Definition modifier (i : nat) (name : string) : ModifierDefinition :=
  mkModifierDefinition i name (noParameters (i + 1))
    (Some [OtherStatement "_" [] []]).

(** [contract Guard { modifier onlyOwner; modifier whenOpen; } ]
    [contract Guarded is Guard { modifier onlyOwner; } ] *)
Definition Guard : ContractDefinition :=
  mkContractDefinition "Guard" [1]
    [ChildModifier (modifier 10 "onlyOwner");
     ChildModifier (modifier 12 "whenOpen")].

Definition Guarded : ContractDefinition :=
  mkContractDefinition "Guarded" [2; 1] [ChildModifier (modifier 20 "onlyOwner")].

Definition guards : AST :=
  mkAST [[1; 2]] (<[1 := Guard]> (<[2 := Guarded]> ∅)) 100.

(** [Derived] with a function that calls [foo] of [Base], by its name and
    through [super]. *)
Definition DerivedCalling : ContractDefinition :=
  mkContractDefinition "Derived" [2; 1]
    [ChildFunction
       (mkFunctionDefinition 60 2 KindFunction "bar" false VisPublic MutView
          false (noParameters 61) (noParameters 62) []
          (Some [ExpressionStatement
                   (FunctionCall (Identifier "foo" 30) [Identifier "x" 10]);
                 ExpressionStatement
                   (FunctionCall (MemberAccess (Identifier "super" 1) "foo" 30)
                                 [])]))].

Definition calling : AST :=
  mkAST [[1; 2]] (<[1 := Base]> (<[2 := DerivedCalling]> ∅)) 100.

Definition callingFlattened : AST :=
  Eval vm_compute in
    match visitContractDefinition 2 calling with Ok (_, ast') => ast' | Err _ => calling end.

(** The rewrite of the references to [foo] alone. *)
Definition fooCopy : FunctionDefinition := function 200 2 "foo_s1" VisPrivate.

Definition callingRewritten : AST :=
  Eval vm_compute in
    match updateReferencedDeclarations 2 ({[30 := fooCopy]} : gmap nat _) calling
    with Ok (_, ast') => ast' | Err _ => calling end.

(** [contract Base { constructor(uint p) {} } contract Derived is Base {}]:
    the arguments of the constructor of [Base] are given nowhere. *)
Definition BaseWithParameter : ContractDefinition :=
  mkContractDefinition "Base" [1]
    [ChildFunction
       (mkFunctionDefinition 20 1 KindConstructor "" false VisPublic
          MutNonPayable true (mkParameterList 21 [variable 22 "p" 20])
          (noParameters 23) [] (Some []))].

Definition unsupplied : AST :=
  mkAST [[1; 2]] (<[1 := BaseWithParameter]> (<[2 := Derived]> ∅)) 100.

(** A base without a constructor. *)
Definition BaseWithoutConstructor : ContractDefinition :=
  mkContractDefinition "Base" [1]
    [ChildVariable (variable 10 "x" 1);
     ChildFunction (function 30 1 "foo" VisExternal)].

Definition plain : AST :=
  mkAST [[1; 2]] (<[1 := BaseWithoutConstructor]> (<[2 := Derived]> ∅)) 100.

(** [contract Left { foo; bar } contract Right { foo; foo_s1 } ]
    [contract Derived is Right, Left { } ]: two bases that both declare
    [foo], the farther one also a function whose name looks like a private
    copy. *)
Definition Left : ContractDefinition :=
  mkContractDefinition "Left" [1]
    [ChildFunction (function 30 1 "foo" VisExternal);
     ChildFunction (function 40 1 "bar" VisPublic)].

Definition Right : ContractDefinition :=
  mkContractDefinition "Right" [2]
    [ChildFunction (function 50 2 "foo" VisExternal);
     ChildFunction (function 60 2 "foo_s1" VisExternal)].

Definition DerivedOfTwo : ContractDefinition :=
  mkContractDefinition "Derived" [3; 1; 2] [].

Definition twoBases : AST :=
  mkAST [[1; 2; 3]]
    (<[1 := Left]> (<[2 := Right]> (<[3 := DerivedOfTwo]> ∅))) 100.
End Samples.

(** ** Generic facts about computations *)

Lemma bind_Ok {A B} (m : M A) (k : A -> M B) ast b ast' :
  bind m k ast = Ok (b, ast') ->
  ∃ a ast1, m ast = Ok (a, ast1) ∧ k a ast1 = Ok (b, ast').
Proof.
  unfold bind. destruct (m ast) as [[a ast1]|e]; [|discriminate].
  intros Hk. eauto.
Qed.

Lemma bind_Err {A B} (m : M A) (k : A -> M B) ast e :
  bind m k ast = Err e ->
  m ast = Err e ∨ ∃ a ast1, m ast = Ok (a, ast1) ∧ k a ast1 = Err e.
Proof.
  unfold bind. destruct (m ast) as [[a ast1]|e']; [eauto|].
  intros [= ->]. by left.
Qed.

Lemma liftR_Ok {A} (r : R A) ast a ast' :
  liftR r ast = Ok (a, ast') -> r ast = Ok a ∧ ast' = ast.
Proof. unfold liftR. destruct (r ast); naive_solver. Qed.

Lemma locate_Ok id ast c ast' :
  locate id ast = Ok (c, ast') -> context ast !! id = Some c ∧ ast' = ast.
Proof.
  intros [Hr ->]%liftR_Ok. unfold locateR in Hr.
  destruct (context ast !! id); naive_solver.
Qed.

Lemma forEach_app {A} (f : A -> M unit) l1 l2 ast :
  forEach f (l1 ++ l2) ast = (forEach f l1 ;; forEach f l2) ast.
Proof.
  revert ast. induction l1 as [|x l1 IH]; intros ast; simpl.
  - done.
  - unfold bind in *. destruct (f x ast) as [[[] ast1]|e]; [|done].
    apply IH.
Qed.

Section Preserves.
Variable Rel : AST -> AST -> Prop.
Hypothesis Rel_refl : ∀ ast, Rel ast ast.
Hypothesis Rel_trans : ∀ a b c, Rel a b -> Rel b c -> Rel a c.

Lemma preserves_ret {A} (a : A) : preserves Rel (ret a).
Proof using Rel_refl. intros ast a' ast' [= _ <-]. apply Rel_refl. Qed.

Lemma preserves_throw {A} e : preserves Rel (@throw A e).
Proof. intros ast a ast' [=]. Qed.

Lemma preserves_bind {A B} (m : M A) (k : A -> M B) :
  preserves Rel m -> (∀ a, preserves Rel (k a)) -> preserves Rel (bind m k).
Proof using Rel_trans.
  intros Hm Hk ast b ast' (a & ast1 & H1 & H2)%bind_Ok.
  eapply Rel_trans; [eapply Hm|eapply Hk]; eauto.
Qed.

Lemma preserves_liftR {A} (r : R A) : preserves Rel (liftR r).
Proof using Rel_refl. intros ast a ast' [_ ->]%liftR_Ok. apply Rel_refl. Qed.

Lemma preserves_locate id : preserves Rel (locate id).
Proof using Rel_refl. apply preserves_liftR. Qed.

Lemma preserves_gets {A} (f : AST -> A) : preserves Rel (gets f).
Proof using Rel_refl. intros ast a ast' [= _ <-]. apply Rel_refl. Qed.

Lemma preserves_assert b why : preserves Rel (assert b why).
Proof using Rel_refl.
  destruct b; [apply preserves_ret | apply preserves_throw].
Qed.

Lemma preserves_forEach {A} (f : A -> M unit) l :
  (∀ x, x ∈ l -> preserves Rel (f x)) -> preserves Rel (forEach f l).
Proof using Rel_refl Rel_trans.
  induction l as [|x l IH]; intros Hf; simpl.
  - apply preserves_ret.
  - apply preserves_bind; [apply Hf; left | intros _; apply IH].
    intros y Hy. apply Hf. by right.
Qed.

Lemma preserves_foldM {A B} (f : B -> A -> M B) l b :
  (∀ b x, preserves Rel (f b x)) -> preserves Rel (foldM f l b).
Proof using Rel_refl Rel_trans.
  intros Hf. revert b. induction l as [|x l IH]; intros b; simpl.
  - apply preserves_ret.
  - apply preserves_bind; [apply Hf | intros b'; apply IH].
Qed.

Lemma preserves_mapM {A B} (f : A -> M B) l :
  (∀ x, preserves Rel (f x)) -> preserves Rel (mapM f l).
Proof using Rel_refl Rel_trans.
  intros Hf. induction l as [|x l IH]; simpl.
  - apply preserves_ret.
  - apply preserves_bind; [apply Hf | intros y].
    apply preserves_bind; [apply IH | intros ys; apply preserves_ret].
Qed.
End Preserves.

Ltac head_of t :=
  lazymatch t with
  | ?f _ => head_of f
  | _ => t
  end.

(** A tactic that walks a computation along its [bind]s, loops and case
    distinctions; [prim] closes the primitive operations. *)
Ltac preserves_walk refl trans prim :=
  repeat first
    [ apply (preserves_ret _ refl)
    | apply preserves_throw
    | apply (preserves_locate _ refl)
    | apply (preserves_liftR _ refl)
    | apply (preserves_gets _ refl)
    | apply (preserves_assert _ refl)
    | apply (preserves_bind _ trans); [|intros ?]
    | apply (preserves_foldM _ refl trans); intros ? ?
    | apply (preserves_forEach _ refl trans); intros ? _
    | apply (preserves_mapM _ refl trans); intros ?
    | match goal with
      | |- preserves _ (match ?x with _ => _ end) => destruct x
      | |- preserves _ ((match ?x with _ => _ end) _) => destruct x
      | |- preserves _ (let _ := _ in _) => cbv zeta
      end
    | progress cbv beta
    | progress prim
    | match goal with
      | |- preserves _ ?m => let h := head_of m in progress unfold h
      end ].

(** ** The frame of a visit *)

Lemma frame_refl touched ast : frame touched ast ast.
Proof. by repeat split. Qed.

Lemma frame_trans touched a b c :
  frame touched a b -> frame touched b c -> frame touched a c.
Proof.
  intros (Hr1 & Hc1 & Hl1) (Hr2 & Hc2 & Hl2). repeat split.
  - congruence.
  - intros k Hk. rewrite Hc2, Hc1; done.
  - intros k. rewrite Hl2, Hl1; done.
Qed.

Lemma frame_reserveId touched : preserves (frame touched) reserveId.
Proof. intros ast a ast' [= _ <-]. by repeat split. Qed.

Lemma frame_modifyChildren touched node g :
  node ∈ touched -> preserves (frame touched) (modifyChildren node g).
Proof.
  intros Hin ast a ast'. unfold modifyChildren.
  destruct (context ast !! node) as [c|] eqn:Hc; [|discriminate].
  intros [= _ <-]. repeat split; simpl.
  - intros k Hk. apply lookup_insert_ne. intros ->. done.
  - intros k. unfold linearizationOf. simpl.
    destruct (decide (node = k)) as [->|Hne].
    + rewrite lookup_insert_eq, Hc. done.
    + rewrite lookup_insert_ne; done.
Qed.

Lemma frame_updateReferencedDeclarations {V} `{Declaration V} touched
    (idRemapping : gmap nat V) node :
  node ∈ touched ->
  preserves (frame touched) (updateReferencedDeclarations node idRemapping).
Proof.
  intros Hin ast a ast'. unfold updateReferencedDeclarations.
  destruct (context ast !! node) as [c|] eqn:Hc; [|discriminate].
  destruct (walkList _ _ _) as [chs n].
  intros [= _ <-]. repeat split; simpl.
  - intros k Hk. apply lookup_insert_ne. intros ->. done.
  - intros k. unfold linearizationOf. simpl.
    destruct (decide (node = k)) as [->|Hne].
    + rewrite lookup_insert_eq, Hc. done.
    + rewrite lookup_insert_ne; done.
Qed.

Ltac frame_prim :=
  first [ apply frame_reserveId
        | apply frame_modifyChildren; assumption
        | apply frame_updateReferencedDeclarations; assumption ].

Section Frame.
Variable touched : list nat.
Variable node : nat.
Hypothesis node_touched : node ∈ touched.

Local Ltac walk :=
  preserves_walk (frame_refl touched) (frame_trans touched) frame_prim.

Lemma frame_cloneVariableDeclaration v :
  preserves (frame touched) (cloneVariableDeclaration v).
Proof. unfold cloneVariableDeclaration. walk. Qed.

Lemma frame_cloneParameterList p :
  preserves (frame touched) (cloneParameterList p).
Proof.
  unfold cloneParameterList. walk; apply frame_cloneVariableDeclaration.
Qed.

Lemma frame_cloneFunctionDefinition f :
  preserves (frame touched) (cloneFunctionDefinition f).
Proof.
  unfold cloneFunctionDefinition, cloneModifierInvocation, cloneBlock.
  walk; apply frame_cloneParameterList.
Qed.

Lemma frame_cloneModifierDefinition m :
  preserves (frame touched) (cloneModifierDefinition m).
Proof.
  unfold cloneModifierDefinition, cloneBlock.
  walk; apply frame_cloneParameterList.
Qed.

Lemma frame_createDelegatingFunction f d scope :
  preserves (frame touched) (createDelegatingFunction f d scope).
Proof.
  unfold createDelegatingFunction, cloneModifierInvocation, createIdentifier.
  walk; apply frame_cloneParameterList.
Qed.

Lemma frame_appendChild ch : preserves (frame touched) (appendChild node ch).
Proof using node_touched. by apply frame_modifyChildren. Qed.

Lemma frame_solveConstructorInheritance :
  preserves (frame touched) (solveConstructorInheritance node).
Proof using node_touched.
  unfold solveConstructorInheritance, collectConstructors, callConstructors,
    createFunctionFromConstructor, generateFunctionCall, generateBody,
    createDefaultConstructor, createParameterList, createBlock, cloneBlock,
    appendChild.
  walk; apply frame_cloneFunctionDefinition.
Qed.

Lemma frame_addPrivateSuperFunctions idRemapping :
  preserves (frame touched) (addPrivateSuperFunctions node idRemapping).
Proof using node_touched.
  unfold addPrivateSuperFunctions, inlineBase. walk.
Qed.

Lemma frame_addNonoverridenPublicFunctions idRemapping :
  preserves (frame touched) (addNonoverridenPublicFunctions node idRemapping).
Proof using node_touched.
  unfold addNonoverridenPublicFunctions, promote. walk.
Qed.

Lemma frame_addStorageVariables idRemapping :
  preserves (frame touched) (addStorageVariables node idRemapping).
Proof using node_touched.
  unfold addStorageVariables, collectBase, inheritVariable. walk.
Qed.

Lemma frame_addNonOverridenModifiers idRemapping :
  preserves (frame touched) (addNonOverridenModifiers node idRemapping).
Proof using node_touched.
  unfold addNonOverridenModifiers, appendChild.
  walk; apply frame_cloneModifierDefinition.
Qed.

Lemma frame_visitContractDefinition :
  preserves (frame touched) (InheritanceInliner.visitContractDefinition node).
Proof using node_touched.
  unfold InheritanceInliner.visitContractDefinition, commonVisit.
  walk.
Qed.
End Frame.

(** ** The scheduler *)

Abbreviation visit := InheritanceInliner.visitContractDefinition.

Lemma basesOf_linearization ast k :
  basesOf ast k = drop 1 (default [] (linearizationOf ast k)).
Proof.
  unfold basesOf, linearizationOf, getBaseContracts.
  destruct (context ast !! k); done.
Qed.

Lemma mostDerivedContracts_linearization ast ast' contracts :
  (∀ k, linearizationOf ast' k = linearizationOf ast k) ->
  mostDerivedContracts ast' contracts = mostDerivedContracts ast contracts.
Proof.
  intros Hlin. unfold mostDerivedContracts. apply list_filter_iff.
  intros d. rewrite !Exists_exists.
  split; intros Hn (o & Ho & Hd); apply Hn; exists o; split; try done;
    rewrite basesOf_linearization in *; by rewrite ?Hlin in *.
Qed.

Lemma frame_forEach_visit l : preserves (frame l) (forEach visit l).
Proof.
  apply (preserves_forEach _ (frame_refl l) (frame_trans l)).
  intros x Hx. by apply frame_visitContractDefinition.
Qed.

(** A pending contract that is most derived is dropped from the pending
    ones, so a round that finds one shortens the list. *)
Lemma pending_shrinks ast contracts :
  mostDerivedContracts ast contracts ≠ [] ->
  length (filter (fun c => c ∉ mostDerivedContracts ast contracts) contracts)
  < length contracts.
Proof.
  intros Hne.
  destruct (mostDerivedContracts ast contracts) as [|d md] eqn:Hmd; [done|].
  assert (d ∈ contracts) as Hd.
  { assert (d ∈ mostDerivedContracts ast contracts) as Hin
      by (rewrite Hmd; left).
    unfold mostDerivedContracts in Hin.
    apply list_elem_of_filter in Hin. tauto. }
  apply (length_filter_lt _ _ d); [done|].
  intros Hnot. apply Hnot. left.
Qed.

Lemma mapLoop_unfold rounds c contracts ast :
  mapLoop (S rounds) (c :: contracts) ast
  = if bool_decide (length (mostDerivedContracts ast (c :: contracts)) = 0)
    then Err (TranspileFailedError UnableToSerialise)
    else (forEach visit (mostDerivedContracts ast (c :: contracts)) ;;
          mapLoop rounds
            (filter (fun x => x ∉ mostDerivedContracts ast (c :: contracts))
                    (c :: contracts))) ast.
Proof.
  simpl. unfold bind at 1, gets. by case_bool_decide.
Qed.

(** The bound on the rounds is immaterial once it covers the pending
    contracts: the loop never runs into it. *)
Lemma mapLoop_rounds r1 : ∀ r2 contracts ast,
  length contracts ≤ r1 -> length contracts ≤ r2 ->
  mapLoop r1 contracts ast = mapLoop r2 contracts ast.
Proof.
  induction r1 as [|r1 IH]; intros r2 contracts ast H1 H2.
  - destruct contracts; [|simpl in H1; lia]. by destruct r2.
  - destruct contracts as [|c contracts]; [by destruct r2|].
    destruct r2 as [|r2]; [simpl in H2; lia|].
    rewrite !mapLoop_unfold. case_bool_decide as Hmd; [done|].
    unfold bind. destruct (forEach _ _ _) as [[[] ast1]|e]; [|done].
    assert (mostDerivedContracts ast (c :: contracts) ≠ []) as Hne
      by (intros Heq; apply Hmd; by rewrite Heq).
    apply pending_shrinks in Hne. simpl in H1, H2, Hne.
    apply IH; lia.
Qed.

Lemma mapLoop_schedule rounds : ∀ contracts ast0 ast ast',
  (∀ k, linearizationOf ast k = linearizationOf ast0 k) ->
  mapLoop rounds contracts ast = Ok (tt, ast') ->
  ∃ order, schedule rounds ast0 contracts = Some order
           ∧ forEach visit order ast = Ok (tt, ast').
Proof.
  induction rounds as [|rounds IH]; intros contracts ast0 ast ast' Hlin Hrun.
  - destruct contracts; [|discriminate]. exists []. done.
  - destruct contracts as [|c contracts]; [exists []; done|].
    rewrite mapLoop_unfold in Hrun.
    rewrite (mostDerivedContracts_linearization ast0 ast) in Hrun by done.
    simpl. case_bool_decide as Hmd; [done|].
    apply bind_Ok in Hrun as ([] & ast1 & Hvisit & Hrest).
    pose proof (frame_forEach_visit _ _ _ _ Hvisit) as (_ & _ & Hlin1).
    destruct (IH _ ast0 ast1 ast' ltac:(intros k; by rewrite Hlin1) Hrest)
      as (rest & Hsched & Hrun').
    exists (mostDerivedContracts ast0 (c :: contracts) ++ rest).
    rewrite Hsched. split; [done|].
    rewrite forEach_app. unfold bind. rewrite Hvisit. done.
Qed.

Lemma filter_ext_elem_of {A} (P1 P2 : A -> Prop)
    `{!∀ x, Decision (P1 x), !∀ x, Decision (P2 x)} (l : list A) :
  (∀ x, x ∈ l -> P1 x ↔ P2 x) -> filter P1 l = filter P2 l.
Proof.
  induction l as [|a l IH]; intros Hiff; [done|].
  assert (filter P1 l = filter P2 l) as Hl
    by (apply IH; intros x Hx; apply Hiff; by right).
  destruct (decide (P1 a)) as [Ha|Ha].
  - rewrite !filter_cons_True; [by rewrite Hl| |done].
    apply Hiff; [left|done].
  - rewrite !filter_cons_False; [done| |done].
    intros H2. apply Ha, Hiff; [left|done].
Qed.

Lemma schedule_Permutation rounds : ∀ ast contracts order,
  schedule rounds ast contracts = Some order -> order ≡ₚ contracts.
Proof.
  induction rounds as [|rounds IH]; intros ast contracts order Hs.
  - destruct contracts; [|discriminate]. by injection Hs as <-.
  - destruct contracts as [|c contracts]; [by injection Hs as <-|].
    simpl in Hs. case_bool_decide; [done|].
    destruct (schedule rounds ast _) as [rest|] eqn:Hrest; [|done].
    injection Hs as <-. apply IH in Hrest. rewrite Hrest.
    set (cs := c :: contracts).
    rewrite <- (filter_app_complement
                  (fun d => ¬ Exists (fun o => d ∈ basesOf ast o) cs) cs) at 3.
    apply Permutation_app; [done|].
    erewrite filter_ext_elem_of; [done|].
    intros d Hd. unfold mostDerivedContracts.
    rewrite list_elem_of_filter. tauto.
Qed.

Lemma schedule_order rounds : ∀ ast contracts order i j c o,
  schedule rounds ast contracts = Some order ->
  order !! i = Some c -> order !! j = Some o ->
  c ∈ basesOf ast o -> j < i.
Proof.
  induction rounds as [|rounds IH]; intros ast contracts order i j c o Hs Hi Hj Hb.
  - destruct contracts; [|discriminate]. injection Hs as <-. done.
  - destruct contracts as [|c0 contracts]; [injection Hs as <-; done|].
    pose proof (schedule_Permutation _ _ _ _ Hs) as Hperm.
    simpl in Hs. case_bool_decide; [done|].
    destruct (schedule rounds ast _) as [rest|] eqn:Hrest; [|done].
    injection Hs as <-.
    apply lookup_app_Some in Hi as [Hi|[Hlen Hi]].
    + exfalso. apply list_elem_of_lookup_2 in Hi.
      unfold mostDerivedContracts in Hi.
      apply list_elem_of_filter in Hi as [Hnone _]. apply Hnone.
      apply Exists_exists. exists o. split; [|done].
      rewrite <- Hperm. by eapply list_elem_of_lookup_2.
    + apply lookup_app_Some in Hj as [Hj|[Hlen' Hj]].
      * apply lookup_lt_Some in Hj. lia.
      * pose proof (IH _ _ _ _ _ _ _ Hrest Hi Hj Hb). lia.
Qed.

Lemma forEach_prefix {A} (f : A -> M unit) pre post ast ast' :
  forEach f (pre ++ post) ast = Ok (tt, ast') ->
  ∃ mid, forEach f pre ast = Ok (tt, mid) ∧ forEach f post mid = Ok (tt, ast').
Proof.
  rewrite forEach_app. intros ([] & mid & H1 & H2)%bind_Ok. eauto.
Qed.

(** C1.  [map] flattens every contract of the compilation unit exactly once,
    in the order of [schedule]; a contract is flattened only after every
    contract that lists it among its bases, and when a contract is flattened
    every contract that is still to be flattened, and each of the bases of
    such a contract, is as it was before the run. *)
Theorem map_flattens_each_contract_once_derived_first (ast ast' : AST) :
  NoDup (vContracts ast) ->
  map ast = Ok ast' ->
  ∃ order,
    schedule (length (vContracts ast)) ast (vContracts ast) = Some order
    ∧ forEach visit order ast = Ok (tt, ast')
    ∧ order ≡ₚ vContracts ast
    ∧ NoDup order
    ∧ ∀ pre c post, order = pre ++ c :: post ->
        (∀ o, o ∈ vContracts ast -> c ∈ basesOf ast o -> o ∈ pre)
        ∧ ∃ mid, forEach visit pre ast = Ok (tt, mid)
            ∧ ∀ y, y ∈ c :: post ->
                context mid !! y = context ast !! y
                ∧ ∀ b, b ∈ basesOf ast y ->
                    context mid !! b = context ast !! b.
Proof.
  intros Hnodup Hmap. unfold map in Hmap.
  destruct (mapLoop _ _ _) as [[[] ast1]|e] eqn:Hloop; [|discriminate].
  injection Hmap as ->.
  destruct (mapLoop_schedule _ _ ast ast ast' ltac:(done) Hloop)
    as (order & Hsched & Hrun).
  pose proof (schedule_Permutation _ _ _ _ Hsched) as Hperm.
  assert (NoDup order) as Hnd by (by rewrite Hperm).
  exists order. repeat split; try done.
  - intros o Ho Hb. rewrite <- Hperm in Ho.
    apply list_elem_of_lookup in Ho as [j Hj].
    assert (order !! length pre = Some c) as Hi
      by (subst order; by rewrite list_lookup_middle).
    pose proof (schedule_order _ _ _ _ _ _ _ _ Hsched Hi Hj Hb) as Hlt.
    subst order. rewrite lookup_app_l in Hj by done.
    by eapply list_elem_of_lookup_2.
  - subst order. destruct (forEach_prefix _ _ _ _ _ Hrun) as (mid & Hpre & _).
    apply NoDup_app in Hnd as (_ & Hdisj & _).
    pose proof (frame_forEach_visit _ _ _ _ Hpre) as (_ & Hctx & _).
    exists mid. split; [done|]. intros y Hy. split.
    + apply Hctx. intros Hin. by apply (Hdisj _ Hin).
    + intros b Hb. apply Hctx. intros Hin.
      apply list_elem_of_lookup in Hin as [j Hj].
      pose proof (lookup_lt_Some _ _ _ Hj) as Hjlt.
      assert ((pre ++ c :: post) !! j = Some b) as Hj'
        by (by rewrite lookup_app_l).
      apply list_elem_of_lookup in Hy as [i Hi].
      assert ((pre ++ c :: post) !! (length pre + i) = Some y) as Hi'
        by (by rewrite lookup_app_r, Nat.add_comm, Nat.add_sub by lia).
      pose proof (schedule_order _ _ _ _ _ _ _ _ Hsched Hj' Hi' Hb). lia.
Qed.

Lemma mapLoop_not_serialisable contracts ast pending mid :
  roundsTo contracts ast pending mid ->
  pending ≠ [] ->
  mostDerivedContracts mid pending = [] ->
  ∀ rounds, length contracts ≤ rounds ->
    mapLoop rounds contracts ast = Err (TranspileFailedError UnableToSerialise).
Proof.
  induction 1 as [contracts ast|contracts ast ast1 pending mid Hmd Hvisit _ IH];
    intros Hne Hstuck rounds Hlen.
  - destruct contracts as [|c contracts]; [done|].
    destruct rounds as [|rounds]; [simpl in Hlen; lia|].
    rewrite mapLoop_unfold, Hstuck. done.
  - pose proof (pending_shrinks _ _ Hmd) as Hshrink.
    destruct contracts as [|c contracts]; [done|].
    destruct rounds as [|rounds]; [simpl in Hlen; lia|].
    rewrite mapLoop_unfold. case_bool_decide as Hz.
    { destruct (mostDerivedContracts ast (c :: contracts)); done. }
    unfold bind. rewrite Hvisit. apply IH; [done..|].
    change (length (c :: contracts)) with (S (length contracts)) in *. lia.
Qed.

(** C8.  When a round of [map] finds no pending contract that is not a base
    of another pending contract, while contracts are pending, [map] throws
    the malformed-hierarchy error. *)
Theorem map_fails_when_not_serialisable (ast : AST) pending mid :
  roundsTo (vContracts ast) ast pending mid ->
  pending ≠ [] ->
  mostDerivedContracts mid pending = [] ->
  map ast = Err (TranspileFailedError UnableToSerialise).
Proof.
  intros Hrounds Hne Hstuck. unfold map.
  by rewrite (mapLoop_not_serialisable _ _ _ _ Hrounds Hne Hstuck).
Qed.

Lemma map_fails_when_not_serialisable_witness :
  map Samples.cyclic = Err (TranspileFailedError UnableToSerialise).
Proof.
  eapply (map_fails_when_not_serialisable Samples.cyclic [1; 2]).
  - eapply roundsTo_round.
    + by vm_compute.
    + vm_compute. reflexivity.
    + vm_compute. apply roundsTo_here.
  - done.
  - by vm_compute.
Defined.

(** C10.  A contract whose linearization has fewer than two entries is
    returned from [visitContractDefinition] at once: the whole AST, the
    contract included, is what it was. *)
Theorem visit_without_bases_is_identity (node : nat) c (ast : AST) :
  context ast !! node = Some c ->
  length (linearizedBaseContracts c) < 2 ->
  visit node ast = Ok (tt, ast).
Proof.
  intros Hc Hlen. unfold InheritanceInliner.visitContractDefinition.
  unfold bind, locate, liftR, locateR. rewrite Hc.
  by rewrite bool_decide_eq_true_2.
Qed.

Lemma visit_without_bases_is_identity_witness :
  visit 1 Samples.hierarchy = Ok (tt, Samples.hierarchy).
Proof.
  apply (visit_without_bases_is_identity 1 Samples.Base).
  - reflexivity.
  - unfold Samples.Base. simpl. lia.
Defined.

Lemma map_flattens_each_contract_once_derived_first_witness :
  NoDup (vContracts Samples.hierarchy)
  ∧ map Samples.hierarchy = Ok Samples.flattened
  ∧ ∃ order,
      schedule 2 Samples.hierarchy [1; 2] = Some order
      ∧ forEach visit order Samples.hierarchy = Ok (tt, Samples.flattened).
Proof.
  assert (NoDup (vContracts Samples.hierarchy)) as Hnodup
    by (apply (bool_decide_unpack _); vm_compute; exact I).
  assert (map Samples.hierarchy = Ok Samples.flattened) as Hmap
    by (vm_compute; reflexivity).
  destruct (map_flattens_each_contract_once_derived_first
              Samples.hierarchy Samples.flattened Hnodup Hmap)
    as (order & Hschedule & Hrun & _).
  split; [exact Hnodup|]. split; [exact Hmap|].
  exists order. split; [exact Hschedule | exact Hrun].
Defined.

(** ** Name resolution *)

(** C7.  [resolveFunctionName] on a contract [c]: one function of that name
    among its own is the answer; more than one is the precondition-violation
    error; none sends the search to the first base, and to no other. *)
Theorem resolveFunctionName_cases (fuel node : nat) (functionName : string)
    (ast : AST) (c : ContractDefinition) :
  context ast !! node = Some c ->
  let matches := filter (fun f => f_name f = functionName) (vFunctions c) in
  (∀ f, matches = [f] ->
        resolveFunctionName (S fuel) node functionName ast = Ok f)
  ∧ (1 < length matches ->
     resolveFunctionName (S fuel) node functionName ast
     = Err (TranspileFailedError (MultipleFunctions functionName node)))
  ∧ (matches = [] ->
     ∀ b1 others, getBaseContracts c = b1 :: others ->
       resolveFunctionName (S fuel) node functionName ast
       = resolveFunctionName fuel b1 functionName ast).
Proof.
  intros Hc matches. subst matches.
  simpl. unfold bindR, locateR. rewrite Hc.
  repeat split.
  - intros f ->. by rewrite bool_decide_eq_false_2 by (simpl; lia).
  - intros Hlen. by rewrite bool_decide_eq_true_2.
  - intros -> b1 others ->. by rewrite bool_decide_eq_false_2 by (simpl; lia).
Qed.

Lemma resolveFunctionName_cases_witness :
  resolveFunctionName 3 2 "foo" Samples.hierarchy
  = resolveFunctionName 2 1 "foo" Samples.hierarchy
  ∧ resolveFunctionName 2 1 "foo" Samples.hierarchy
    = Ok (Samples.function 30 1 "foo" VisExternal).
Proof.
  pose proof (resolveFunctionName_cases 2 2 "foo" Samples.hierarchy
                Samples.Derived eq_refl) as (_ & _ & Hnone).
  pose proof (resolveFunctionName_cases 1 1 "foo" Samples.hierarchy
                Samples.Base eq_refl) as (Hone & _ & _).
  split.
  - apply (Hnone eq_refl 1 []). reflexivity.
  - apply Hone. reflexivity.
Defined.

Lemma resolveFunctionName_no_base fuel node functionName ast c :
  context ast !! node = Some c ->
  filter (fun f => f_name f = functionName) (vFunctions c) = [] ->
  getBaseContracts c = [] ->
  resolveFunctionName (S fuel) node functionName ast
  = Err (TranspileFailedError (FailedToFind functionName node)).
Proof.
  intros Hc Hnone Hbases. simpl. unfold bindR, locateR.
  rewrite Hc, Hnone, Hbases. by rewrite bool_decide_eq_false_2 by (simpl; lia).
Qed.

(** ** Delegating functions *)

Lemma mapM_cloneVariableDeclaration_Ok l ast :
  ∃ l' ast', mapM cloneVariableDeclaration l ast = Ok (l', ast')
             ∧ (fun v => (v_name v, v_typeString v)) <$> l'
               = (fun v => (v_name v, v_typeString v)) <$> l.
Proof.
  revert ast. induction l as [|v l IH]; intros ast; simpl.
  - by eexists _, _.
  - unfold bind at 1. unfold cloneVariableDeclaration at 1.
    unfold bind at 1. unfold reserveId at 1, ret at 1. unfold bind at 1.
    edestruct IH as (l' & ast' & -> & Hshape).
    eexists _, _. split; [reflexivity|]. rewrite !fmap_cons. by f_equal.
Qed.

Lemma cloneParameterList_Ok p ast :
  ∃ p' ast', cloneParameterList p ast = Ok (p', ast') ∧ shape p' = shape p.
Proof.
  unfold cloneParameterList, bind, reserveId.
  edestruct mapM_cloneVariableDeclaration_Ok as (l' & ast' & -> & Hshape).
  by eexists _, _.
Qed.

Lemma createDelegatingFunction_not_a_function funcToCopy delegate scope ast :
  f_kind funcToCopy ≠ KindFunction ->
  createDelegatingFunction funcToCopy delegate scope ast
  = Err (AssertionError (CopyNonMemberFunction (f_name funcToCopy))).
Proof.
  intros Hkind. unfold createDelegatingFunction.
  unfold bind at 1.
  destruct (cloneParameterList_Ok (f_parameters funcToCopy) ast)
    as (p & ast1 & -> & _).
  unfold bind at 1.
  destruct (cloneParameterList_Ok (f_returnParameters funcToCopy) ast1)
    as (r & ast2 & -> & _).
  unfold bind at 1. by rewrite bool_decide_eq_false_2.
Qed.


(** The signal is reached only by a function node of kind [function] whose
    constructor flag is set. *)
Lemma createDelegatingFunction_flagged_function funcToCopy delegate scope ast :
  f_kind funcToCopy = KindFunction ->
  f_isConstructor funcToCopy = true ->
  createDelegatingFunction funcToCopy delegate scope ast
  = Err NotSupportedYetError.
Proof.
  intros Hkind Hflag. unfold createDelegatingFunction.
  unfold bind at 1.
  destruct (cloneParameterList_Ok (f_parameters funcToCopy) ast)
    as (p & ast1 & -> & _).
  unfold bind at 1.
  destruct (cloneParameterList_Ok (f_returnParameters funcToCopy) ast1)
    as (r & ast2 & -> & _).
  unfold bind at 1. rewrite bool_decide_eq_true_2 by done. simpl.
  by rewrite Hflag.
Qed.



(** ** Constructor arguments *)

(** C6 as stated fails: a specifier that supplies exactly as many arguments
    as the entry already recorded for the base does not overwrite it. *)
Lemma specifierArguments_equal_length_keeps_entry :
  ¬ (∀ (args : gmap nat (list Expression)) specifier argList,
       args !! nn_referencedDeclaration (is_baseType specifier) = Some argList ->
       length argList ≤ length (is_arguments specifier) ->
       specifierArguments args specifier
         !! nn_referencedDeclaration (is_baseType specifier)
       = Some (is_arguments specifier)).
Proof.
  intros Hclaim.
  specialize (Hclaim {[1 := [Identifier "a" 7]]} Samples.specifierOfBase
                [Identifier "a" 7] eq_refl (le_n 1)).
  vm_compute in Hclaim. discriminate.
Qed.

(** The same through [getArguments]: the argument given at the constructor
    stays, the one given at the specifier is dropped. *)
Example getArguments_equal_length :
  getArguments Samples.DerivedTwice (Some Samples.constructorNamingBase) ∅
    Samples.hierarchy !! 1
  = Some [Identifier "a" 7].
Proof. vm_compute. reflexivity. Qed.

(** C6, amended.  One inheritance specifier of [getArguments]: its arguments
    become the entry of the base it names when no entry is recorded or when
    it supplies strictly more arguments than the recorded entry; otherwise
    the recorded entry is kept; the entries of other contracts are never
    touched. *)
Theorem specifierArguments_overwrites_when_strictly_longer
    (args : gmap nat (list Expression)) (specifier : InheritanceSpecifier) :
  let contractId := nn_referencedDeclaration (is_baseType specifier) in
  (args !! contractId = None ->
   specifierArguments args specifier !! contractId
   = Some (is_arguments specifier))
  ∧ (∀ argList, args !! contractId = Some argList ->
       length argList < length (is_arguments specifier) ->
       specifierArguments args specifier !! contractId
       = Some (is_arguments specifier))
  ∧ (∀ argList, args !! contractId = Some argList ->
       length (is_arguments specifier) ≤ length argList ->
       specifierArguments args specifier = args)
  ∧ (∀ k, k ≠ contractId -> specifierArguments args specifier !! k = args !! k).
Proof.
  intros contractId. unfold specifierArguments. fold contractId.
  repeat split.
  - intros ->. apply lookup_insert_eq.
  - intros argList -> Hlt. rewrite bool_decide_eq_true_2 by done.
    apply lookup_insert_eq.
  - intros argList -> Hle. by rewrite bool_decide_eq_false_2 by lia.
  - intros k Hk. destruct (args !! contractId) as [argList|].
    + case_bool_decide; [by apply lookup_insert_ne | done].
    + by apply lookup_insert_ne.
Qed.

Lemma specifierArguments_overwrites_when_strictly_longer_witness :
  specifierArguments ∅ Samples.specifierOfBase !! 1 = Some [Identifier "b" 8]
  ∧ specifierArguments {[1 := []]} Samples.specifierOfBase !! 1
    = Some [Identifier "b" 8]
  ∧ specifierArguments {[1 := [Identifier "a" 7]]} Samples.specifierOfBase
    = {[1 := [Identifier "a" 7]]}
  ∧ specifierArguments {[1 := [Identifier "a" 7]]} Samples.specifierOfBase !! 3
    = None.
Proof.
  pose proof (specifierArguments_overwrites_when_strictly_longer
                ∅ Samples.specifierOfBase) as (Hnone & _).
  pose proof (specifierArguments_overwrites_when_strictly_longer
                {[1 := []]} Samples.specifierOfBase) as (_ & Hlonger & _).
  pose proof (specifierArguments_overwrites_when_strictly_longer
                {[1 := [Identifier "a" 7]]} Samples.specifierOfBase)
    as (_ & _ & Hkept & Hother).
  split; [exact (Hnone eq_refl)|].
  split; [apply (Hlonger []); [reflexivity | simpl; lia]|].
  split; [apply (Hkept [Identifier "a" 7]); [reflexivity | simpl; lia]|].
  apply (Hother 3). simpl. lia.
Defined.

(** [getArguments] is the explicit invocations of the constructor, then the
    specifiers, one after the other. *)
Lemma getArguments_specifiers contract f args ast specs specifier :
  vInheritanceSpecifiers contract = specs ++ [specifier] ->
  ∃ before,
    getArguments contract f args ast = specifierArguments before specifier.
Proof.
  intros Hspecs. unfold getArguments. rewrite Hspecs, foldl_snoc. eauto.
Qed.

(** ** The name-keyed map of the storage flattener *)

Lemma map_set_elem_of {V} (k : string) (v : V) m kv :
  kv ∈ map_set k v m -> kv = (k, v) ∨ kv ∈ m.
Proof.
  induction m as [|[k' v'] m IH]; simpl.
  - intros ->%list_elem_of_singleton. by left.
  - case_bool_decide.
    + intros [->| Hin]%elem_of_cons; [by left | right; by right].
    + intros [->| Hin]%elem_of_cons; [right; left|].
      destruct (IH Hin); [by left | right; by right].
Qed.

Lemma map_set_keys {V} (k : string) (v : V) m k0 :
  k0 ∈ (map_set k v m).*1 ↔ k0 = k ∨ k0 ∈ m.*1.
Proof.
  induction m as [|[k' v'] m IH]; simpl.
  - rewrite list_elem_of_singleton, elem_of_nil. tauto.
  - case_bool_decide; simpl; rewrite ?elem_of_cons; [subst; tauto|].
    rewrite IH. tauto.
Qed.

Lemma map_set_NoDup {V} (k : string) (v : V) m :
  NoDup m.*1 -> NoDup (map_set k v m).*1.
Proof.
  induction m as [|[k' v'] m IH]; simpl; intros Hnd.
  - apply NoDup_singleton.
  - apply NoDup_cons in Hnd as [Hk' Hnd]. case_bool_decide; simpl.
    + subst. by apply NoDup_cons.
    + apply NoDup_cons. split; [|by apply IH].
      rewrite map_set_keys. intros [->|?]; done.
Qed.

Lemma filter_none {A} (P : A -> Prop) `{!∀ x, Decision (P x)} (l : list A) :
  (∀ x, x ∈ l -> ¬ P x) -> filter P l = [].
Proof.
  induction l as [|a l IH]; intros Hnone; [done|].
  rewrite filter_cons_False by (apply Hnone; left).
  apply IH. intros x Hx. apply Hnone. by right.
Qed.

(** The entries of a key after [set]: the new one if the key is the one set,
    the old ones otherwise. *)
Lemma map_set_filter {V} (k n : string) (v : V) m :
  NoDup m.*1 ->
  filter (fun kv => kv.1 = n) (map_set k v m)
  = if decide (k = n) then [(k, v)] else filter (fun kv => kv.1 = n) m.
Proof.
  induction m as [|[k' v'] m IH]; simpl; intros Hnd.
  - rewrite filter_cons, filter_nil. simpl. by destruct (decide (k = n)).
  - apply NoDup_cons in Hnd as [Hk' Hnd]. specialize (IH Hnd).
    case_bool_decide as Hkk; subst.
    + rewrite !filter_cons. simpl. destruct (decide (k = n)) as [->|Hne]; [|done].
      f_equal. apply filter_none. intros [k0 v0] Hin ?. simpl in *. subst.
      apply Hk'. apply list_elem_of_fmap. by exists (n, v0).
    + rewrite !filter_cons. simpl. rewrite IH.
      destruct (decide (k = n)) as [->|Hne]; [|done].
      by rewrite decide_False.
Qed.

Lemma mergeByName_snoc decls d :
  mergeByName (decls ++ [d]) = map_set (v_name d) d (mergeByName decls).
Proof. unfold mergeByName. by rewrite foldl_snoc. Qed.

Lemma mergeByName_NoDup decls : NoDup (mergeByName decls).*1.
Proof.
  induction decls as [|d decls IH] using rev_ind; [constructor|].
  rewrite mergeByName_snoc. by apply map_set_NoDup.
Qed.

Lemma mergeByName_keyed decls k v :
  (k, v) ∈ mergeByName decls -> v_name v = k ∧ v ∈ decls.
Proof.
  induction decls as [|d decls IH] using rev_ind.
  - by intros ?%elem_of_nil.
  - rewrite mergeByName_snoc. intros [[= -> ->]|Hin]%map_set_elem_of.
    + split; [done|]. apply elem_of_app. right. left.
    + destruct (IH Hin). split; [done|]. apply elem_of_app. by left.
Qed.

Lemma mergeByName_keys decls n :
  n ∈ (mergeByName decls).*1 ↔ n ∈ v_name <$> decls.
Proof.
  induction decls as [|d decls IH] using rev_ind; [done|].
  rewrite mergeByName_snoc, map_set_keys, IH, fmap_app, elem_of_app.
  simpl. rewrite list_elem_of_singleton. tauto.
Qed.

(** For every name the map holds the last declaration met that bears it. *)
Lemma mergeByName_filter decls n :
  filter (fun kv => kv.1 = n) (mergeByName decls)
  = match last (filter (fun v => v_name v = n) decls) with
    | Some d => [(n, d)]
    | None => []
    end.
Proof.
  induction decls as [|d decls IH] using rev_ind; [done|].
  rewrite mergeByName_snoc, map_set_filter by apply mergeByName_NoDup.
  rewrite filter_app, filter_cons, filter_nil.
  destruct (decide (v_name d = n)) as [<-|Hne].
  - by rewrite last_snoc.
  - by rewrite app_nil_r.
Qed.

Lemma keyed_values_filter (m : list (string * VariableDeclaration)) n :
  (∀ k v, (k, v) ∈ m -> v_name v = k) ->
  filter (fun v => v_name v = n) m.*2 = (filter (fun kv => kv.1 = n) m).*2.
Proof.
  induction m as [|[k v] m IH]; intros Hkeyed; [done|].
  assert (v_name v = k) as Hk by (apply Hkeyed; left).
  rewrite fmap_cons, !filter_cons. simpl. rewrite IH, Hk.
  - by destruct (decide (k = n)).
  - intros k0 v0 Hin. apply Hkeyed. by right.
Qed.

Lemma mergeByName_values_filter decls n :
  filter (fun v => v_name v = n) (mergeByName decls).*2
  = match last (filter (fun v => v_name v = n) decls) with
    | Some d => [d]
    | None => []
    end.
Proof.
  rewrite keyed_values_filter, mergeByName_filter.
  - by destruct (last _).
  - intros k v Hin. by apply mergeByName_keyed in Hin as [? _].
Qed.

(** ** The storage flattener *)

Lemma locate_run ast id c :
  context ast !! id = Some c -> locate id ast = Ok (c, ast).
Proof. intros Hc. unfold locate, liftR, locateR. by rewrite Hc. Qed.

Lemma foldl_collectInheritedVariables bs : ∀ inherited,
  foldl collectInheritedVariables inherited bs
  = foldl (fun m decl => map_set (v_name decl) decl m) inherited
          (concat (vStateVariables <$> bs)).
Proof.
  induction bs as [|b bs IH]; intros inherited; [done|].
  simpl. rewrite IH. unfold collectInheritedVariables. by rewrite foldl_app.
Qed.

Lemma collect_run ast ids bs :
  located ast ids bs ->
  ∀ inherited,
    foldM collectBase ids inherited ast
    = Ok (foldl collectInheritedVariables inherited bs, ast).
Proof.
  induction 1 as [|id b ids bs Hb _ IH]; intros inherited; [done|].
  simpl. unfold bind at 1. unfold collectBase at 1, bind at 1.
  rewrite (locate_run _ _ _ Hb). unfold ret at 1. apply IH.
Qed.

Lemma cloned_cons n v vars :
  cloned n (v :: vars) = withId n v :: cloned (S n) vars.
Proof.
  unfold cloned. simpl. rewrite Nat.add_0_r. f_equal.
  apply imap_ext. intros i x _. simpl. f_equal. lia.
Qed.

Lemma inheritVariable_run node idRemapping v ast c :
  context ast !! node = Some c ->
  inheritVariable node idRemapping v ast
  = Ok (<[v_id v := withId (nextId ast) v]> idRemapping,
        mkAST (roots ast)
          (<[node := setChildren c (ChildVariable (withId (nextId ast) v)
                                    :: c_children c)]> (context ast))
          (S (nextId ast))).
Proof.
  intros Hc. unfold inheritVariable, cloneVariableDeclaration, bind, reserveId,
    ret, insertAtBeginning, modifyChildren. simpl. by rewrite Hc.
Qed.

Lemma prepend_run node vars :
  ∀ (idRemapping : gmap nat VariableDeclaration) ast c,
  context ast !! node = Some c ->
  ∃ idRemapping',
    foldM (inheritVariable node) vars idRemapping ast
    = Ok (idRemapping',
          mkAST (roots ast)
            (<[node := setChildren c
                         ((ChildVariable <$> reverse (cloned (nextId ast) vars))
                          ++ c_children c)]> (context ast))
            (nextId ast + length vars)).
Proof.
  induction vars as [|v vars IH]; intros idRemapping ast c Hc.
  - exists idRemapping. simpl. unfold ret. f_equal. f_equal.
    destruct ast as [r ctx n]. simpl in *. f_equal; [|lia].
    rewrite insert_id; [done|]. rewrite Hc. by destruct c.
  - simpl. unfold bind at 1. rewrite (inheritVariable_run _ _ _ _ _ Hc).
    edestruct (IH (<[v_id v := withId (nextId ast) v]> idRemapping)
                 (mkAST (roots ast)
                    (<[node := setChildren c
                                 (ChildVariable (withId (nextId ast) v)
                                  :: c_children c)]> (context ast))
                    (S (nextId ast))))
      as [idRemapping' ->]; [apply lookup_insert_eq|].
    exists idRemapping'. simpl. f_equal. f_equal. f_equal; [|lia].
    rewrite insert_insert_eq. f_equal. unfold setChildren. simpl. f_equal.
    rewrite cloned_cons, reverse_cons, fmap_app. simpl.
    by rewrite <- app_assoc.
Qed.

Lemma vStateVariables_prepend c vars :
  vStateVariables (setChildren c ((ChildVariable <$> vars) ++ c_children c))
  = vars ++ vStateVariables c.
Proof.
  unfold vStateVariables. simpl. rewrite omap_app. f_equal.
  induction vars as [|v vars IH]; [done|].
  rewrite fmap_cons. simpl. by f_equal.
Qed.

(** [addStorageVariables] as one step on the store, when the contract and
    its bases are there. *)
Lemma addStorageVariables_run node c bs
    (idRemapping : gmap nat VariableDeclaration) ast :
  context ast !! node = Some c ->
  located ast (getBaseContracts c) bs ->
  ∃ idRemapping',
    addStorageVariables node idRemapping ast
    = Ok (idRemapping',
          mkAST (roots ast)
            (<[node := setChildren c
                 ((ChildVariable
                     <$> reverse (cloned (nextId ast)
                                    (mergeByName (inheritedDeclarations bs)).*2))
                  ++ c_children c)]> (context ast))
            (nextId ast + length (mergeByName (inheritedDeclarations bs)).*2)).
Proof.
  intros Hc Hbs.
  unfold addStorageVariables. unfold bind at 1. rewrite (locate_run _ _ _ Hc).
  unfold bind at 1.
  rewrite (collect_run ast (reverse (getBaseContracts c)) (reverse bs))
    by (by apply Forall2_reverse).
  rewrite foldl_collectInheritedVariables.
  fold (mergeByName (concat (vStateVariables <$> reverse bs))).
  fold (inheritedDeclarations bs).
  apply (prepend_run node _ idRemapping ast c Hc).
Qed.

(** C3, amended.  [addStorageVariables] puts the clones of the inherited
    state variables at the very front of the children of [C], in the reverse
    of the final iteration order of the name-keyed map built over the bases
    from the farthest to the nearest, followed by the children [C] had, its
    own variables in their original order. *)
Theorem addStorageVariables_prepends_in_reverse_iteration_order
    (node : nat) (c : ContractDefinition) (bs : list ContractDefinition)
    (idRemapping : gmap nat VariableDeclaration) (ast : AST) :
  context ast !! node = Some c ->
  located ast (getBaseContracts c) bs ->
  let merged := (mergeByName (inheritedDeclarations bs)).*2 in
  let clones := cloned (nextId ast) merged in
  ∃ idRemapping' ast' c',
    addStorageVariables node idRemapping ast = Ok (idRemapping', ast')
    ∧ context ast' !! node = Some c'
    ∧ c_children c' = (ChildVariable <$> reverse clones) ++ c_children c
    ∧ vStateVariables c' = reverse clones ++ vStateVariables c
    ∧ linearizedBaseContracts c' = linearizedBaseContracts c
    ∧ nextId ast' = nextId ast + length merged
    ∧ ∀ k, k ≠ node -> context ast' !! k = context ast !! k.
Proof.
  intros Hc Hbs merged clones.
  destruct (addStorageVariables_run node c bs idRemapping ast Hc Hbs)
    as [idRemapping' Hrun].
  fold merged in Hrun. fold clones in Hrun.
  eexists _, _, _. split; [exact Hrun|]. simpl.
  split; [apply lookup_insert_eq|].
  split; [done|]. split; [apply vStateVariables_prepend|].
  split; [done|]. split; [done|].
  intros k Hk. by apply lookup_insert_ne.
Qed.

Lemma addStorageVariables_prepends_in_reverse_iteration_order_witness :
  ∃ idRemapping' ast' c',
    addStorageVariables 2 ∅ Samples.hierarchy = Ok (idRemapping', ast')
    ∧ context ast' !! 2 = Some c'
    ∧ v_name <$> vStateVariables c' = ["a"; "x"; "x"; "b"].
Proof.
  assert (located Samples.hierarchy (getBaseContracts Samples.Derived)
                  [Samples.Base]) as Hbases
    by (repeat constructor).
  destruct (addStorageVariables_prepends_in_reverse_iteration_order
              2 Samples.Derived [Samples.Base] ∅ Samples.hierarchy
              eq_refl Hbases)
    as (idRemapping' & ast' & c' & Hrun & Hc' & _ & Hvars & _).
  exists idRemapping', ast', c'.
  split; [exact Hrun|]. split; [exact Hc'|].
  rewrite Hvars. vm_compute. reflexivity.
Defined.

(** C3 as stated fails: for [Derived is Base] with [Base] declaring [x, a],
    the map iterates [x, a], and the clones stand in front in the order
    [a, x]. *)
Lemma addStorageVariables_not_in_iteration_order :
  ∃ idRemapping' ast' c',
    addStorageVariables 2 ∅ Samples.hierarchy = Ok (idRemapping', ast')
    ∧ context ast' !! 2 = Some c'
    ∧ (mergeByName (inheritedDeclarations [Samples.Base])).*1 = ["x"; "a"]
    ∧ v_name <$> vStateVariables c'
      ≠ (mergeByName (inheritedDeclarations [Samples.Base])).*1
        ++ (v_name <$> vStateVariables Samples.Derived).
Proof.
  eexists _, _, _. split; [vm_compute; reflexivity|].
  split; [vm_compute; reflexivity|].
  split; [vm_compute; reflexivity|].
  vm_compute. discriminate.
Qed.

(** *** What the other steps of a visit leave of the state variables *)

Lemma keepsVariables_refl node ast : keepsVariables node ast ast.
Proof. done. Qed.

Lemma keepsVariables_trans node a b c :
  keepsVariables node a b -> keepsVariables node b c -> keepsVariables node a c.
Proof. unfold keepsVariables. congruence. Qed.

Lemma keeps_reserveId node : preserves (keepsVariables node) reserveId.
Proof. by intros ast a ast' [= _ <-]. Qed.

Lemma keeps_modifyChildren node n g :
  (∀ c, signature <$> vStateVariables (setChildren c (g (c_children c)))
        = signature <$> vStateVariables c) ->
  preserves (keepsVariables node) (modifyChildren n g).
Proof.
  intros Hg ast a ast'. unfold modifyChildren.
  destruct (context ast !! n) as [c|] eqn:Hc; [|discriminate].
  intros [= _ <-]. unfold keepsVariables, variableSignatures. simpl.
  destruct (decide (n = node)) as [->|Hne].
  - rewrite lookup_insert_eq, Hc. simpl. by rewrite Hg.
  - by rewrite lookup_insert_ne.
Qed.

Lemma vStateVariables_append_function c f :
  vStateVariables (setChildren c (c_children c ++ [ChildFunction f]))
  = vStateVariables c.
Proof. unfold vStateVariables. simpl. by rewrite omap_app, app_nil_r. Qed.

Lemma vStateVariables_append_modifier c m :
  vStateVariables (setChildren c (c_children c ++ [ChildModifier m]))
  = vStateVariables c.
Proof. unfold vStateVariables. simpl. by rewrite omap_app, app_nil_r. Qed.

Lemma vStateVariables_updateConstructor c g :
  vStateVariables (setChildren c (updateConstructor g (c_children c)))
  = vStateVariables c.
Proof.
  unfold vStateVariables. simpl.
  induction (c_children c) as [|ch chs IH]; [done|].
  destruct ch as [s|v|f|m|l]; simpl; try exact IH.
  - f_equal. exact IH.
  - destruct (isConstructorKind f); [done | exact IH].
Qed.

Section WalkKeepsVariables.
Context {V : Type} `{Declaration V} (idRemapping : gmap nat V).

Lemma walkList_walkChild_signatures chs : ∀ n,
  signature <$> omap (fun ch => match ch with
                                | ChildVariable v => Some v
                                | _ => None
                                end)
                     (walkList (walkChild idRemapping) chs n).1
  = signature <$> omap (fun ch => match ch with
                                  | ChildVariable v => Some v
                                  | _ => None
                                  end) chs.
Proof.
  induction chs as [|ch chs IH]; intros n; [done|].
  simpl. destruct (walkChild idRemapping ch n) as [ch' n1] eqn:Hch.
  specialize (IH n1).
  destruct (walkList (walkChild idRemapping) chs n1) as [chs' n2].
  simpl in *.
  destruct ch as [s|v|f|m|l]; simpl in Hch.
  - destruct (walkNameNode _ _ _) as [? ?], (walkList _ _ _) as [? ?].
    injection Hch as <- <-. done.
  - unfold walkVariableDeclaration in Hch.
    destruct (walkOption _ _ _) as [value ?].
    injection Hch as <- <-. simpl. f_equal. exact IH.
  - destruct (walkFunctionDefinition _ _ _) as [? ?].
    injection Hch as <- <-. done.
  - destruct (walkModifierDefinition _ _ _) as [? ?].
    injection Hch as <- <-. done.
  - injection Hch as <- <-. done.
Qed.

Lemma keeps_updateReferencedDeclarations node n :
  preserves (keepsVariables node)
            (updateReferencedDeclarations n idRemapping).
Proof.
  intros ast a ast'. unfold updateReferencedDeclarations.
  destruct (context ast !! n) as [c|] eqn:Hc; [|discriminate].
  pose proof (walkList_walkChild_signatures (c_children c) (nextId ast)) as Hw.
  destruct (walkList _ _ _) as [chs k].
  intros [= _ <-]. unfold keepsVariables, variableSignatures. simpl.
  destruct (decide (n = node)) as [->|Hne].
  - rewrite lookup_insert_eq, Hc. simpl. f_equal. apply Hw.
  - by rewrite lookup_insert_ne.
Qed.
End WalkKeepsVariables.

Ltac keeps_prim :=
  first [ apply keeps_reserveId
        | apply keeps_modifyChildren; intros ?;
          first [ by rewrite vStateVariables_append_function
                | by rewrite vStateVariables_append_modifier
                | by rewrite vStateVariables_updateConstructor ]
        | apply keeps_updateReferencedDeclarations ].

Section KeepsVariables.
Variable node : nat.

Local Ltac walk :=
  preserves_walk (keepsVariables_refl node) (keepsVariables_trans node)
                 keeps_prim.

Lemma keeps_solveConstructorInheritance n :
  preserves (keepsVariables node) (solveConstructorInheritance n).
Proof. unfold solveConstructorInheritance. walk. Qed.

Lemma keeps_addPrivateSuperFunctions n idRemapping :
  preserves (keepsVariables node) (addPrivateSuperFunctions n idRemapping).
Proof. unfold addPrivateSuperFunctions, inlineBase. walk. Qed.

Lemma keeps_addNonoverridenPublicFunctions n idRemapping :
  preserves (keepsVariables node)
            (addNonoverridenPublicFunctions n idRemapping).
Proof. unfold addNonoverridenPublicFunctions, promote. walk. Qed.

Lemma keeps_addNonOverridenModifiers n idRemapping :
  preserves (keepsVariables node) (addNonOverridenModifiers n idRemapping).
Proof. unfold addNonOverridenModifiers. walk. Qed.
End KeepsVariables.

Lemma located_frame ast ast' ids bs :
  located ast ids bs ->
  (∀ id, id ∈ ids -> context ast' !! id = context ast !! id) ->
  located ast' ids bs.
Proof.
  induction 1 as [|id b ids bs Hb _ IH]; intros Hsame; constructor.
  - rewrite Hsame; [done | left].
  - apply IH. intros id' Hin. apply Hsame. by right.
Qed.

Lemma signature_cloned n vars :
  signature <$> cloned n vars = signature <$> vars.
Proof.
  revert n. induction vars as [|v vars IH]; intros n; [done|].
  rewrite cloned_cons, !fmap_cons, IH. done.
Qed.

Lemma filter_signature n (vars : list VariableDeclaration) :
  filter (fun s => s.1.1 = n) (signature <$> vars)
  = signature <$> filter (fun v => v_name v = n) vars.
Proof.
  induction vars as [|v vars IH]; [done|].
  rewrite fmap_cons, !filter_cons, IH. simpl.
  by destruct (decide (v_name v = n)).
Qed.

Lemma visit_steps node c ast ast' :
  context ast !! node = Some c ->
  2 ≤ length (linearizedBaseContracts c) ->
  visit node ast = Ok (tt, ast') ->
  ∃ functionRemapping variableRemapping modifierRemapping
    ast1 ast2 ast3 ast4 ast5 ast6 ast7,
    solveConstructorInheritance node ast = Ok (tt, ast1)
    ∧ addPrivateSuperFunctions node ∅ ast1 = Ok (functionRemapping, ast2)
    ∧ addNonoverridenPublicFunctions node functionRemapping ast2 = Ok (tt, ast3)
    ∧ addStorageVariables node ∅ ast3 = Ok (variableRemapping, ast4)
    ∧ addNonOverridenModifiers node ∅ ast4 = Ok (modifierRemapping, ast5)
    ∧ updateReferencedDeclarations node functionRemapping ast5 = Ok (tt, ast6)
    ∧ updateReferencedDeclarations node variableRemapping ast6 = Ok (tt, ast7)
    ∧ updateReferencedDeclarations node modifierRemapping ast7 = Ok (tt, ast').
Proof.
  intros Hc Hlen Hrun. unfold InheritanceInliner.visitContractDefinition in Hrun.
  apply bind_Ok in Hrun as (c0 & ast0 & [Hc0 ->]%locate_Ok & Hrun).
  rewrite Hc in Hc0. injection Hc0 as <-.
  rewrite bool_decide_eq_false_2 in Hrun by lia.
  apply bind_Ok in Hrun as ([] & ast1 & H1 & Hrun).
  apply bind_Ok in Hrun as (fr & ast2 & H2 & Hrun).
  apply bind_Ok in Hrun as ([] & ast3 & H3 & Hrun).
  apply bind_Ok in Hrun as (vr & ast4 & H4 & Hrun).
  apply bind_Ok in Hrun as (mr & ast5 & H5 & Hrun).
  apply bind_Ok in Hrun as ([] & ast6 & H6 & Hrun).
  apply bind_Ok in Hrun as ([] & ast7 & H7 & Hrun).
  apply bind_Ok in Hrun as ([] & ast8 & H8 & Hrun).
  injection Hrun as <-.
  exists fr, vr, mr, ast1, ast2, ast3, ast4, ast5, ast6, ast7. done.
Qed.

(** C2, amended.  Flattening [Derived] adds, for every state-variable name
    that some base declares, exactly one variable in front of the variables
    of [Derived]: the copy of the declaration of that name in the nearest
    base that has one.  The declarations of [Derived] all stay, so a name
    that [Derived] declares as well is then borne by the copy of the base's
    declaration and by the declaration of [Derived]. *)
Theorem flattening_adds_one_variable_per_inherited_name
    (node : nat) (c : ContractDefinition) (bs : list ContractDefinition)
    (ast ast' : AST) :
  context ast !! node = Some c ->
  2 ≤ length (linearizedBaseContracts c) ->
  node ∉ getBaseContracts c ->
  located ast (getBaseContracts c) bs ->
  visit node ast = Ok (tt, ast') ->
  ∃ c',
    context ast' !! node = Some c'
    ∧ signature <$> vStateVariables c'
      = reverse (signature <$> (mergeByName (inheritedDeclarations bs)).*2)
        ++ (signature <$> vStateVariables c)
    ∧ ∀ n d,
        last (filter (fun v => v_name v = n) (inheritedDeclarations bs)) = Some d ->
        filter (fun s => s.1.1 = n) (signature <$> vStateVariables c')
        = signature d
          :: filter (fun s => s.1.1 = n) (signature <$> vStateVariables c).
Proof.
  intros Hc Hlen Hself Hbs Hrun.
  destruct (visit_steps _ _ _ _ Hc Hlen Hrun)
    as (fr & vr & mr & ast1 & ast2 & ast3 & ast4 & ast5 & ast6 & ast7
        & H1 & H2 & H3 & H4 & H5 & H6 & H7 & H8).
  assert (node ∈ [node]) as Hin by left.
  (* up to the storage flattener *)
  assert (frame [node] ast ast3) as (_ & Hctx3 & Hlin3).
  { eapply frame_trans; [|eapply frame_trans].
    - exact (frame_solveConstructorInheritance [node] node Hin _ _ _ H1).
    - exact (frame_addPrivateSuperFunctions [node] node Hin _ _ _ _ H2).
    - exact (frame_addNonoverridenPublicFunctions [node] node Hin _ _ _ _ H3). }
  assert (keepsVariables node ast ast3) as Hkeep3.
  { eapply keepsVariables_trans; [|eapply keepsVariables_trans].
    - exact (keeps_solveConstructorInheritance node node _ _ _ H1).
    - exact (keeps_addPrivateSuperFunctions node node _ _ _ _ H2).
    - exact (keeps_addNonoverridenPublicFunctions node node _ _ _ _ H3). }
  specialize (Hlin3 node). unfold linearizationOf in Hlin3. rewrite Hc in Hlin3.
  unfold keepsVariables, variableSignatures in Hkeep3. rewrite Hc in Hkeep3.
  destruct (context ast3 !! node) as [c3|] eqn:Hc3; [|discriminate].
  simpl in Hlin3, Hkeep3. injection Hlin3 as Hlin3. injection Hkeep3 as Hkeep3.
  assert (getBaseContracts c3 = getBaseContracts c) as Hbases
    by (unfold getBaseContracts; by rewrite Hlin3).
  assert (located ast3 (getBaseContracts c3) bs) as Hbs3.
  { rewrite Hbases. apply (located_frame ast); [done|].
    intros id Hid. apply Hctx3. intros ->%list_elem_of_singleton. done. }
  (* the storage flattener *)
  destruct (addStorageVariables_run node c3 bs ∅ ast3 Hc3 Hbs3) as [vr' H4'].
  rewrite H4 in H4'. injection H4' as _ Hast4.
  set (c4 := setChildren c3
               ((ChildVariable
                   <$> reverse (cloned (nextId ast3)
                                  (mergeByName (inheritedDeclarations bs)).*2))
                ++ c_children c3)) in Hast4.
  assert (context ast4 !! node = Some c4) as Hc4
    by (rewrite Hast4; apply lookup_insert_eq).
  assert (vStateVariables c4
          = reverse (cloned (nextId ast3)
                       (mergeByName (inheritedDeclarations bs)).*2)
            ++ vStateVariables c3) as Hvars4
    by apply vStateVariables_prepend.
  (* after it *)
  assert (keepsVariables node ast4 ast') as Hkeep.
  { eapply keepsVariables_trans; [|eapply keepsVariables_trans;
                                    [|eapply keepsVariables_trans]].
    - exact (keeps_addNonOverridenModifiers node node _ _ _ _ H5).
    - exact (keeps_updateReferencedDeclarations fr node node _ _ _ H6).
    - exact (keeps_updateReferencedDeclarations vr node node _ _ _ H7).
    - exact (keeps_updateReferencedDeclarations mr node node _ _ _ H8). }
  unfold keepsVariables, variableSignatures in Hkeep. rewrite Hc4 in Hkeep.
  destruct (context ast' !! node) as [c'|] eqn:Hc'; [|discriminate].
  simpl in Hkeep. injection Hkeep as Hkeep.
  assert (signature <$> vStateVariables c'
          = reverse (signature <$> (mergeByName (inheritedDeclarations bs)).*2)
            ++ (signature <$> vStateVariables c)) as Hsig.
  { rewrite Hkeep, Hvars4, fmap_app, fmap_reverse, signature_cloned.
    by rewrite Hkeep3. }
  exists c'. split; [done|]. split; [done|].
  intros n d Hlast.
  rewrite Hsig, filter_app, filter_reverse, filter_signature.
  rewrite mergeByName_values_filter, Hlast. done.
Qed.

Lemma flattening_adds_one_variable_per_inherited_name_witness :
  ∃ c',
    context Samples.flattened !! 2 = Some c'
    ∧ filter (fun s => s.1.1 = "x") (signature <$> vStateVariables c')
      = [("x", "uint256", 1); ("x", "uint256", 2)].
Proof.
  assert (located Samples.hierarchy (getBaseContracts Samples.Derived)
                  [Samples.Base]) as Hbases
    by (repeat constructor).
  assert (2 ≤ length (linearizedBaseContracts Samples.Derived)) as Hlen
    by (unfold Samples.Derived; simpl; lia).
  assert (2 ∉ getBaseContracts Samples.Derived) as Hself.
  { unfold Samples.Derived, getBaseContracts. simpl.
    intros Hin%list_elem_of_singleton. lia. }
  assert (visit 2 Samples.hierarchy = Ok (tt, Samples.flattened)) as Hrun
    by (vm_compute; reflexivity).
  destruct (flattening_adds_one_variable_per_inherited_name
              2 Samples.Derived [Samples.Base] Samples.hierarchy
              Samples.flattened eq_refl Hlen Hself Hbases Hrun)
    as (c' & Hc' & _ & Hname).
  exists c'. split; [exact Hc'|].
  rewrite (Hname "x" (Samples.variable 10 "x" 1)) by reflexivity.
  reflexivity.
Defined.

(** C2 as stated fails: [Base] and [Derived] both declare [x]; after
    [Derived] is flattened it has two state variables of that name. *)
Lemma flattening_keeps_the_shadowed_declaration :
  ∃ c',
    visit 2 Samples.hierarchy = Ok (tt, Samples.flattened)
    ∧ context Samples.flattened !! 2 = Some c'
    ∧ "x" ∈ v_name <$> vStateVariables Samples.Base
    ∧ "x" ∈ v_name <$> vStateVariables Samples.Derived
    ∧ length (filter (fun v => v_name v = "x") (vStateVariables c')) ≠ 1
    ∧ v_name <$> vStateVariables c' = ["a"; "x"; "x"; "b"].
Proof.
  eexists. split; [vm_compute; reflexivity|].
  split; [vm_compute; reflexivity|].
  split; [apply (bool_decide_unpack _); vm_compute; exact I|].
  split; [apply (bool_decide_unpack _); vm_compute; exact I|].
  split; [vm_compute; discriminate | vm_compute; reflexivity].
Qed.

(** ** The function flattener *)

Lemma sameContext_refl ast : sameContext ast ast.
Proof. done. Qed.

Lemma sameContext_trans a b c :
  sameContext a b -> sameContext b c -> sameContext a c.
Proof. unfold sameContext. congruence. Qed.

Lemma sameContext_reserveId : preserves sameContext reserveId.
Proof. by intros ast a ast' [= _ <-]. Qed.

Ltac sameContext_walk :=
  preserves_walk sameContext_refl sameContext_trans
                 ltac:(apply sameContext_reserveId).

Lemma sameContext_cloneFunctionDefinition f :
  preserves sameContext (cloneFunctionDefinition f).
Proof. sameContext_walk. Qed.

Lemma sameContext_createDelegatingFunction f d scope :
  preserves sameContext (createDelegatingFunction f d scope).
Proof. sameContext_walk. Qed.

Lemma mapM_Ok {A B} (f : A -> M B) (P : A -> B -> Prop) l :
  (∀ x ast y ast', f x ast = Ok (y, ast') ->
                   P x y ∧ context ast' = context ast) ->
  ∀ ast ys ast', mapM f l ast = Ok (ys, ast') ->
                 Forall2 P l ys ∧ context ast' = context ast.
Proof.
  intros Hf. induction l as [|x l IH]; intros ast ys ast' Hrun; simpl in Hrun.
  - injection Hrun as <- <-. split; [constructor | done].
  - apply bind_Ok in Hrun as (y & ast1 & Hx & Hrun).
    apply bind_Ok in Hrun as (ys' & ast2 & Hl & Hrun).
    injection Hrun as <- <-.
    destruct (Hf _ _ _ _ Hx) as [HP Hc1]. destruct (IH _ _ _ Hl) as [HPs Hc2].
    split; [by constructor | congruence].
Qed.

Lemma cloneFunctionDefinition_Ok f ast cl ast' :
  cloneFunctionDefinition f ast = Ok (cl, ast') ->
  f_name cl = f_name f ∧ f_scope cl = f_scope f ∧ f_kind cl = f_kind f
  ∧ f_visibility cl = f_visibility f
  ∧ f_stateMutability cl = f_stateMutability f
  ∧ f_isConstructor cl = f_isConstructor f
  ∧ f_body cl = f_body f
  ∧ f_id cl = nextId ast
  ∧ context ast' = context ast.
Proof.
  intros Hrun.
  pose proof (sameContext_cloneFunctionDefinition _ _ _ _ Hrun) as Hctx.
  unfold cloneFunctionDefinition in Hrun.
  apply bind_Ok in Hrun as (i & ast1 & Hi & Hrun). injection Hi as <- <-.
  apply bind_Ok in Hrun as (ps & ast2 & _ & Hrun).
  apply bind_Ok in Hrun as (rs & ast3 & _ & Hrun).
  apply bind_Ok in Hrun as (ms & ast4 & _ & Hrun).
  apply bind_Ok in Hrun as (b & ast5 & Hb & Hrun).
  injection Hrun as <- <-. simpl. repeat split; try done.
  destruct (f_body f); [|by injection Hb as <- _].
  unfold cloneBlock in Hb. by injection Hb as <- _.
Qed.

Lemma clonePrivateSuperFunctions_Ok node depth base ast clones ast' :
  clonePrivateSuperFunctions node depth base ast = Ok (clones, ast') ->
  context ast' = context ast
  ∧ ∃ b, context ast !! base = Some b
         ∧ Forall (fun p => p.1 ∈ vFunctions b
                            ∧ f_isConstructor p.1 = false
                            ∧ privateCopyOf node depth p.1 p.2) clones.
Proof.
  intros Hrun. unfold clonePrivateSuperFunctions in Hrun.
  apply bind_Ok in Hrun as (b & ast0 & [Hb ->]%locate_Ok & Hrun).
  apply (mapM_Ok _ (fun func p => p.1 = func
                                  ∧ privateCopyOf node depth func p.2))
    in Hrun as [Hall Hctx].
  - split; [done|]. exists b. split; [done|].
    apply Forall_forall. intros [func cl] Hin.
    apply list_elem_of_lookup in Hin as [i Hi].
    destruct (Forall2_lookup_r _ _ _ _ _ Hall Hi) as (func' & Hfunc & <- & Hcopy).
    apply list_elem_of_lookup_2, list_elem_of_filter in Hfunc as [Hnc Hfunc].
    done.
  - intros func a p a' Hstep.
    apply bind_Ok in Hstep as (cl & a1 & Hcl & Hstep).
    injection Hstep as <- <-.
    apply cloneFunctionDefinition_Ok in Hcl as (Hname & _ & _ & _ & _ & _ & _ & _ & Hctx).
    split; [|done]. split; [done|]. unfold privateCopyOf. simpl.
    by rewrite Hname.
Qed.

Lemma appendAll_run node fs : ∀ ast c,
  context ast !! node = Some c ->
  forEach (fun func => appendChild node (ChildFunction func)) fs ast
  = Ok (tt, mkAST (roots ast)
              (<[node := setChildren c (c_children c ++ (ChildFunction <$> fs))]>
                 (context ast))
              (nextId ast)).
Proof.
  induction fs as [|f fs IH]; intros ast c Hc; simpl.
  - unfold ret. f_equal. f_equal. destruct ast as [r ctx n]. simpl in *.
    f_equal. rewrite app_nil_r, insert_id; [done|]. rewrite Hc. by destruct c.
  - unfold bind, appendChild, modifyChildren. rewrite Hc.
    erewrite IH by apply lookup_insert_eq. simpl.
    rewrite insert_insert_eq. unfold setChildren. simpl.
    by rewrite <- app_assoc.
Qed.

Lemma remapping_lookup (clones : list (FunctionDefinition * FunctionDefinition)) :
  ∀ (idRemapping : gmap nat FunctionDefinition) k priv,
  foldl (fun m '(func, cl) => <[f_id func := cl]> m) idRemapping clones !! k
  = Some priv ->
  idRemapping !! k = Some priv
  ∨ ∃ func, (func, priv) ∈ clones ∧ f_id func = k.
Proof.
  induction clones as [|[func cl] clones IH]; intros idRemapping k priv Hk.
  - by left.
  - simpl in Hk. apply IH in Hk as [Hk|(func' & Hin & Hid)].
    + destruct (decide (f_id func = k)) as [<-|Hne].
      * rewrite lookup_insert_eq in Hk. injection Hk as <-.
        right. exists func. split; [left | done].
      * rewrite lookup_insert_ne in Hk by done. by left.
    + right. exists func'. split; [by right | done].
Qed.

Lemma inlineBase_Ok node idRemapping depth base ast idRemapping' ast' c :
  inlineBase node idRemapping (depth, base) ast = Ok (idRemapping', ast') ->
  context ast !! node = Some c ->
  ∃ b clones,
    context ast !! base = Some b
    ∧ Forall (fun p => p.1 ∈ vFunctions b
                       ∧ f_isConstructor p.1 = false
                       ∧ privateCopyOf node depth p.1 p.2) clones
    ∧ idRemapping'
      = foldl (fun m '(func, cl) => <[f_id func := cl]> m) idRemapping clones
    ∧ context ast'
      = <[node := setChildren c (c_children c ++ (ChildFunction <$> clones.*2))]>
          (context ast).
Proof.
  intros Hrun Hc. unfold inlineBase in Hrun.
  apply bind_Ok in Hrun as (clones & ast1 & Hclones & Hrun).
  apply bind_Ok in Hrun as ([] & ast2 & Happend & Hrun).
  injection Hrun as <- <-.
  apply clonePrivateSuperFunctions_Ok in Hclones as (Hctx & b & Hb & Hall).
  rewrite (appendAll_run node _ ast1 c) in Happend by (by rewrite Hctx).
  injection Happend as <-. simpl. rewrite Hctx.
  exists b, clones. done.
Qed.

Lemma inlineBases_Ok node indexed :
  ∀ (idRemapping : gmap nat FunctionDefinition) ast c idRemapping' ast',
  foldM (inlineBase node) indexed idRemapping ast = Ok (idRemapping', ast') ->
  context ast !! node = Some c ->
  (∀ depth base, (depth, base) ∈ indexed -> base ≠ node) ->
  ∃ added,
    context ast'
    = <[node := setChildren c (c_children c ++ (ChildFunction <$> added))]>
        (context ast)
    ∧ ∀ k priv, idRemapping' !! k = Some priv ->
        idRemapping !! k = Some priv
        ∨ (priv ∈ added ∧ recordedCopy ast node indexed k priv).
Proof.
  induction indexed as [|[depth base] indexed IH];
    intros idRemapping ast c idRemapping' ast' Hrun Hc Hother.
  - injection Hrun as <- <-. exists []. split.
    + rewrite app_nil_r, insert_id; [done|]. rewrite Hc. by destruct c.
    + intros k priv Hk. by left.
  - simpl in Hrun. apply bind_Ok in Hrun as (remap1 & ast1 & Hbase & Hrun).
    destruct (inlineBase_Ok _ _ _ _ _ _ _ _ Hbase Hc)
      as (b & clones & Hb & Hall & -> & Hctx1).
    assert (context ast1 !! node
            = Some (setChildren c (c_children c ++ (ChildFunction <$> clones.*2))))
      as Hc1 by (rewrite Hctx1; apply lookup_insert_eq).
    destruct (IH _ _ _ _ _ Hrun Hc1) as (added & Hctx' & Hremap).
    { intros d' b' Hin. apply (Hother d' b'). by right. }
    exists (clones.*2 ++ added). split.
    + rewrite Hctx', Hctx1, insert_insert_eq. unfold setChildren. simpl.
      by rewrite fmap_app, app_assoc.
    + intros k priv Hk. apply Hremap in Hk as [Hk|[Hin Hcopy]].
      * apply remapping_lookup in Hk as [Hk|(func & Hin & Hid)]; [by left|].
        right. split.
        { apply elem_of_app. left. apply list_elem_of_fmap.
          by exists (func, priv). }
        rewrite Forall_forall in Hall.
        destruct (Hall _ Hin) as (Hfunc & Hnc & Hcopy). simpl in *.
        exists depth, base, b, func.
        exact (conj (list_elem_of_here _ _)
                 (conj Hb (conj Hfunc (conj Hnc (conj Hid Hcopy))))).
      * right. split; [apply elem_of_app; by right|].
        destruct Hcopy as (d' & b' & x & func & Hin' & Hx & Hfunc & Hnc & Hid & Hcopy).
        assert (b' ≠ node) as Hne by (apply (Hother d' b'); by right).
        rewrite Hctx1, lookup_insert_ne in Hx by done.
        exists d', b', x, func.
        exact (conj (list_elem_of_further _ _ _ Hin')
                 (conj Hx (conj Hfunc (conj Hnc (conj Hid Hcopy))))).
Qed.

Lemma addPrivateSuperFunctions_Ok node ast0 c0 idRemapping ast1 :
  context ast0 !! node = Some c0 ->
  node ∉ getBaseContracts c0 ->
  addPrivateSuperFunctions node ∅ ast0 = Ok (idRemapping, ast1) ->
  ∃ privs,
    context ast1
    = <[node := setChildren c0 (c_children c0 ++ (ChildFunction <$> privs))]>
        (context ast0)
    ∧ ∀ k priv, idRemapping !! k = Some priv ->
        priv ∈ privs
        ∧ recordedCopy ast0 node (imap pair (getBaseContracts c0)) k priv.
Proof.
  intros Hc Hself Hrun. unfold addPrivateSuperFunctions in Hrun.
  apply bind_Ok in Hrun as (c & ast & [Hc' ->]%locate_Ok & Hrun).
  rewrite Hc in Hc'. injection Hc' as <-.
  destruct (inlineBases_Ok _ _ _ _ _ _ _ Hrun Hc) as (privs & Hctx & Hremap).
  { intros depth base Hin <-. apply Hself.
    apply elem_of_lookup_imap in Hin as (i & x & [= -> ->] & Hx).
    by eapply list_elem_of_lookup_2. }
  exists privs. split; [done|]. intros k priv Hk.
  apply Hremap in Hk as [Hk|Hk]; [|done]. by rewrite lookup_empty in Hk.
Qed.

(** *** Delegating functions *)

Lemma cloneParameterList_shape p ast p' ast' :
  cloneParameterList p ast = Ok (p', ast') -> shape p' = shape p.
Proof.
  intros Hrun.
  destruct (cloneParameterList_Ok p ast) as (q & ast1 & Hq & Hshape).
  rewrite Hq in Hrun. by injection Hrun as <- _.
Qed.

Lemma mapM_createIdentifier l : ∀ ast ids ast',
  mapM createIdentifier l ast = Ok (ids, ast') ->
  ids = (fun v => Identifier (v_name v) (v_id v)) <$> l.
Proof.
  induction l as [|v l IH]; intros ast ids ast' Hrun; simpl in Hrun.
  - by injection Hrun as <- _.
  - apply bind_Ok in Hrun as (e & ast1 & He & Hrun).
    apply bind_Ok in Hrun as (es & ast2 & Hes & Hrun).
    injection Hrun as <- _. apply IH in Hes as ->.
    unfold createIdentifier in He.
    apply bind_Ok in He as (i & ast0 & _ & He). by injection He as <- _.
Qed.

Lemma createDelegatingFunction_Ok f priv scope ast d ast' :
  createDelegatingFunction f priv scope ast = Ok (d, ast') ->
  delegatesTo scope f priv d ∧ context ast' = context ast.
Proof.
  intros Hrun. split;
    [|exact (sameContext_createDelegatingFunction _ _ _ _ _ _ Hrun)].
  unfold createDelegatingFunction in Hrun.
  apply bind_Ok in Hrun as (ps & ast1 & Hps & Hrun).
  apply bind_Ok in Hrun as (rs & ast2 & Hrs & Hrun).
  apply bind_Ok in Hrun as ([] & ast3 & Hassert & Hrun).
  unfold assert in Hassert. case_bool_decide as Hkind; [|discriminate].
  destruct (f_isConstructor f) eqn:Hflag; [discriminate|].
  apply bind_Ok in Hrun as (i & ast4 & _ & Hrun).
  apply bind_Ok in Hrun as (ms & ast5 & _ & Hrun).
  apply bind_Ok in Hrun as (? & ast6 & _ & Hrun).
  apply bind_Ok in Hrun as (? & ast7 & _ & Hrun).
  apply bind_Ok in Hrun as (? & ast8 & _ & Hrun).
  apply bind_Ok in Hrun as (? & ast9 & _ & Hrun).
  apply bind_Ok in Hrun as (args & ast10 & Hargs & Hrun).
  injection Hrun as <- _. apply mapM_createIdentifier in Hargs as ->.
  apply cloneParameterList_shape in Hps, Hrs.
  unfold delegatesTo. simpl. by rewrite Hkind.
Qed.

Lemma promoteAll_Ok node (idRemapping : gmap nat FunctionDefinition) fs :
  ∀ ast c ast',
  forEach (promote node idRemapping) fs ast = Ok (tt, ast') ->
  context ast !! node = Some c ->
  ∃ ds,
    context ast'
    = <[node := setChildren c (c_children c ++ (ChildFunction <$> ds))]>
        (context ast)
    ∧ Forall2 (fun f d => ∃ priv, idRemapping !! f_id f = Some priv
                                  ∧ delegatesTo node f priv d) fs ds.
Proof.
  induction fs as [|f fs IH]; intros ast c ast' Hrun Hc.
  - injection Hrun as <-. exists []. split; [|constructor].
    rewrite app_nil_r, insert_id; [done|]. rewrite Hc. by destruct c.
  - simpl in Hrun. apply bind_Ok in Hrun as ([] & ast1 & Hf & Hrun).
    unfold promote in Hf.
    destruct (idRemapping !! f_id f) as [priv|] eqn:Hpriv; [|discriminate].
    apply bind_Ok in Hf as (d & ast0 & Hd & Happend).
    apply createDelegatingFunction_Ok in Hd as [Hd Hctx0].
    unfold appendChild, modifyChildren in Happend. rewrite Hctx0, Hc in Happend.
    injection Happend as <-.
    destruct (IH _ _ _ Hrun (lookup_insert_eq _ _ _)) as (ds & Hctx' & Hall).
    exists (d :: ds). split.
    + rewrite Hctx'. simpl. rewrite insert_insert_eq. unfold setChildren. simpl.
      by rewrite <- app_assoc.
    + constructor; [|done]. by exists priv.
Qed.

Lemma mapR_Ok {A B} (f : A -> R B) l ast : ∀ ys,
  mapR f l ast = Ok ys -> Forall2 (fun x y => f x ast = Ok y) l ys.
Proof.
  induction l as [|x l IH]; intros ys Hrun; simpl in Hrun.
  - injection Hrun as <-. constructor.
  - unfold bindR in Hrun. destruct (f x ast) as [y|] eqn:Hx; [|discriminate].
    destruct (mapR f l ast) as [ys'|]; [|discriminate].
    injection Hrun as <-. constructor; [done | by apply IH].
Qed.

Lemma resolveFunctionName_name fuel : ∀ node functionName ast f,
  resolveFunctionName fuel node functionName ast = Ok f ->
  f_name f = functionName.
Proof.
  induction fuel as [|fuel IH]; intros node functionName ast f Hrun;
    [discriminate|].
  simpl in Hrun. unfold bindR, locateR in Hrun.
  destruct (context ast !! node) as [c|]; [|discriminate].
  case_bool_decide; [discriminate|].
  destruct (filter _ (vFunctions c)) as [|g matches] eqn:Hmatches.
  - destruct (getBaseContracts c); [discriminate|]. by eapply IH.
  - injection Hrun as <-.
    assert (g ∈ filter (fun f => f_name f = functionName) (vFunctions c)) as Hg
      by (rewrite Hmatches; left).
    by apply list_elem_of_filter in Hg as [? _].
Qed.

(** A function the contract itself has is what its name resolves to. *)
Lemma resolveFunctionName_own fuel node ast c g f :
  context ast !! node = Some c ->
  g ∈ vFunctions c ->
  resolveFunctionName (S fuel) node (f_name g) ast = Ok f ->
  f = g.
Proof.
  intros Hc Hg Hrun. simpl in Hrun. unfold bindR, locateR in Hrun.
  rewrite Hc in Hrun. case_bool_decide as Hlen; [discriminate|].
  assert (g ∈ filter (fun f => f_name f = f_name g) (vFunctions c)) as Hin
    by (by apply list_elem_of_filter).
  destruct (filter _ (vFunctions c)) as [|g' matches].
  - by apply elem_of_nil in Hin.
  - injection Hrun as <-. destruct matches; [|simpl in Hlen; lia].
    by apply list_elem_of_singleton in Hin.
Qed.

Lemma vFunctions_app c fs :
  vFunctions (setChildren c (c_children c ++ (ChildFunction <$> fs)))
  = vFunctions c ++ fs.
Proof.
  unfold vFunctions. simpl. rewrite omap_app. f_equal.
  induction fs as [|f fs IH]; [done|]. rewrite fmap_cons. simpl. by f_equal.
Qed.

(** C5.  After the private copies of the base functions are in [C], every
    name of the visible interface of [C] resolves to a function of that
    name; when that function is owned by another contract, [C] gets a new
    function of the same name, visibility, mutability and parameter shapes
    whose body is one return of the call of the private, suffixed copy
    recorded for the resolved function, on the new function's own parameters
    in order.  No new function bears the name of a function [C] declares
    itself. *)
Theorem inherited_interface_functions_are_delegated
    (node : nat) (c0 : ContractDefinition)
    (idRemapping : gmap nat FunctionDefinition) (ast0 ast1 ast2 : AST) :
  context ast0 !! node = Some c0 ->
  node ∉ getBaseContracts c0 ->
  addPrivateSuperFunctions node ∅ ast0 = Ok (idRemapping, ast1) ->
  addNonoverridenPublicFunctions node idRemapping ast1 = Ok (tt, ast2) ->
  ∃ c1 c2 names privs ds,
    context ast1 !! node = Some c1
    ∧ c_children c1 = c_children c0 ++ (ChildFunction <$> privs)
    ∧ squashInterface (callStack ast1) node ast1 = Ok names
    ∧ context ast2 !! node = Some c2
    ∧ c_children c2 = c_children c1 ++ (ChildFunction <$> ds)
    ∧ (∀ name, name ∈ names ->
         ∃ f, resolveFunctionName (callStack ast1) node name ast1 = Ok f
              ∧ f_name f = name
              ∧ (f_scope f ≠ node ->
                 ∃ d priv,
                   d ∈ ds
                   ∧ delegatesTo node f priv d
                   ∧ idRemapping !! f_id f = Some priv
                   ∧ priv ∈ privs
                   ∧ recordedCopy ast0 node (imap pair (getBaseContracts c0))
                                  (f_id f) priv))
    ∧ (∀ g d, g ∈ vFunctions c0 -> f_scope g = node -> d ∈ ds ->
              f_name d ≠ f_name g).
Proof.
  intros Hc0 Hself Hprivate Hpublic.
  destruct (addPrivateSuperFunctions_Ok _ _ _ _ _ Hc0 Hself Hprivate)
    as (privs & Hctx1 & Hremap).
  set (c1 := setChildren c0 (c_children c0 ++ (ChildFunction <$> privs))).
  assert (context ast1 !! node = Some c1) as Hc1
    by (rewrite Hctx1; apply lookup_insert_eq).
  unfold addNonoverridenPublicFunctions in Hpublic.
  apply bind_Ok in Hpublic as (depth & ast & Hdepth & Hpublic).
  injection Hdepth as <- <-.
  apply bind_Ok in Hpublic as (names & ast & [Hnames ->]%liftR_Ok & Hpublic).
  apply bind_Ok in Hpublic as (resolved & ast & [Hres ->]%liftR_Ok & Hpublic).
  apply mapR_Ok in Hres.
  destruct (promoteAll_Ok _ _ _ _ _ _ Hpublic Hc1) as (ds & Hctx2 & Hall).
  exists c1, (setChildren c1 (c_children c1 ++ (ChildFunction <$> ds))),
    names, privs, ds.
  split; [done|]. split; [done|]. split; [done|].
  split; [rewrite Hctx2; apply lookup_insert_eq|]. split; [done|]. split.
  - intros name Hname. apply list_elem_of_lookup in Hname as [i Hi].
    destruct (Forall2_lookup_l _ _ _ _ _ Hres Hi) as (f & Hf & Hrun).
    exists f. split; [done|].
    split; [by apply resolveFunctionName_name in Hrun|].
    intros Hscope.
    assert (f ∈ filter (fun func => f_scope func ≠ node) resolved) as Hmove.
    { apply list_elem_of_filter. split; [done|]. by eapply list_elem_of_lookup_2. }
    apply list_elem_of_lookup in Hmove as [j Hj].
    destruct (Forall2_lookup_l _ _ _ _ _ Hall Hj) as (d & Hd & priv & Hpriv & Hdel).
    exists d, priv. split; [by eapply list_elem_of_lookup_2|].
    split; [done|]. split; [done|]. by apply Hremap.
  - intros g d Hg Hscope Hd Heq.
    apply list_elem_of_lookup in Hd as [j Hj].
    destruct (Forall2_lookup_r _ _ _ _ _ Hall Hj) as (f & Hf & priv & _ & Hdel).
    apply list_elem_of_lookup_2, list_elem_of_filter in Hf as [Hother Hf].
    apply list_elem_of_lookup in Hf as [i Hi].
    destruct (Forall2_lookup_r _ _ _ _ _ Hres Hi) as (name & _ & Hrun).
    pose proof (resolveFunctionName_name _ _ _ _ _ Hrun) as Hname.
    destruct Hdel as (Hdname & _).
    assert (g ∈ vFunctions c1) as Hg1.
    { unfold c1. rewrite vFunctions_app. apply elem_of_app. by left. }
    assert (name = f_name g) as -> by congruence.
    unfold callStack in Hrun.
    apply (resolveFunctionName_own _ _ _ _ _ _ Hc1 Hg1) in Hrun as ->.
    done.
Qed.

Lemma inherited_interface_functions_are_delegated_witness :
  ∃ c2 d,
    context Samples.promoted !! 2 = Some c2
    ∧ d ∈ vFunctions c2
    ∧ f_name d = "foo"
    ∧ f_visibility d = VisExternal
    ∧ f_stateMutability d = MutView
    ∧ shape (f_parameters d) = [("n", "uint256")]
    ∧ ∃ priv,
        Samples.privateCopies.1 !! 30 = Some priv
        ∧ f_name priv = "foo_s1"
        ∧ f_body d
          = Some [Return (pl_id (f_returnParameters d))
                    (Some (FunctionCall
                             (Identifier "foo_s1" (f_id priv))
                             ((fun v => Identifier (v_name v) (v_id v))
                                <$> pl_parameters (f_parameters d))))].
Proof.
  assert (2 ∉ getBaseContracts Samples.Derived) as Hself.
  { unfold Samples.Derived, getBaseContracts. simpl.
    intros Hin%list_elem_of_singleton. lia. }
  assert (addPrivateSuperFunctions 2 ∅ Samples.hierarchy
          = Ok (Samples.privateCopies.1, Samples.privateCopies.2)) as Hprivate
    by (vm_compute; reflexivity).
  assert (addNonoverridenPublicFunctions 2 Samples.privateCopies.1
            Samples.privateCopies.2 = Ok (tt, Samples.promoted)) as Hpublic
    by (vm_compute; reflexivity).
  destruct (inherited_interface_functions_are_delegated
              2 Samples.Derived Samples.privateCopies.1 Samples.hierarchy
              Samples.privateCopies.2 Samples.promoted
              eq_refl Hself Hprivate Hpublic)
    as (c1 & c2 & names & privs & ds
        & Hc1 & Hch1 & Hnames & Hc2 & Hch2 & Hdelegated & _).
  assert (names = ["foo"]) as ->.
  { assert (squashInterface (callStack Samples.privateCopies.2) 2
              Samples.privateCopies.2 = Ok ["foo"]) as Hfoo
      by (vm_compute; reflexivity).
    rewrite Hfoo in Hnames. by injection Hnames as <-. }
  destruct (Hdelegated "foo" (list_elem_of_here _ _))
    as (f & Hf & _ & Hpromote).
  assert (f = Samples.function 30 1 "foo" VisExternal) as ->.
  { assert (resolveFunctionName (callStack Samples.privateCopies.2) 2 "foo"
              Samples.privateCopies.2
            = Ok (Samples.function 30 1 "foo" VisExternal)) as Hfoo
      by (vm_compute; reflexivity).
    rewrite Hfoo in Hf. by injection Hf as <-. }
  destruct Hpromote as (d & priv & Hd & Hdel & Hpriv & _ & _);
    [simpl; lia|].
  destruct Hdel as (Hname & _ & _ & _ & Hvis & Hmut & Hshape & _ & Hbody).
  assert (Samples.privateCopies.1 !! 30 = Some priv) as Hpriv30
    by exact Hpriv.
  exists c2, d. split; [exact Hc2|].
  split.
  { unfold vFunctions. rewrite Hch2, omap_app. apply elem_of_app. right.
    apply list_elem_of_omap. exists (ChildFunction d).
    split; [by apply list_elem_of_fmap_2 | done]. }
  split; [exact Hname|]. split; [exact Hvis|]. split; [exact Hmut|].
  split; [exact Hshape|].
  exists priv. split; [exact Hpriv30|].
  assert (f_name <$> Samples.privateCopies.1 !! 30 = Some "foo_s1") as Hpname
    by (vm_compute; reflexivity).
  rewrite Hpriv30 in Hpname. injection Hpname as Hpname.
  split; [exact Hpname|]. rewrite Hbody, Hpname. reflexivity.
Defined.

(** Where ids identify the functions of the bases, the copy recorded for a
    function bears that function's name with the suffix of a depth. *)
Lemma recordedCopy_name ast node indexed f priv :
  recordedCopy ast node indexed (f_id f) priv ->
  (∀ base b func, context ast !! base = Some b -> func ∈ vFunctions b ->
                  f_id func = f_id f -> func = f) ->
  ∃ depth base, (depth, base) ∈ indexed
                ∧ f_name priv = suffixed (f_name f) depth.
Proof.
  intros (depth & base & b & func & Hin & Hb & Hfunc & _ & Hid & Hname & _) Hids.
  rewrite (Hids _ _ _ Hb Hfunc Hid) in Hname. eauto.
Qed.

(** ** The constructor linearizer *)

(** C4 (the code departs from it).  [Derived], without a constructor, below
    [Base], which has one: the private function made of the constructor of
    [Base] is appended to [Derived], its call is built, and the default
    constructor that is to hold the call is created but made a child of no
    contract; [Derived] has no constructor afterwards, and no function of
    [Derived] calls the private function. *)
Theorem solveConstructorInheritance_default_constructor_is_lost :
  ∃ c',
    solveConstructorInheritance 2 Samples.hierarchy
    = Ok (tt, Samples.linearized)
    ∧ context Samples.linearized !! 2 = Some c'
    ∧ is_Some (vConstructor Samples.Base)
    ∧ vConstructor Samples.Derived = None
    ∧ f_name <$> vFunctions c' = ["__warp_constructor_1"]
    ∧ vConstructor c' = None
    ∧ Forall (fun f => f_body f = Some [OtherStatement "init" [] []])
             (vFunctions c').
Proof.
  eexists. split; [vm_compute; reflexivity|].
  split; [vm_compute; reflexivity|].
  split; [by eexists|]. split; [reflexivity|].
  split; [vm_compute; reflexivity|]. split; [vm_compute; reflexivity|].
  repeat constructor.
Qed.

(** ** The bound on the rounds of [map] is never what stops it *)

Section ThrowsOnly.
Variable E : error -> Prop.

Lemma throwsOnly_ret {A} (a : A) : throwsOnly E (ret a).
Proof. intros ast e [=]. Qed.

Lemma throwsOnly_throw {A} e : E e -> throwsOnly E (@throw A e).
Proof. by intros He ast e' [= <-]. Qed.

Lemma throwsOnly_bind {A B} (m : M A) (k : A -> M B) :
  throwsOnly E m -> (∀ a, throwsOnly E (k a)) -> throwsOnly E (bind m k).
Proof.
  intros Hm Hk ast e [He|(a & ast1 & _ & He)]%bind_Err;
    [by eapply Hm | by eapply Hk].
Qed.

Lemma throwsOnly_liftR {A} (r : R A) : failsOnly E r -> throwsOnly E (liftR r).
Proof.
  intros Hr ast e. unfold liftR. destruct (r ast) eqn:Hrun; [done|].
  intros [= <-]. by eapply Hr.
Qed.

Lemma throwsOnly_gets {A} (f : AST -> A) : throwsOnly E (gets f).
Proof. intros ast e [=]. Qed.

Lemma throwsOnly_reserveId : throwsOnly E reserveId.
Proof. intros ast e [=]. Qed.

Lemma throwsOnly_forEach {A} (f : A -> M unit) l :
  (∀ x, throwsOnly E (f x)) -> throwsOnly E (forEach f l).
Proof.
  intros Hf. induction l as [|x l IH]; simpl.
  - apply throwsOnly_ret.
  - apply throwsOnly_bind; [apply Hf | intros _; apply IH].
Qed.

Lemma throwsOnly_foldM {A B} (f : B -> A -> M B) l b :
  (∀ b x, throwsOnly E (f b x)) -> throwsOnly E (foldM f l b).
Proof.
  intros Hf. revert b. induction l as [|x l IH]; intros b; simpl.
  - apply throwsOnly_ret.
  - apply throwsOnly_bind; [apply Hf | intros b'; apply IH].
Qed.

Lemma throwsOnly_mapM {A B} (f : A -> M B) l :
  (∀ x, throwsOnly E (f x)) -> throwsOnly E (mapM f l).
Proof.
  intros Hf. induction l as [|x l IH]; simpl.
  - apply throwsOnly_ret.
  - apply throwsOnly_bind; [apply Hf | intros y].
    apply throwsOnly_bind; [apply IH | intros ys; apply throwsOnly_ret].
Qed.

Lemma failsOnly_bindR {A B} (r : R A) (k : A -> R B) :
  failsOnly E r -> (∀ a, failsOnly E (k a)) -> failsOnly E (bindR r k).
Proof.
  intros Hr Hk ast e. unfold bindR. destruct (r ast) as [a|e'] eqn:Hrun.
  - apply Hk.
  - intros [= <-]. by eapply Hr.
Qed.

Lemma failsOnly_Ok {A} (a : A) : failsOnly E (fun _ => Ok a).
Proof. intros ast e [=]. Qed.

Lemma failsOnly_Err {A} e : E e -> failsOnly E (fun _ => @Err A e).
Proof. by intros He ast e' [= <-]. Qed.

Lemma failsOnly_mapR {A B} (f : A -> R B) l :
  (∀ x, failsOnly E (f x)) -> failsOnly E (mapR f l).
Proof.
  intros Hf. induction l as [|x l IH]; simpl.
  - apply failsOnly_Ok.
  - apply failsOnly_bindR; [apply Hf | intros y].
    apply failsOnly_bindR; [apply IH | intros ys; apply failsOnly_Ok].
Qed.
End ThrowsOnly.

Lemma failsOnly_locateR id : failsOnly notLoopFuel (locateR id).
Proof.
  intros ast e. unfold locateR. destruct (context ast !! id); [done|].
  by intros [= <-].
Qed.

Lemma failsOnly_squashInterface fuel :
  ∀ node, failsOnly notLoopFuel (squashInterface fuel node).
Proof.
  induction fuel as [|fuel IH]; intros node; simpl.
  - by apply failsOnly_Err.
  - apply failsOnly_bindR; [apply failsOnly_locateR | intros c].
    destruct (getBaseContracts c); [apply failsOnly_Ok|].
    apply failsOnly_bindR; [apply IH | intros ?; apply failsOnly_Ok].
Qed.

Lemma failsOnly_resolveFunctionName fuel :
  ∀ node name, failsOnly notLoopFuel (resolveFunctionName fuel node name).
Proof.
  induction fuel as [|fuel IH]; intros node name; simpl.
  - by apply failsOnly_Err.
  - apply failsOnly_bindR; [apply failsOnly_locateR | intros c].
    case_bool_decide; [by apply failsOnly_Err|].
    destruct (filter _ _); [|apply failsOnly_Ok].
    destruct (getBaseContracts c); [by apply failsOnly_Err | apply IH].
Qed.

Lemma throwsOnly_modifyChildren node g :
  throwsOnly notLoopFuel (modifyChildren node g).
Proof.
  intros ast e. unfold modifyChildren.
  destruct (context ast !! node); [done|]. by intros [= <-].
Qed.

Lemma throwsOnly_updateReferencedDeclarations {V} `{Declaration V}
    (idRemapping : gmap nat V) node :
  throwsOnly notLoopFuel (updateReferencedDeclarations node idRemapping).
Proof.
  intros ast e. unfold updateReferencedDeclarations.
  destruct (context ast !! node); [|by intros [= <-]].
  by destruct (walkList _ _ _).
Qed.

Ltac throws_walk :=
  repeat first
    [ apply throwsOnly_ret
    | apply throwsOnly_throw; discriminate
    | apply throwsOnly_gets
    | apply throwsOnly_reserveId
    | apply throwsOnly_modifyChildren
    | apply throwsOnly_updateReferencedDeclarations
    | apply throwsOnly_liftR;
      first [ apply failsOnly_locateR
            | apply failsOnly_squashInterface
            | apply failsOnly_mapR; intros ?; apply failsOnly_resolveFunctionName ]
    | apply throwsOnly_bind; [|intros ?]
    | apply throwsOnly_foldM; intros ? ?
    | apply throwsOnly_forEach; intros ?
    | apply throwsOnly_mapM; intros ?
    | match goal with
      | |- throwsOnly _ (match ?x with _ => _ end) => destruct x
      | |- throwsOnly _ ((match ?x with _ => _ end) _) => destruct x
      | |- throwsOnly _ (let _ := _ in _) => cbv zeta
      end
    | progress cbv beta
    | match goal with
      | |- throwsOnly _ ?m => let h := head_of m in progress unfold h
      end ].

Lemma throwsOnly_visit node : throwsOnly notLoopFuel (visit node).
Proof. unfold InheritanceInliner.visitContractDefinition. throws_walk. Qed.

Lemma mapLoop_never_out_of_rounds rounds : ∀ contracts ast,
  length contracts ≤ rounds -> mapLoop rounds contracts ast ≠ Err LoopFuel.
Proof.
  induction rounds as [|rounds IH]; intros contracts ast Hlen.
  - by destruct contracts; [|simpl in Hlen; lia].
  - destruct contracts as [|c contracts]; [done|].
    rewrite mapLoop_unfold. case_bool_decide as Hmd; [done|].
    intros [Hvisit|([] & ast1 & _ & Hrest)]%bind_Err.
    + by apply (throwsOnly_forEach _ _ _ throwsOnly_visit) in Hvisit.
    + revert Hrest. apply IH.
      assert (mostDerivedContracts ast (c :: contracts) ≠ []) as Hne
        by (intros Heq; apply Hmd; by rewrite Heq).
      apply pending_shrinks in Hne.
      change (length (c :: contracts)) with (S (length contracts)) in *. lia.
Qed.

(** X2.
    [map] is total: it returns the flattened AST or throws one of the errors
    of the pass; the bound that makes its loop a structural recursion is
    never reached. *)
Theorem map_never_out_of_rounds ast : map ast ≠ Err LoopFuel.
Proof.
  unfold map. pose proof (mapLoop_never_out_of_rounds
                            (length (vContracts ast)) (vContracts ast) ast
                            (le_n _)) as Hloop.
  destruct (mapLoop _ _ _) as [[[] ast']|e]; [done|]. congruence.
Qed.

(** ** The constructor linearizer, where the contract has a constructor *)

Lemma createFunctionFromConstructor_Ok constructorFunc id node ast newFunc ast' :
  createFunctionFromConstructor constructorFunc id node ast = Ok (newFunc, ast') ->
  constructorClone id constructorFunc newFunc ∧ context ast' = context ast.
Proof.
  intros Hrun. unfold createFunctionFromConstructor in Hrun.
  apply bind_Ok in Hrun as (cl & ast1 & Hcl & Hrun). injection Hrun as <- <-.
  apply cloneFunctionDefinition_Ok in Hcl
    as (_ & _ & _ & _ & _ & _ & Hbody & _ & Hctx).
  split; [|done]. unfold constructorClone. simpl. done.
Qed.

Lemma callConstructor_Ok node args constructors statements id ast statements'
    ast' x :
  callConstructor node args constructors statements id ast
  = Ok (statements', ast') ->
  context ast !! node = Some x ->
  match constructors !! id with
  | None => statements' = statements ∧ context ast' = context ast
  | Some constructorFunc =>
      ∃ newFunc,
        constructorClone id constructorFunc newFunc
        ∧ statements' = statements ++ [constructorCall args id newFunc]
        ∧ length (pl_parameters (f_parameters constructorFunc))
          = length (default [] (args !! id))
        ∧ context ast'
          = <[node := setChildren x (c_children x ++ [ChildFunction newFunc])]>
              (context ast)
  end.
Proof.
  intros Hrun Hx. unfold callConstructor in Hrun.
  destruct (constructors !! id) as [constructorFunc|].
  - apply bind_Ok in Hrun as (newFunc & ast1 & Hnew & Hrun).
    apply createFunctionFromConstructor_Ok in Hnew as [Hclone Hctx1].
    apply bind_Ok in Hrun as ([] & ast2 & Happend & Hrun).
    unfold appendChild, modifyChildren in Happend.
    rewrite Hctx1, Hx in Happend. injection Happend as <-.
    apply bind_Ok in Hrun as ([] & ast3 & Hassert & Hrun).
    unfold assert in Hassert. case_bool_decide as Hlen; [|discriminate].
    injection Hassert as <-.
    apply bind_Ok in Hrun as (? & ast4 & Hid & Hrun). injection Hid as _ <-.
    apply bind_Ok in Hrun as (call & ast5 & Hcall & Hrun).
    injection Hrun as <- <-.
    unfold generateFunctionCall in Hcall.
    apply bind_Ok in Hcall as (? & ast6 & Hid & Hcall). injection Hid as _ <-.
    apply bind_Ok in Hcall as (? & ast7 & Hid & Hcall). injection Hid as _ <-.
    injection Hcall as <- <-. simpl.
    exists newFunc. split; [done|]. split; [|done].
    unfold constructorCall. destruct Hclone as (-> & _). done.
  - by injection Hrun as <- <-.
Qed.

Lemma callConstructors_Ok node args constructors ids :
  ∀ statements ast statements' ast' x,
  foldM (callConstructor node args constructors) ids statements ast
  = Ok (statements', ast') ->
  context ast !! node = Some x ->
  ∃ news,
    Forall2 (fun id newFunc =>
               ∃ constructorFunc,
                 constructors !! id = Some constructorFunc
                 ∧ constructorClone id constructorFunc newFunc
                 ∧ length (pl_parameters (f_parameters constructorFunc))
                   = length (default [] (args !! id)))
            (filter (fun id => is_Some (constructors !! id)) ids) news
    ∧ statements'
      = statements
        ++ zip_with (constructorCall args)
             (filter (fun id => is_Some (constructors !! id)) ids) news
    ∧ context ast'
      = <[node := setChildren x (c_children x ++ (ChildFunction <$> news))]>
          (context ast).
Proof.
  induction ids as [|id ids IH]; intros statements ast statements' ast' x Hrun Hx.
  - injection Hrun as <- <-. exists []. split; [constructor|].
    split; [by rewrite app_nil_r|].
    rewrite app_nil_r, insert_id; [done|]. rewrite Hx. by destruct x.
  - simpl in Hrun. apply bind_Ok in Hrun as (statements1 & ast1 & Hstep & Hrun).
    pose proof (callConstructor_Ok _ _ _ _ _ _ _ _ _ Hstep Hx) as Hone.
    destruct (constructors !! id) as [constructorFunc|] eqn:Hctor.
    + destruct Hone as (newFunc & Hclone & -> & Hlen & Hctx1).
      destruct (IH _ _ _ _
                  (setChildren x (c_children x ++ [ChildFunction newFunc]))
                  Hrun)
        as (news & Hall & -> & Hctx').
      { rewrite Hctx1. apply lookup_insert_eq. }
      exists (newFunc :: news). rewrite filter_cons_True by (by rewrite Hctor).
      split; [constructor; [by exists constructorFunc | done]|].
      split; [by rewrite <- app_assoc|].
      rewrite Hctx', Hctx1, insert_insert_eq. unfold setChildren. simpl.
      by rewrite <- app_assoc.
    + destruct Hone as [-> Hctx1].
      destruct (IH _ _ _ _ x Hrun) as (news & Hall & -> & Hctx');
        [by rewrite Hctx1|].
      exists news. rewrite filter_cons_False by (rewrite Hctor; by intros [? ?]).
      split; [done|]. split; [done|]. by rewrite Hctx', Hctx1.
Qed.

Lemma vConstructor_append x news :
  Forall (fun f => f_kind f = KindFunction) news ->
  vConstructor (setChildren x (c_children x ++ (ChildFunction <$> news)))
  = vConstructor x.
Proof.
  intros Hnews. unfold vConstructor. rewrite vFunctions_app, filter_app.
  rewrite (filter_none _ news), app_nil_r; [done|].
  intros f Hf. rewrite Forall_forall in Hnews.
  unfold isConstructorKind. rewrite (Hnews _ Hf). by case_bool_decide.
Qed.

Lemma vConstructor_updateConstructor g chs name lin self :
  vConstructor (mkContractDefinition name lin chs) = Some self ->
  isConstructorKind (g self) = true ->
  vConstructor (mkContractDefinition name lin (updateConstructor g chs))
  = Some (g self).
Proof.
  unfold vConstructor, vFunctions. simpl.
  induction chs as [|ch chs IH]; intros Hself Hg; [done|].
  destruct ch as [s|v|f|m|l]; simpl in *; try (by apply IH).
  destruct (isConstructorKind f) eqn:Hf; simpl.
  - rewrite filter_cons_True in Hself by done. injection Hself as ->.
    by rewrite filter_cons_True.
  - rewrite filter_cons_False in Hself by (by rewrite Hf).
    rewrite filter_cons_False by (by rewrite Hf). by apply IH.
Qed.

Lemma collectConstructor_Ok args constructors id ast args' constructors' ast' :
  collectConstructor (args, constructors) id ast
  = Ok ((args', constructors'), ast') ->
  ast' = ast ∧ constructors' = recordConstructor ast constructors id.
Proof.
  intros Hrun. unfold collectConstructor in Hrun.
  apply bind_Ok in Hrun as (x & ast1 & [Hx ->]%locate_Ok & Hrun).
  apply bind_Ok in Hrun as (args1 & ast2 & Hargs & Hrun).
  injection Hargs as <- <-. injection Hrun as <- <- <-.
  split; [done|]. unfold recordConstructor, constructorOf. rewrite Hx. done.
Qed.

Lemma collectConstructors_fold ids : ∀ args constructors ast args' constructors' ast',
  foldM collectConstructor ids (args, constructors) ast
  = Ok ((args', constructors'), ast') ->
  ast' = ast ∧ constructors' = foldl (recordConstructor ast) constructors ids.
Proof.
  induction ids as [|id ids IH];
    intros args constructors ast args' constructors' ast' Hrun.
  - by injection Hrun as <- <- <-.
  - simpl in Hrun.
    apply bind_Ok in Hrun as ([args1 constructors1] & ast1 & Hstep & Hrun).
    apply collectConstructor_Ok in Hstep as [-> ->].
    by apply IH in Hrun.
Qed.

Lemma recordConstructor_lookup ast ids id f :
  foldl (recordConstructor ast) ∅ ids !! id = Some f
  ↔ id ∈ ids ∧ constructorOf ast id = Some f.
Proof.
  induction ids as [|id0 ids IH] using rev_ind.
  - simpl. rewrite lookup_empty, elem_of_nil. intuition discriminate.
  - rewrite foldl_snoc, elem_of_app, list_elem_of_singleton.
    unfold recordConstructor at 1.
    destruct (decide (id = id0)) as [->|Hne].
    + destruct (constructorOf ast id0) as [f0|] eqn:Hctor.
      * rewrite lookup_insert_eq. intuition congruence.
      * rewrite IH. intuition congruence.
    + destruct (constructorOf ast id0) as [f0|].
      * rewrite lookup_insert_ne by done. rewrite IH. intuition congruence.
      * rewrite IH. intuition congruence.
Qed.

Lemma setBody_same f body : f_body f = Some body -> setBody body f = f.
Proof. destruct f. simpl. by intros ->. Qed.

Lemma vConstructor_kind c self :
  vConstructor c = Some self -> isConstructorKind self = true.
Proof.
  unfold vConstructor.
  destruct (filter _ (vFunctions c)) as [|f fs] eqn:Hfilter; [done|].
  intros [= ->].
  assert (self ∈ filter (fun f => isConstructorKind f = true) (vFunctions c))
    as Hin by (rewrite Hfilter; left).
  by apply list_elem_of_filter in Hin as [? _].
Qed.

Lemma elem_of_drop_1 {A} (x : A) l : x ∈ drop 1 l -> x ∈ l.
Proof. destruct l as [|y l]; [done|]. simpl. rewrite drop_0. by right. Qed.

(** The first two loops of [solveConstructorInheritance]. *)
Lemma solveConstructorInheritance_loops node c ast args constructors ast1
    statements ast2 :
  context ast !! node = Some c ->
  collectConstructors c ast = Ok ((args, constructors), ast1) ->
  callConstructors node c args constructors ast1 = Ok (statements, ast2) ->
  ∃ news,
    Forall2 (fun id newFunc =>
               ∃ constructorFunc,
                 constructorOf ast id = Some constructorFunc
                 ∧ constructorClone id constructorFunc newFunc
                 ∧ length (pl_parameters (f_parameters constructorFunc))
                   = length (default [] (args !! id)))
            (ancestorsWithConstructor ast c) news
    ∧ statements
      = zip_with (constructorCall args) (ancestorsWithConstructor ast c) news
    ∧ context ast2
      = <[node := setChildren c (c_children c ++ (ChildFunction <$> news))]>
          (context ast).
Proof.
  intros Hc Hcollect Hcall.
  apply collectConstructors_fold in Hcollect as [-> ->].
  destruct (callConstructors_Ok _ _ _ _ _ _ _ _ _ Hcall Hc)
    as (news & Hall & -> & Hctx).
  assert (filter (fun id => is_Some (foldl (recordConstructor ast) ∅
                                       (linearizedBaseContracts c) !! id))
                 (reverse (drop 1 (linearizedBaseContracts c)))
          = ancestorsWithConstructor ast c) as Hids.
  { apply filter_ext_elem_of. intros id Hid.
    rewrite elem_of_reverse in Hid.
    assert (id ∈ linearizedBaseContracts c) as Hi
      by (by apply elem_of_drop_1).
    unfold is_Some. setoid_rewrite recordConstructor_lookup.
    split; intros [f Hf]; exists f; tauto. }
  rewrite Hids in *. exists news. split; [|done].
  eapply Forall2_impl; [exact Hall|]. simpl.
  intros id newFunc (constructorFunc & Hctor & Hrest).
  apply recordConstructor_lookup in Hctor as [_ Hctor]. eauto.
Qed.

Lemma Forall2_constructorClone_kind ast (args : gmap nat (list Expression))
    ids news :
  Forall2 (fun id newFunc =>
             ∃ constructorFunc,
               constructorOf ast id = Some constructorFunc
               ∧ constructorClone id constructorFunc newFunc
               ∧ length (pl_parameters (f_parameters constructorFunc))
                 = length (default [] (args !! id)))
          ids news ->
  Forall (fun f => f_kind f = KindFunction) news.
Proof.
  induction 1 as [|id newFunc ids news (? & _ & (_ & Hkind & _) & _) _ IH];
    by constructor.
Qed.

Lemma elem_of_updateConstructor g chs f :
  ChildFunction f ∈ chs ->
  isConstructorKind f = false ->
  ChildFunction f ∈ updateConstructor g chs.
Proof.
  intros Hin Hf. induction chs as [|ch chs IH]; [by apply elem_of_nil in Hin|].
  apply elem_of_cons in Hin as [<-|Hin]; simpl.
  - rewrite Hf. left.
  - destruct ch as [s|v|f0|m|l]; try (right; by apply IH).
    destruct (isConstructorKind f0); right; [done | by apply IH].
Qed.

(** X21.
    What holds for a contract with a constructor of its own, when
    [solveConstructorInheritance] returns: one private function and one
    call per ancestor that declares a constructor, the farthest ancestor
    first, each made of a constructor with as many parameters as the call
    has arguments; the functions are in the contract and the calls stand
    before the statements the constructor had. *)
Lemma solveConstructorInheritance_prepends_calls node c self body ast ast' :
  context ast !! node = Some c ->
  vConstructor c = Some self ->
  f_body self = Some body ->
  solveConstructorInheritance node ast = Ok (tt, ast') ->
  ∃ (args : gmap nat (list Expression)) news c',
    Forall2 (fun id newFunc =>
               ∃ constructorFunc,
                 constructorOf ast id = Some constructorFunc
                 ∧ constructorClone id constructorFunc newFunc
                 ∧ length (pl_parameters (f_parameters constructorFunc))
                   = length (default [] (args !! id)))
            (ancestorsWithConstructor ast c) news
    ∧ context ast' !! node = Some c'
    ∧ Forall (fun newFunc => newFunc ∈ vFunctions c') news
    ∧ vConstructor c'
      = Some (setBody (zip_with (constructorCall args)
                         (ancestorsWithConstructor ast c) news ++ body) self).
Proof.
  intros Hc Hself Hbody Hrun. unfold solveConstructorInheritance in Hrun.
  apply bind_Ok in Hrun as (c0 & ast0 & [Hc0 ->]%locate_Ok & Hrun).
  rewrite Hc in Hc0. injection Hc0 as <-.
  apply bind_Ok in Hrun as ([args constructors] & ast1 & Hcollect & Hrun).
  apply bind_Ok in Hrun as (statements & ast2 & Hcall & Hrun).
  destruct (solveConstructorInheritance_loops _ _ _ _ _ _ _ _ Hc Hcollect Hcall)
    as (news & Hall & -> & Hctx2).
  pose proof (Forall2_constructorClone_kind _ _ _ _ Hall) as Hkinds.
  set (c2 := setChildren c (c_children c ++ (ChildFunction <$> news))) in *.
  assert (context ast2 !! node = Some c2) as Hc2
    by (rewrite Hctx2; apply lookup_insert_eq).
  assert (vConstructor c2 = Some self) as Hself2
    by (unfold c2; by rewrite vConstructor_append).
  exists args, news.
  case_bool_decide as Hlen.
  - apply bind_Ok in Hrun as (c2' & ast3 & [Hc2' ->]%locate_Ok & Hrun).
    rewrite Hc2 in Hc2'. injection Hc2' as <-.
    rewrite Hself2, Hbody in Hrun.
    apply bind_Ok in Hrun as (cloned & ast3 & Hcloned & Hrun).
    injection Hcloned as <- <-.
    apply bind_Ok in Hrun as (newBody & ast3 & Hblock & Hrun).
    unfold createBlock in Hblock.
    apply bind_Ok in Hblock as (? & ast4 & Hid & Hblock).
    injection Hid as _ <-. injection Hblock as <- <-.
    unfold modifyChildren in Hrun. simpl in Hrun. rewrite Hc2 in Hrun.
    injection Hrun as <-. simpl. eexists. split; [done|].
    split; [apply lookup_insert_eq|]. split.
    + apply Forall_forall. intros newFunc Hin.
      unfold vFunctions. simpl. apply list_elem_of_omap.
      exists (ChildFunction newFunc). split; [|done].
      assert (f_kind newFunc = KindFunction) as Hkind
        by (rewrite Forall_forall in Hkinds; by apply Hkinds).
      apply elem_of_updateConstructor.
      * apply elem_of_app. right. by apply list_elem_of_fmap_2.
      * unfold isConstructorKind. rewrite Hkind. by case_bool_decide.
    + unfold setChildren. apply vConstructor_updateConstructor.
      * exact Hself2.
      * by apply vConstructor_kind in Hself.
  - injection Hrun as <-.
    assert (zip_with (constructorCall args) (ancestorsWithConstructor ast c) news
            = []) as ->
      by (destruct (zip_with _ _ _); [done | simpl in Hlen; lia]).
    exists c2. split; [done|]. split; [done|]. split.
    + apply Forall_forall. intros newFunc Hin. unfold c2.
      rewrite vFunctions_app. apply elem_of_app. by right.
    + simpl. by rewrite setBody_same.
Qed.

Lemma solveConstructorInheritance_prepends_calls_witness :
  ∃ (args : gmap nat (list Expression)) news c',
    Forall2 (fun id newFunc =>
               ∃ constructorFunc,
                 constructorOf Samples.hierarchyWithConstructor id
                 = Some constructorFunc
                 ∧ constructorClone id constructorFunc newFunc
                 ∧ length (pl_parameters (f_parameters constructorFunc))
                   = length (default [] (args !! id)))
            (ancestorsWithConstructor Samples.hierarchyWithConstructor
               Samples.DerivedWithConstructor) news
    ∧ context Samples.linearizedWithConstructor !! 2 = Some c'
    ∧ Forall (fun newFunc => newFunc ∈ vFunctions c') news
    ∧ vConstructor c'
      = Some (setBody (zip_with (constructorCall args)
                         (ancestorsWithConstructor
                            Samples.hierarchyWithConstructor
                            Samples.DerivedWithConstructor) news
                       ++ [OtherStatement "own" [] []])
                      (Samples.constructor 50 2 [OtherStatement "own" [] []])).
Proof.
  apply (solveConstructorInheritance_prepends_calls
           2 Samples.DerivedWithConstructor
           (Samples.constructor 50 2 [OtherStatement "own" [] []])
           [OtherStatement "own" [] []]
           Samples.hierarchyWithConstructor Samples.linearizedWithConstructor).
  - reflexivity.
  - reflexivity.
  - reflexivity.
  - vm_compute. reflexivity.
Defined.

(** [Derived] with a constructor, below [Base] with one: the body of the
    constructor of [Derived] is the call of the private function made of the
    constructor of [Base], then what it was. *)
Example solveConstructorInheritance_with_constructor :
  ∃ ast' c' self,
    solveConstructorInheritance 2 Samples.hierarchyWithConstructor
    = Ok (tt, ast')
    ∧ context ast' !! 2 = Some c'
    ∧ vConstructor c' = Some self
    ∧ f_body self
      = Some [ExpressionStatement
                (FunctionCall (Identifier "__warp_constructor_1" 100) []);
              OtherStatement "own" [] []].
Proof.
  eexists _, _, _. split; [vm_compute; reflexivity|].
  split; [vm_compute; reflexivity|].
  split; [vm_compute; reflexivity|]. reflexivity.
Qed.

(** X22.
    The general form of the defect: a contract without a constructor has
    none after [solveConstructorInheritance] either, whatever constructors
    its ancestors declare; the private functions made of them are appended
    to the children, their calls are not in the contract. *)
Lemma solveConstructorInheritance_without_constructor node c ast ast' :
  context ast !! node = Some c ->
  vConstructor c = None ->
  solveConstructorInheritance node ast = Ok (tt, ast') ->
  ∃ (args : gmap nat (list Expression)) news c',
    Forall2 (fun id newFunc =>
               ∃ constructorFunc,
                 constructorOf ast id = Some constructorFunc
                 ∧ constructorClone id constructorFunc newFunc
                 ∧ length (pl_parameters (f_parameters constructorFunc))
                   = length (default [] (args !! id)))
            (ancestorsWithConstructor ast c) news
    ∧ context ast' !! node = Some c'
    ∧ c_children c' = c_children c ++ (ChildFunction <$> news)
    ∧ vConstructor c' = None.
Proof.
  intros Hc Hnone Hrun. unfold solveConstructorInheritance in Hrun.
  apply bind_Ok in Hrun as (c0 & ast0 & [Hc0 ->]%locate_Ok & Hrun).
  rewrite Hc in Hc0. injection Hc0 as <-.
  apply bind_Ok in Hrun as ([args constructors] & ast1 & Hcollect & Hrun).
  apply bind_Ok in Hrun as (statements & ast2 & Hcall & Hrun).
  destruct (solveConstructorInheritance_loops _ _ _ _ _ _ _ _ Hc Hcollect Hcall)
    as (news & Hall & -> & Hctx2).
  pose proof (Forall2_constructorClone_kind _ _ _ _ Hall) as Hkinds.
  set (c2 := setChildren c (c_children c ++ (ChildFunction <$> news))) in *.
  assert (context ast2 !! node = Some c2) as Hc2
    by (rewrite Hctx2; apply lookup_insert_eq).
  assert (vConstructor c2 = None) as Hnone2
    by (unfold c2; by rewrite vConstructor_append).
  assert (context ast' = context ast2) as Hctx'.
  { case_bool_decide.
    - apply bind_Ok in Hrun as (c2' & ast3 & [Hc2' ->]%locate_Ok & Hrun).
      rewrite Hc2 in Hc2'. injection Hc2' as <-. rewrite Hnone2 in Hrun.
      apply bind_Ok in Hrun as (dflt & ast3 & Hdflt & Hrun).
      apply bind_Ok in Hrun as (withBody & ast4 & Hbody & Hrun).
      injection Hrun as <-.
      assert (preserves sameContext (createDefaultConstructor node)) as H1
        by sameContext_walk.
      assert (preserves sameContext (generateBody
                (zip_with (constructorCall args)
                   (ancestorsWithConstructor ast c) news) dflt)) as H2
        by sameContext_walk.
      rewrite (H2 _ _ _ Hbody). exact (H1 _ _ _ Hdflt).
    - by injection Hrun as <-. }
  exists args, news, c2. split; [done|]. split; [by rewrite Hctx'|]. done.
Qed.

Lemma solveConstructorInheritance_without_constructor_witness :
  ∃ (args : gmap nat (list Expression)) news c',
    Forall2 (fun id newFunc =>
               ∃ constructorFunc,
                 constructorOf Samples.hierarchy id = Some constructorFunc
                 ∧ constructorClone id constructorFunc newFunc
                 ∧ length (pl_parameters (f_parameters constructorFunc))
                   = length (default [] (args !! id)))
            (ancestorsWithConstructor Samples.hierarchy Samples.Derived) news
    ∧ context Samples.linearized !! 2 = Some c'
    ∧ c_children c' = c_children Samples.Derived ++ (ChildFunction <$> news)
    ∧ vConstructor c' = None.
Proof.
  apply (solveConstructorInheritance_without_constructor
           2 Samples.Derived Samples.hierarchy Samples.linearized).
  - reflexivity.
  - reflexivity.
  - vm_compute. reflexivity.
Defined.

(** ** The depth of the recursions along first bases *)

Section Chain.
Variable next : nat -> option nat.
Variable ast : AST.
Hypothesis next_located : ∀ x y, next x = Some y -> is_Some (context ast !! x).

Lemma chain_deterministic x p z :
  chain next x p z -> ∀ p' z', chain next x p' z' -> p = p' ∧ z = z'.
Proof.
  induction 1 as [x Hx|x y p z Hx _ IH]; intros p' z' Hchain';
    inversion Hchain' as [? Hx'|? y' q ? Hx' Hrest]; subst; try congruence.
  - done.
  - rewrite Hx in Hx'. injection Hx' as <-.
    destruct (IH _ _ Hrest) as [-> ->]. done.
Qed.

Lemma chain_from_member y p z x :
  chain next y p z -> x ∈ p ->
  ∃ q, chain next x q z ∧ length q ≤ length p.
Proof.
  induction 1 as [y Hy|y y' p z Hy Hrest IH]; intros Hin.
  - by apply elem_of_nil in Hin.
  - apply elem_of_cons in Hin as [->|Hin].
    + exists (y :: p). split; [by econstructor | done].
    + destruct (IH Hin) as (q & Hq & Hlen). exists q. split; [done|].
      simpl. lia.
Qed.

Lemma chain_NoDup x p z : chain next x p z -> NoDup p.
Proof.
  induction 1 as [x Hx|x y p z Hx Hrest IH]; [constructor|].
  apply NoDup_cons. split; [|done]. intros Hin.
  destruct (chain_from_member _ _ _ _ Hrest Hin) as (q & Hq & Hlen).
  assert (chain next x (x :: p) z) as Hfull by (by econstructor).
  destruct (chain_deterministic _ _ _ Hfull _ _ Hq) as [<- _].
  simpl in Hlen. lia.
Qed.

Lemma chain_located x p z : chain next x p z -> ∀ v, v ∈ p -> v ∈ dom (context ast).
Proof using next_located.
  induction 1 as [x Hx|x y p z Hx Hrest IH]; intros v Hin.
  - by apply elem_of_nil in Hin.
  - apply elem_of_cons in Hin as [->|Hin]; [|by apply IH].
    apply elem_of_dom. by eapply next_located.
Qed.

(** A recursion that stops has passed every contract at most once, so it is
    no deeper than [callStack]. *)
Lemma chain_length x p z : chain next x p z -> length p < callStack ast.
Proof using next_located.
  intros Hchain. unfold callStack.
  pose proof (chain_NoDup _ _ _ Hchain) as Hnodup.
  pose proof (chain_located _ _ _ Hchain) as Hdom.
  assert (size (list_to_set p : gset nat) ≤ size (dom (context ast))) as Hsize.
  { apply subseteq_size. intros v Hv. apply Hdom.
    by apply elem_of_list_to_set in Hv. }
  rewrite size_list_to_set in Hsize by done.
  rewrite size_dom in Hsize. lia.
Qed.
End Chain.

Lemma nextInterface_located ast x y :
  nextInterface ast x = Some y -> is_Some (context ast !! x).
Proof. unfold nextInterface. by destruct (context ast !! x). Qed.

Lemma nextResolution_located ast name x y :
  nextResolution ast name x = Some y -> is_Some (context ast !! x).
Proof. unfold nextResolution. by destruct (context ast !! x). Qed.

Lemma squashInterface_chain fuel : ∀ ast node,
  squashInterface fuel node ast ≠ Err RangeError ->
  ∃ p z, chain (nextInterface ast) node p z ∧ length p < fuel.
Proof.
  induction fuel as [|fuel IH]; intros ast node Hrun; [done|].
  simpl in Hrun. unfold bindR, locateR in Hrun.
  destruct (context ast !! node) as [c|] eqn:Hc.
  - destruct (getBaseContracts c) as [|b0 bases] eqn:Hbases.
    + exists [], node. split; [|simpl; lia]. constructor.
      unfold nextInterface. rewrite Hc. simpl. by rewrite Hbases.
    + destruct (IH ast b0) as (p & z & Hchain & Hlen).
      { intros Hb. by rewrite Hb in Hrun. }
      exists (node :: p), z. split; [|simpl; lia].
      econstructor; [|done]. unfold nextInterface. rewrite Hc. simpl.
      by rewrite Hbases.
  - exists [], node. split; [|simpl; lia]. constructor.
    unfold nextInterface. by rewrite Hc.
Qed.

Lemma squashInterface_stable ast node p z :
  chain (nextInterface ast) node p z ->
  ∀ n m, length p < n -> length p < m ->
         squashInterface n node ast = squashInterface m node ast.
Proof.
  induction 1 as [x Hx|x y p z Hx _ IH]; intros n m Hn Hm;
    destruct n as [|n]; [simpl in Hn; lia| |simpl in Hn; lia|];
    destruct m as [|m]; try (simpl in Hm; lia);
    simpl; unfold bindR, locateR; unfold nextInterface in Hx;
    destruct (context ast !! x) as [c|]; try done; simpl in Hx;
    destruct (getBaseContracts c) as [|b0 bases]; try done.
  simpl in Hx. injection Hx as ->.
  rewrite (IH n m) by (simpl in *; lia). done.
Qed.

(** Whenever [squashInterface] has an outcome at some depth of recursion, it
    has the same at the depth [callStack] the pass is modelled with. *)
Lemma squashInterface_callStack fuel ast node :
  squashInterface fuel node ast ≠ Err RangeError ->
  squashInterface (callStack ast) node ast = squashInterface fuel node ast.
Proof.
  intros Hrun. destruct (squashInterface_chain _ _ _ Hrun) as (p & z & Hchain & Hlen).
  apply (squashInterface_stable _ _ _ _ Hchain); [|done].
  eapply chain_length; [|done]. apply nextInterface_located.
Qed.

Lemma resolveFunctionName_chain fuel : ∀ ast node name,
  resolveFunctionName fuel node name ast ≠ Err RangeError ->
  ∃ p z, chain (nextResolution ast name) node p z ∧ length p < fuel.
Proof.
  induction fuel as [|fuel IH]; intros ast node name Hrun; [done|].
  simpl in Hrun. unfold bindR, locateR in Hrun.
  destruct (context ast !! node) as [c|] eqn:Hc.
  - destruct (filter (fun f => f_name f = name) (vFunctions c))
      as [|f matches] eqn:Hmatches.
    + rewrite bool_decide_eq_false_2 in Hrun by (simpl; lia).
      destruct (getBaseContracts c) as [|b0 bases] eqn:Hbases.
      * exists [], node. split; [|simpl; lia]. constructor.
        unfold nextResolution. rewrite Hc. simpl. by rewrite Hmatches, Hbases.
      * destruct (IH ast b0 name Hrun) as (p & z & Hchain & Hlen).
        exists (node :: p), z. split; [|simpl; lia].
        econstructor; [|done]. unfold nextResolution. rewrite Hc. simpl.
        by rewrite Hmatches, Hbases.
    + exists [], node. split; [|simpl; lia]. constructor.
      unfold nextResolution. rewrite Hc. simpl. by rewrite Hmatches.
  - exists [], node. split; [|simpl; lia]. constructor.
    unfold nextResolution. by rewrite Hc.
Qed.

Lemma resolveFunctionName_stable ast name node p z :
  chain (nextResolution ast name) node p z ->
  ∀ n m, length p < n -> length p < m ->
         resolveFunctionName n node name ast = resolveFunctionName m node name ast.
Proof.
  induction 1 as [x Hx|x y p z Hx _ IH]; intros n m Hn Hm;
    destruct n as [|n]; [simpl in Hn; lia| |simpl in Hn; lia|];
    destruct m as [|m]; try (simpl in Hm; lia);
    simpl; unfold bindR, locateR; unfold nextResolution in Hx;
    destruct (context ast !! x) as [c|]; try done; simpl in Hx;
    case_bool_decide; try done;
    destruct (filter _ (vFunctions c)); try done;
    destruct (getBaseContracts c) as [|b0 bases]; try done.
  simpl in Hx. injection Hx as ->.
  apply IH; simpl in *; lia.
Qed.

Lemma resolveFunctionName_callStack fuel ast node name :
  resolveFunctionName fuel node name ast ≠ Err RangeError ->
  resolveFunctionName (callStack ast) node name ast
  = resolveFunctionName fuel node name ast.
Proof.
  intros Hrun.
  destruct (resolveFunctionName_chain _ _ _ _ Hrun) as (p & z & Hchain & Hlen).
  apply (resolveFunctionName_stable _ _ _ _ _ Hchain); [|done].
  eapply chain_length; [|done]. apply nextResolution_located.
Qed.

(** In the sample hierarchies the derived contract, under the id 2, is not
    among its bases. *)
Lemma Derived_not_among_its_bases : 2 ∉ [1].
Proof. intros Hin. apply list_elem_of_singleton in Hin. discriminate. Qed.

(** ** What [map] leaves alone *)

Lemma frame_mono touched touched' ast ast' :
  (∀ k, k ∈ touched -> k ∈ touched') ->
  frame touched ast ast' -> frame touched' ast ast'.
Proof.
  intros Hsub (Hr & Hc & Hl). repeat split; [done| |done].
  intros k Hk. apply Hc. intros Hin. by apply Hk, Hsub.
Qed.

Lemma frame_mapLoop rounds : ∀ contracts,
  preserves (frame contracts) (mapLoop rounds contracts).
Proof.
  induction rounds as [|rounds IH]; intros contracts ast a ast' Hrun.
  - destruct contracts; [|discriminate]. injection Hrun as _ <-.
    apply frame_refl.
  - destruct contracts as [|c contracts].
    { injection Hrun as _ <-. apply frame_refl. }
    rewrite mapLoop_unfold in Hrun. case_bool_decide; [discriminate|].
    apply bind_Ok in Hrun as ([] & ast1 & Hvisit & Hrest).
    eapply frame_trans.
    + eapply frame_mono; [|exact (frame_forEach_visit _ _ _ _ Hvisit)].
      intros k Hk. unfold mostDerivedContracts in Hk.
      apply list_elem_of_filter in Hk. tauto.
    + eapply frame_mono; [|exact (IH _ _ _ _ Hrest)].
      intros k Hk. apply list_elem_of_filter in Hk. tauto.
Qed.

(** X1.
    When [map] returns, it has rewritten nothing but the contracts listed in
    the source units: the units are the same, every other entry of the
    store is unchanged, no contract is added or removed, and no contract,
    rewritten or not, has another linearization than before. *)
Theorem map_rewrites_only_the_contracts_of_the_units (ast ast' : AST) :
  map ast = Ok ast' ->
  roots ast' = roots ast
  ∧ (∀ k, k ∉ vContracts ast -> context ast' !! k = context ast !! k)
  ∧ (∀ k, linearizedBaseContracts <$> context ast' !! k
          = linearizedBaseContracts <$> context ast !! k)
  ∧ dom (context ast') = dom (context ast).
Proof.
  unfold map. destruct (mapLoop _ _ _) as [[[] ast1]|e] eqn:Hloop; [|done].
  intros [= <-]. destruct (frame_mapLoop _ _ _ _ _ Hloop) as (Hr & Hc & Hl).
  repeat split; try done.
  apply set_eq. intros k. rewrite !elem_of_dom.
  specialize (Hl k). unfold linearizationOf in Hl.
  destruct (context ast1 !! k), (context ast !! k); try done;
    split; intros [? ?]; done.
Qed.

Lemma map_rewrites_only_the_contracts_of_the_units_witness :
  roots Samples.flattened = roots Samples.hierarchy
  ∧ (∀ k, k ∉ vContracts Samples.hierarchy ->
          context Samples.flattened !! k = context Samples.hierarchy !! k)
  ∧ (∀ k, linearizedBaseContracts <$> context Samples.flattened !! k
          = linearizedBaseContracts <$> context Samples.hierarchy !! k)
  ∧ dom (context Samples.flattened) = dom (context Samples.hierarchy).
Proof.
  apply map_rewrites_only_the_contracts_of_the_units.
  vm_compute. reflexivity.
Defined.

Lemma filter_all {A} (P : A -> Prop) `{!∀ x, Decision (P x)} (l : list A) :
  (∀ x, x ∈ l -> P x) -> filter P l = l.
Proof.
  induction l as [|a l IH]; intros Hall; [done|].
  rewrite filter_cons_True by (apply Hall; left). f_equal.
  apply IH. intros x Hx. apply Hall. by right.
Qed.

Lemma visit_leaf node c ast :
  context ast !! node = Some c ->
  length (linearizedBaseContracts c) < 2 ->
  visit node ast = Ok (tt, ast).
Proof.
  intros Hc Hlen. unfold visitContractDefinition, bind.
  rewrite (locate_run _ _ _ Hc). by rewrite bool_decide_eq_true_2.
Qed.

Lemma forEach_visit_leaves l ast :
  (∀ k, k ∈ l -> ∃ c, context ast !! k = Some c
                       ∧ length (linearizedBaseContracts c) < 2) ->
  forEach visit l ast = Ok (tt, ast).
Proof.
  induction l as [|k l IH]; intros Hl; [done|].
  simpl. unfold bind. destruct (Hl k) as (c & Hc & Hlen); [left|].
  rewrite (visit_leaf _ _ _ Hc Hlen). apply IH.
  intros k' Hk'. apply Hl. by right.
Qed.

(** X3.
    Where every contract of the units is in the store and has at most
    itself in its linearization, [map] returns the store as it was: nothing
    is added, rewritten or numbered. *)
Theorem map_without_inheritance_is_identity (ast : AST) :
  (∀ k, k ∈ vContracts ast ->
        ∃ c, context ast !! k = Some c
             ∧ length (linearizedBaseContracts c) < 2) ->
  map ast = Ok ast.
Proof.
  intros Hleaves. unfold map.
  destruct (vContracts ast) as [|c0 contracts] eqn:Hcs; [done|].
  assert (mostDerivedContracts ast (c0 :: contracts) = c0 :: contracts) as Hmd.
  { unfold mostDerivedContracts. apply filter_all. intros d Hd.
    intros (o & Ho & Hbase)%Exists_exists.
    destruct (Hleaves o Ho) as (c & Hc & Hlen).
    unfold basesOf in Hbase. rewrite Hc in Hbase.
    unfold getBaseContracts in Hbase.
    destruct (linearizedBaseContracts c) as [|? [|? ?]];
      simpl in *; try lia; by apply elem_of_nil in Hbase. }
  change (length (c0 :: contracts)) with (S (length contracts)).
  rewrite mapLoop_unfold, Hmd. rewrite bool_decide_eq_false_2 by done.
  unfold bind. rewrite forEach_visit_leaves by exact Hleaves.
  rewrite (filter_none _ (c0 :: contracts)); [by destruct (length contracts)|].
  intros x Hx Hnot. done.
Qed.

Lemma map_without_inheritance_is_identity_witness :
  map (mkAST [[3]; []; [4]]
         (<[3 := mkContractDefinition "A" [3] [ChildOther "using"]]>
            (<[4 := mkContractDefinition "B" [] []]> ∅)) 10)
  = Ok (mkAST [[3]; []; [4]]
         (<[3 := mkContractDefinition "A" [3] [ChildOther "using"]]>
            (<[4 := mkContractDefinition "B" [] []]> ∅)) 10).
Proof.
  apply map_without_inheritance_is_identity.
  intros k Hk. change (k ∈ [3; 4]) in Hk.
  apply elem_of_cons in Hk as [->|Hk].
  - eexists. split; [reflexivity | simpl; lia].
  - apply list_elem_of_singleton in Hk as ->.
    eexists. split; [reflexivity | simpl; lia].
Defined.

(** ** The interface and the search along first bases *)

Lemma set_add_elem_of x s y : y ∈ set_add x s ↔ y ∈ s ∨ y = x.
Proof.
  unfold set_add. case_bool_decide as Hx.
  - split; [by left|]. intros [?| ->]; done.
  - rewrite elem_of_app, list_elem_of_singleton. done.
Qed.

Lemma set_add_NoDup x s : NoDup s -> NoDup (set_add x s).
Proof.
  intros Hs. unfold set_add. case_bool_decide as Hx; [done|].
  apply NoDup_app. split; [done|]. split; [|apply NoDup_singleton].
  intros y Hy ->%list_elem_of_singleton. done.
Qed.

Lemma add_all_elem_of l : ∀ s y, y ∈ add_all s l ↔ y ∈ s ∨ y ∈ l.
Proof.
  induction l as [|x l IH]; intros s y; simpl.
  - rewrite elem_of_nil. tauto.
  - unfold add_all in *. simpl. rewrite IH, set_add_elem_of, elem_of_cons. tauto.
Qed.

Lemma add_all_NoDup l : ∀ s, NoDup s -> NoDup (add_all s l).
Proof.
  induction l as [|x l IH]; intros s Hs; [done|].
  apply IH. by apply set_add_NoDup.
Qed.

Lemma add_all_set_add s t x :
  add_all s (set_add x t) = set_add x (add_all s t).
Proof.
  unfold set_add at 1. case_bool_decide as Hx.
  - unfold set_add. rewrite bool_decide_eq_true_2; [done|].
    apply add_all_elem_of. by right.
  - unfold add_all. by rewrite foldl_app.
Qed.

Lemma add_all_add_all l : ∀ s t,
  add_all s (add_all t l) = add_all (add_all s t) l.
Proof.
  induction l as [|x l IH]; intros s t; [done|].
  change (add_all t (x :: l)) with (add_all (set_add x t) l).
  rewrite IH, add_all_set_add. done.
Qed.

Lemma new_Set_app l1 l2 : new_Set (l1 ++ l2) = add_all (new_Set l1) (new_Set l2).
Proof.
  unfold new_Set. rewrite foldl_app.
  change (add_all (add_all [] l1) l2 = add_all (add_all [] l1) (add_all [] l2)).
  by rewrite add_all_add_all.
Qed.

Lemma elem_of_concat {A} (x : A) (ls : list (list A)) :
  x ∈ concat ls ↔ ∃ l, x ∈ l ∧ l ∈ ls.
Proof.
  induction ls as [|l0 ls IH]; simpl.
  - rewrite elem_of_nil. split; [done|]. intros (l & _ & Hl).
    by apply elem_of_nil in Hl.
  - rewrite elem_of_app, IH. split.
    + intros [Hx|(l & Hx & Hl)]; [exists l0; split; [done | left]|].
      exists l. split; [done | by right].
    + intros (l & Hx & Hl). apply elem_of_cons in Hl as [->|Hl]; [by left|].
      right. by exists l.
Qed.

(** X7.
    What [squashInterface] returns is the names of the externally visible
    functions, constructors left out, of the contracts along the first
    bases from the contract to the first one without a base, each name
    once, in the order they are first met. *)
Theorem squashInterface_is_the_interface_along_first_bases
    (fuel node : nat) (ast : AST) (names : list string) :
  squashInterface fuel node ast = Ok names ->
  ∃ p z,
    chain (nextInterface ast) node p z
    ∧ names = new_Set (concat (interfaceOf ast <$> p ++ [z]))
    ∧ NoDup names
    ∧ ∀ n, n ∈ names ↔
        ∃ k c f, k ∈ p ++ [z] ∧ context ast !! k = Some c
                 ∧ f ∈ vFunctions c ∧ f_name f = n
                 ∧ isExternallyVisible f = true ∧ f_isConstructor f = false.
Proof.
  intros Hrun.
  assert (∃ p z, chain (nextInterface ast) node p z
                 ∧ names = new_Set (concat (interfaceOf ast <$> p ++ [z])))
    as (p & z & Hchain & ->).
  { revert node names Hrun.
    induction fuel as [|fuel IH]; intros node names Hrun; [discriminate|].
    simpl in Hrun. unfold bindR, locateR in Hrun.
    destruct (context ast !! node) as [c|] eqn:Hc; [|discriminate].
    destruct (getBaseContracts c) as [|b0 bases] eqn:Hbases.
    - injection Hrun as <-. exists [], node. split.
      + constructor. unfold nextInterface. rewrite Hc. simpl. by rewrite Hbases.
      + simpl. unfold interfaceOf. rewrite Hc, app_nil_r. done.
    - destruct (squashInterface fuel b0 ast) as [inherited|] eqn:Hb0;
        [|discriminate].
      injection Hrun as <-.
      destruct (IH _ _ Hb0) as (p & z & Hchain & ->).
      exists (node :: p), z. split.
      + econstructor; [|done]. unfold nextInterface. rewrite Hc. simpl.
        by rewrite Hbases.
      + simpl. rewrite new_Set_app. unfold interfaceOf at 2. rewrite Hc. done. }
  exists p, z. split; [done|]. split; [done|]. split.
  - apply add_all_NoDup. constructor.
  - intros n. unfold new_Set. fold (add_all [] (concat (interfaceOf ast <$> p ++ [z]))).
    rewrite add_all_elem_of, elem_of_nil.
    split.
    + intros [[]|Hn]. apply elem_of_concat in Hn as (l & Hn & Hl).
      apply list_elem_of_fmap in Hl as (k & -> & Hk).
      unfold interfaceOf in Hn.
      destruct (context ast !! k) as [c|] eqn:Hc; [|by apply elem_of_nil in Hn].
      unfold ownInterface in Hn.
      apply list_elem_of_fmap in Hn as (f & -> & Hf).
      apply list_elem_of_filter in Hf as [Hvis Hf].
      apply andb_true_iff in Hvis as [Hvis Hnc].
      exists k, c, f. repeat split; try done. by destruct (f_isConstructor f).
    + intros (k & c & f & Hk & Hc & Hf & <- & Hvis & Hnc). right.
      apply elem_of_concat. exists (interfaceOf ast k). split.
      * unfold interfaceOf. rewrite Hc. unfold ownInterface.
        apply list_elem_of_fmap_2, list_elem_of_filter. split; [|done].
        by rewrite Hvis, Hnc.
      * by apply list_elem_of_fmap_2.
Qed.

Lemma squashInterface_is_the_interface_along_first_bases_witness :
  ∃ p z,
    chain (nextInterface Samples.hierarchy) 2 p z
    ∧ ["foo"] = new_Set (concat (interfaceOf Samples.hierarchy <$> p ++ [z]))
    ∧ NoDup ["foo"]
    ∧ ∀ n, n ∈ ["foo"] ↔
        ∃ k c f, k ∈ p ++ [z] ∧ context Samples.hierarchy !! k = Some c
                 ∧ f ∈ vFunctions c ∧ f_name f = n
                 ∧ isExternallyVisible f = true ∧ f_isConstructor f = false.
Proof.
  apply (squashInterface_is_the_interface_along_first_bases 3 2).
  vm_compute. reflexivity.
Defined.

Lemma nextInterface_step ast node c b0 bases :
  context ast !! node = Some c -> getBaseContracts c = b0 :: bases ->
  nextInterface ast node = Some b0.
Proof. intros Hc Hb. unfold nextInterface. rewrite Hc. simpl. by rewrite Hb. Qed.

(** X8.
    The function [resolveFunctionName] returns is the one function of the
    name in the first contract along the first bases that has one: every
    contract passed on the way has none. *)
Theorem resolveFunctionName_finds_the_nearest_along_first_bases
    (fuel node : nat) (functionName : string) (ast : AST)
    (f : FunctionDefinition) :
  resolveFunctionName fuel node functionName ast = Ok f ->
  ∃ p z c,
    path (nextInterface ast) node p z
    ∧ (∀ k, k ∈ p -> declaresNone ast functionName k)
    ∧ context ast !! z = Some c
    ∧ filter (fun g => f_name g = functionName) (vFunctions c) = [f].
Proof.
  revert node. induction fuel as [|fuel IH]; intros node Hrun; [discriminate|].
  simpl in Hrun. unfold bindR, locateR in Hrun.
  destruct (context ast !! node) as [c|] eqn:Hc; [|discriminate].
  case_bool_decide as Hlen; [discriminate|].
  destruct (filter _ (vFunctions c)) as [|g matches] eqn:Hmatches.
  - destruct (getBaseContracts c) as [|b0 bases] eqn:Hbases; [discriminate|].
    destruct (IH _ Hrun) as (p & z & cz & Hpath & Hnone & Hz & Hf).
    exists (node :: p), z, cz. split.
    { econstructor; [|done]. by eapply nextInterface_step. }
    split; [|done]. intros k [->|Hk]%elem_of_cons; [|by apply Hnone].
    by exists c.
  - injection Hrun as <-. exists [], node, c. split; [constructor|].
    split; [by intros k Hk%elem_of_nil|]. split; [done|].
    destruct matches; [done | simpl in Hlen; lia].
Qed.

Lemma resolveFunctionName_finds_the_nearest_along_first_bases_witness :
  ∃ p z c,
    path (nextInterface Samples.hierarchy) 2 p z
    ∧ (∀ k, k ∈ p -> declaresNone Samples.hierarchy "foo" k)
    ∧ context Samples.hierarchy !! z = Some c
    ∧ filter (fun g => f_name g = "foo") (vFunctions c)
      = [Samples.function 30 1 "foo" VisExternal].
Proof.
  apply (resolveFunctionName_finds_the_nearest_along_first_bases 3 2).
  vm_compute. reflexivity.
Defined.

(** X9.
    An error of [resolveFunctionName] tells where the search ended, after
    contracts that have no function of the name: [MultipleFunctions] names
    the contract with several functions of the name, [FailedToFind] a
    contract with none and without a base, a missing node ends it with a
    type error, and the overflow comes when the bound on the depth is
    used up. *)
Theorem resolveFunctionName_errors_name_where_the_search_ends
    (fuel node : nat) (functionName : string) (ast : AST) (e : error) :
  resolveFunctionName fuel node functionName ast = Err e ->
  ∃ p z,
    path (nextInterface ast) node p z
    ∧ (∀ k, k ∈ p -> declaresNone ast functionName k)
    ∧ resolutionError ast functionName fuel p z e.
Proof.
  revert node. induction fuel as [|fuel IH]; intros node Hrun.
  { injection Hrun as <-. exists [], node. split; [constructor|].
    split; [by intros k Hk%elem_of_nil | done]. }
  simpl in Hrun. unfold bindR, locateR in Hrun.
  destruct (context ast !! node) as [c|] eqn:Hc.
  2:{ injection Hrun as <-. exists [], node. split; [constructor|].
      split; [by intros k Hk%elem_of_nil | done]. }
  case_bool_decide as Hlen.
  { injection Hrun as <-. exists [], node. split; [constructor|].
    split; [by intros k Hk%elem_of_nil|]. simpl. eauto. }
  destruct (filter _ (vFunctions c)) as [|g matches] eqn:Hmatches; [|done].
  destruct (getBaseContracts c) as [|b0 bases] eqn:Hbases.
  { injection Hrun as <-. exists [], node. split; [constructor|].
    split; [by intros k Hk%elem_of_nil|]. simpl. eauto 10. }
  destruct (IH _ Hrun) as (p & z & Hpath & Hnone & He).
  exists (node :: p), z. split.
  { econstructor; [|done]. by eapply nextInterface_step. }
  split.
  - intros k [->|Hk]%elem_of_cons; [|by apply Hnone]. by exists c.
  - destruct e as [[]| | | | |]; simpl in *; try done. by f_equal.
Qed.

Lemma resolveFunctionName_errors_name_where_the_search_ends_witness :
  ∃ p z,
    path (nextInterface Samples.hierarchy) 2 p z
    ∧ (∀ k, k ∈ p -> declaresNone Samples.hierarchy "bar" k)
    ∧ resolutionError Samples.hierarchy "bar" 3 p z
        (TranspileFailedError (FailedToFind "bar" 1)).
Proof.
  apply (resolveFunctionName_errors_name_where_the_search_ends 3 2).
  vm_compute. reflexivity.
Defined.

(** ** The outcomes of the delegating functions and of the constructor linearizer *)

Lemma returns_ret {A} (a : A) : returns (ret a).
Proof. intros ast. by eexists _, _. Qed.

Lemma returns_reserveId : returns reserveId.
Proof. intros ast. by eexists _, _. Qed.

Lemma returns_bind {A B} (m : M A) (k : A -> M B) :
  returns m -> (∀ a, returns (k a)) -> returns (bind m k).
Proof.
  intros Hm Hk ast. destruct (Hm ast) as (a & ast1 & Hrun & Hctx).
  destruct (Hk a ast1) as (b & ast2 & Hrun2 & Hctx2).
  exists b, ast2. unfold bind. rewrite Hrun. split; [done | congruence].
Qed.

Lemma returns_mapM {A B} (f : A -> M B) l :
  (∀ x, returns (f x)) -> returns (mapM f l).
Proof.
  intros Hf. induction l as [|x l IH]; simpl.
  - apply returns_ret.
  - apply returns_bind; [apply Hf | intros y].
    apply returns_bind; [apply IH | intros ys; apply returns_ret].
Qed.

Ltac returns_walk :=
  repeat first
    [ apply returns_ret
    | apply returns_reserveId
    | apply returns_bind; [|intros ?]
    | apply returns_mapM; intros ?
    | match goal with
      | |- returns (match ?x with _ => _ end) => destruct x
      end
    | match goal with
      | |- returns ?m => let h := head_of m in progress unfold h
      end ].

Lemma returns_cloneParameterList p : returns (cloneParameterList p).
Proof. returns_walk. Qed.

Lemma returns_cloneFunctionDefinition f : returns (cloneFunctionDefinition f).
Proof. returns_walk. Qed.

Lemma returns_cloneModifierDefinition m : returns (cloneModifierDefinition m).
Proof. returns_walk. Qed.

Lemma returns_createFunctionFromConstructor f id node :
  returns (createFunctionFromConstructor f id node).
Proof. returns_walk. Qed.

Lemma returns_generateFunctionCall f args : returns (generateFunctionCall f args).
Proof. returns_walk. Qed.

Lemma createDelegatingFunction_returns
    (funcToCopy delegate : FunctionDefinition) (scope : nat) (ast : AST) :
  f_kind funcToCopy = KindFunction ->
  f_isConstructor funcToCopy = false ->
  ∃ d ast', createDelegatingFunction funcToCopy delegate scope ast = Ok (d, ast').
Proof.
  intros Hkind Hflag.
  destruct (createDelegatingFunction funcToCopy delegate scope ast)
    as [[d ast']|e] eqn:Hrun; [by eexists _, _|].
  exfalso. revert Hrun. unfold createDelegatingFunction.
  intros [Hrun|(ps & ast1 & _ & Hrun)]%bind_Err.
  { destruct (returns_cloneParameterList (f_parameters funcToCopy) ast)
      as (? & ? & Heq & _). congruence. }
  apply bind_Err in Hrun as [Hrun|(rs & ast2 & _ & Hrun)].
  { destruct (returns_cloneParameterList (f_returnParameters funcToCopy) ast1)
      as (? & ? & Heq & _). congruence. }
  apply bind_Err in Hrun as [Hrun|([] & ast3 & _ & Hrun)].
  { unfold assert in Hrun. by rewrite bool_decide_eq_true_2 in Hrun. }
  rewrite Hflag in Hrun.
  assert (returns
    (let* newId := reserveId in
     let* modifiers := mapM cloneModifierInvocation (f_modifiers funcToCopy) in
     let* _ := reserveId in
     let* _ := reserveId in
     let* _ := reserveId in
     let* _ := reserveId in
     let* arguments := mapM createIdentifier (pl_parameters ps) in
     ret (mkFunctionDefinition newId scope (f_kind funcToCopy)
            (f_name funcToCopy) (f_virtual funcToCopy)
            (f_visibility funcToCopy) (f_stateMutability funcToCopy)
            false ps rs modifiers
            (Some [Return (pl_id rs)
                     (Some (FunctionCall
                              (Identifier (f_name delegate) (f_id delegate))
                              arguments))])))) as Hret
    by returns_walk.
  destruct (Hret ast3) as (? & ? & Heq & _). congruence.
Qed.

(** X10.
    [createDelegatingFunction] returns, for a function of kind function
    that is not marked as constructor, the delegating function and touches
    no contract; for another kind it fails its assertion with the name of
    the function, and for one marked as constructor it is not supported. *)
Theorem createDelegatingFunction_outcome
    (funcToCopy delegate : FunctionDefinition) (scope : nat) (ast : AST) :
  match createDelegatingFunction funcToCopy delegate scope ast with
  | Ok (d, ast') =>
      f_kind funcToCopy = KindFunction
      ∧ f_isConstructor funcToCopy = false
      ∧ delegatesTo scope funcToCopy delegate d
      ∧ context ast' = context ast
  | Err e =>
      (f_kind funcToCopy ≠ KindFunction
       ∧ e = AssertionError (CopyNonMemberFunction (f_name funcToCopy)))
      ∨ (f_kind funcToCopy = KindFunction
         ∧ f_isConstructor funcToCopy = true
         ∧ e = NotSupportedYetError)
  end.
Proof.
  destruct (decide (f_kind funcToCopy = KindFunction)) as [Hkind|Hkind].
  - destruct (f_isConstructor funcToCopy) eqn:Hflag.
    + rewrite createDelegatingFunction_flagged_function by done. by right.
    + destruct (createDelegatingFunction_returns funcToCopy delegate scope ast
                  Hkind Hflag) as (d & ast' & Hrun).
      rewrite Hrun. apply createDelegatingFunction_Ok in Hrun as [Hd Hctx]. done.
  - rewrite createDelegatingFunction_not_a_function by done. by left.
Qed.

Lemma collectConstructors_run ast ids :
  (∀ id, id ∈ ids -> is_Some (context ast !! id)) ->
  ∀ args constructors,
    foldM collectConstructor ids (args, constructors) ast
    = Ok ((foldl (fun args id =>
                    match context ast !! id with
                    | Some contract =>
                        getArguments contract (vConstructor contract) args ast
                    | None => args
                    end) args ids,
           foldl (recordConstructor ast) constructors ids), ast).
Proof.
  induction ids as [|id ids IH]; intros Hall args constructors; [done|].
  destruct (Hall id) as [x Hx]; [left|].
  simpl. unfold bind at 1. unfold collectConstructor at 1.
  unfold bind at 1. rewrite (locate_run _ _ _ Hx).
  unfold bind at 1, gets at 1, ret at 1.
  rewrite IH by (intros id' Hin; apply Hall; by right).
  rewrite Hx. do 4 f_equal.
  unfold recordConstructor, constructorOf. by rewrite Hx.
Qed.

Lemma callConstructor_outcome node args constructors statements id ast x :
  context ast !! node = Some x ->
  match callConstructor node args constructors statements id ast with
  | Ok (_, ast') =>
      is_Some (context ast' !! node)
      ∧ (constructors !! id = None -> ast' = ast)
      ∧ ∀ f, constructors !! id = Some f ->
             length (pl_parameters (f_parameters f))
             = length (default [] (args !! id))
  | Err e =>
      e = AssertionError WrongNumberOfArguments
      ∧ ∃ f, constructors !! id = Some f
             ∧ length (pl_parameters (f_parameters f))
               ≠ length (default [] (args !! id))
  end.
Proof.
  intros Hx. unfold callConstructor.
  destruct (constructors !! id) as [f|] eqn:Hf.
  2:{ simpl. split; [by rewrite Hx|]. done. }
  unfold bind at 1.
  destruct (returns_createFunctionFromConstructor f id node ast)
    as (newFunc & ast1 & -> & Hctx1).
  unfold bind at 1. unfold appendChild, modifyChildren. rewrite Hctx1, Hx.
  unfold bind at 1. unfold assert. case_bool_decide as Hlen.
  - unfold ret at 1. unfold bind at 1. unfold reserveId at 1.
    unfold bind at 1.
    match goal with
    | |- context [generateFunctionCall ?a ?b ?s] =>
        destruct (returns_generateFunctionCall a b s) as (call & ast2 & -> & Hctx2)
    end.
    unfold ret. split.
    + rewrite Hctx2. simpl. rewrite lookup_insert_eq. done.
    + split; [done|]. by intros ? [= <-].
  - unfold throw. split; [done|]. eauto.
Qed.

Lemma callConstructors_outcome node args constructors ids :
  ∀ statements ast x,
  context ast !! node = Some x ->
  match foldM (callConstructor node args constructors) ids statements ast with
  | Ok (_, ast') =>
      is_Some (context ast' !! node)
      ∧ ((∀ id, id ∈ ids -> constructors !! id = None) -> ast' = ast)
      ∧ ∀ id f, id ∈ ids -> constructors !! id = Some f ->
                length (pl_parameters (f_parameters f))
                = length (default [] (args !! id))
  | Err e =>
      e = AssertionError WrongNumberOfArguments
      ∧ ∃ id f, id ∈ ids ∧ constructors !! id = Some f
                ∧ length (pl_parameters (f_parameters f))
                  ≠ length (default [] (args !! id))
  end.
Proof.
  induction ids as [|id ids IH]; intros statements ast x Hx.
  - simpl. split; [by rewrite Hx|]. split; [done|].
    by intros id f Hid%elem_of_nil.
  - simpl. unfold bind.
    pose proof (callConstructor_outcome node args constructors statements id
                  ast x Hx) as Hone.
    destruct (callConstructor _ _ _ _ _ _) as [[statements1 ast1]|e].
    + destruct Hone as ([x1 Hx1] & Hsame & Hlen).
      specialize (IH statements1 ast1 x1 Hx1).
      destruct (foldM _ _ _ _) as [[statements2 ast2]|e].
      * destruct IH as (Hnode & Hsame' & Hlens). split; [done|]. split.
        { intros Hnone. rewrite Hsame'.
          - apply Hsame, Hnone. left.
          - intros id' Hin. apply Hnone. by right. }
        intros id' f [->|Hin]%elem_of_cons Hf; [by apply Hlen|].
        by eapply Hlens.
      * destruct IH as (-> & id' & f & Hin & Hf & Hne). split; [done|].
        exists id', f. split; [by right | done].
    + destruct Hone as (-> & f & Hf & Hne). split; [done|].
      exists id, f. split; [left | done].
Qed.

Lemma returns_createDefaultConstructor node :
  returns (createDefaultConstructor node).
Proof. returns_walk. Qed.

Lemma returns_generateBody statements f : returns (generateBody statements f).
Proof. returns_walk. Qed.

Lemma returns_createBlock statements : returns (createBlock statements).
Proof. returns_walk. Qed.

(** Writing the calls into the constructor never fails. *)
Lemma writeCalls_returns node statements ast x :
  context ast !! node = Some x ->
  ∃ ast',
    (let* c' := locate node in
     match vConstructor c' with
     | Some selfConstructor =>
         match f_body selfConstructor with
         | None =>
             let* withBody := generateBody statements selfConstructor in
             modifyChildren node (updateConstructor (fun _ => withBody))
         | Some body =>
             let* cloned := cloneBlock body in
             let* newBody := createBlock (statements ++ cloned) in
             modifyChildren node (updateConstructor (setBody newBody))
         end
     | None =>
         let* selfConstructor := createDefaultConstructor node in
         let* _ := generateBody statements selfConstructor in
         ret tt
     end) ast = Ok (tt, ast').
Proof.
  intros Hx. unfold bind at 1. rewrite (locate_run _ _ _ Hx).
  destruct (vConstructor x) as [self|].
  - destruct (f_body self) as [body|].
    + unfold cloneBlock, bind at 1, ret at 1. unfold bind at 1.
      destruct (returns_createBlock (statements ++ body) ast)
        as (newBody & ast1 & -> & Hctx).
      unfold modifyChildren. rewrite Hctx, Hx. by eexists.
    + unfold bind at 1.
      destruct (returns_generateBody statements self ast)
        as (withBody & ast1 & -> & Hctx).
      unfold modifyChildren. rewrite Hctx, Hx. by eexists.
  - unfold bind at 1.
    destruct (returns_createDefaultConstructor node ast)
      as (dflt & ast1 & -> & Hctx).
    unfold bind at 1.
    destruct (returns_generateBody statements dflt ast1)
      as (withBody & ast2 & -> & Hctx2).
    by eexists.
Qed.

Lemma solveConstructorInheritance_outcome
    (node : nat) (c : ContractDefinition) (ast : AST) :
  context ast !! node = Some c ->
  (∀ id, id ∈ linearizedBaseContracts c -> is_Some (context ast !! id)) ->
  match solveConstructorInheritance node ast with
  | Ok _ =>
      Forall (arityMatches ast (collectedArguments ast c)) (getBaseContracts c)
  | Err e =>
      e = AssertionError WrongNumberOfArguments
      ∧ Exists (fun id => ¬ arityMatches ast (collectedArguments ast c) id)
               (getBaseContracts c)
  end.
Proof.
  intros Hc Hall. unfold solveConstructorInheritance.
  unfold bind at 1. rewrite (locate_run _ _ _ Hc).
  unfold bind at 1. unfold collectConstructors.
  rewrite collectConstructors_run by done.
  fold (collectedArguments ast c).
  set (args := collectedArguments ast c).
  set (constructors := foldl (recordConstructor ast) ∅ (linearizedBaseContracts c)).
  unfold bind at 1. unfold callConstructors.
  pose proof (callConstructors_outcome node args constructors
                (reverse (drop 1 (linearizedBaseContracts c))) [] ast c Hc)
    as Hcalls.
  assert (∀ id f, id ∈ getBaseContracts c ->
                  constructors !! id = Some f ↔ constructorOf ast id = Some f)
    as Hctor.
  { intros id f Hid. unfold constructors. rewrite recordConstructor_lookup.
    apply elem_of_drop_1 in Hid. tauto. }
  destruct (foldM _ _ _ _) as [[statements ast2]|e].
  - destruct Hcalls as ([x2 Hx2] & _ & Hlens).
    assert (Forall (arityMatches ast args) (getBaseContracts c)) as Hok.
    { apply Forall_forall. intros id Hid f Hf.
      apply (Hlens id f).
      - rewrite elem_of_reverse. exact Hid.
      - by apply Hctor. }
    case_bool_decide; [|done].
    destruct (writeCalls_returns node statements ast2 x2 Hx2) as [ast' ->].
    done.
  - destruct Hcalls as (-> & id & f & Hid & Hf & Hne). split; [done|].
    rewrite elem_of_reverse in Hid.
    apply Exists_exists. exists id. split; [done|].
    intros Hmatch. apply Hne, Hmatch. by apply Hctor.
Qed.

(** X19.
    On a contract whose linearization is in the store,
    [solveConstructorInheritance] returns exactly when, for every base that
    has a constructor, the arguments collected for it are as many as the
    parameters of the constructor; where one base has another number, the
    error is the assertion on the number of arguments. *)
Theorem solveConstructorInheritance_checks_the_number_of_arguments
    (node : nat) (c : ContractDefinition) (ast : AST) :
  context ast !! node = Some c ->
  (∀ id, id ∈ linearizedBaseContracts c -> is_Some (context ast !! id)) ->
  ((∃ ast', solveConstructorInheritance node ast = Ok (tt, ast'))
   ↔ Forall (arityMatches ast (collectedArguments ast c)) (getBaseContracts c))
  ∧ (Exists (fun id => ¬ arityMatches ast (collectedArguments ast c) id)
            (getBaseContracts c) ->
     solveConstructorInheritance node ast
     = Err (AssertionError WrongNumberOfArguments)).
Proof.
  intros Hc Hall.
  pose proof (solveConstructorInheritance_outcome node c ast Hc Hall) as Hout.
  destruct (solveConstructorInheritance node ast) as [[[] ast']|e].
  - split; [split; [done | by eexists]|].
    intros (id & Hid & Hno)%Exists_exists. exfalso.
    rewrite Forall_forall in Hout. by apply Hno, Hout.
  - destruct Hout as [-> Hno]. split; [|done]. split; [by intros [? ?]|].
    intros Hyes. exfalso. apply Exists_exists in Hno as (id & Hid & Hno).
    rewrite Forall_forall in Hyes. by apply Hno, Hyes.
Qed.

Lemma solveConstructorInheritance_checks_the_number_of_arguments_witness :
  solveConstructorInheritance 2 Samples.unsupplied
  = Err (AssertionError WrongNumberOfArguments).
Proof.
  destruct (solveConstructorInheritance_checks_the_number_of_arguments
              2 Samples.Derived Samples.unsupplied eq_refl) as [_ Hfails].
  - intros id Hid. change (id ∈ [2; 1]) in Hid.
    apply elem_of_cons in Hid as [->|Hid]; [by eexists|].
    apply list_elem_of_singleton in Hid as ->. by eexists.
  - apply Hfails. apply Exists_cons_hd. intros Hmatch.
    specialize (Hmatch _ eq_refl). vm_compute in Hmatch. discriminate.
Defined.

(** X20.
    Where no base of the contract has a constructor,
    [solveConstructorInheritance] changes nothing: no function is added, no
    constructor is created and no id is taken. *)
Theorem solveConstructorInheritance_without_base_constructors
    (node : nat) (c : ContractDefinition) (ast : AST) :
  context ast !! node = Some c ->
  (∀ id, id ∈ linearizedBaseContracts c -> is_Some (context ast !! id)) ->
  (∀ id, id ∈ getBaseContracts c -> constructorOf ast id = None) ->
  solveConstructorInheritance node ast = Ok (tt, ast).
Proof.
  intros Hc Hall Hnone. unfold solveConstructorInheritance.
  unfold bind at 1. rewrite (locate_run _ _ _ Hc).
  unfold bind at 1. unfold collectConstructors.
  rewrite collectConstructors_run by done.
  set (args := foldl _ ∅ (linearizedBaseContracts c)).
  set (constructors := foldl (recordConstructor ast) ∅ (linearizedBaseContracts c)).
  unfold bind at 1. unfold callConstructors.
  assert (∀ ids statements,
            (∀ id, id ∈ ids -> constructors !! id = None) ->
            foldM (callConstructor node args constructors) ids statements ast
            = Ok (statements, ast)) as Hfold.
  { induction ids as [|id ids IH]; intros statements Hids; [done|].
    simpl. unfold bind. unfold callConstructor at 1.
    rewrite Hids by left. unfold ret at 1. apply IH.
    intros id' Hin. apply Hids. by right. }
  rewrite Hfold; [done|].
  intros id Hid. rewrite elem_of_reverse in Hid.
  destruct (constructors !! id) as [f|] eqn:Hf; [|done].
  apply recordConstructor_lookup in Hf as [_ Hf].
  by rewrite Hnone in Hf.
Qed.

Lemma solveConstructorInheritance_without_base_constructors_witness :
  solveConstructorInheritance 2 Samples.plain = Ok (tt, Samples.plain).
Proof.
  apply (solveConstructorInheritance_without_base_constructors
           2 Samples.Derived Samples.plain).
  - reflexivity.
  - intros id Hid. change (id ∈ [2; 1]) in Hid.
    apply elem_of_cons in Hid as [->|Hid]; [by eexists|].
    apply list_elem_of_singleton in Hid as ->. by eexists.
  - intros id Hid. change (id ∈ [1]) in Hid.
    apply list_elem_of_singleton in Hid as ->. reflexivity.
Defined.

(** ** The id counter *)

Lemma grows_refl ast : grows ast ast.
Proof. unfold grows. lia. Qed.

Lemma grows_trans a b c : grows a b -> grows b c -> grows a c.
Proof. unfold grows. lia. Qed.

Lemma grows_reserveId : preserves grows reserveId.
Proof. intros ast a ast' [= _ <-]. unfold grows. simpl. lia. Qed.

Lemma grows_modifyChildren node g : preserves grows (modifyChildren node g).
Proof.
  intros ast a ast'. unfold modifyChildren.
  destruct (context ast !! node); [|discriminate].
  intros [= _ <-]. unfold grows. simpl. lia.
Qed.

Ltac grows_walk :=
  preserves_walk grows_refl grows_trans
    ltac:(first [ apply grows_reserveId | apply grows_modifyChildren ]).

Lemma grows_cloneFunctionDefinition f : preserves grows (cloneFunctionDefinition f).
Proof. grows_walk. Qed.

Lemma grows_cloneModifierDefinition m : preserves grows (cloneModifierDefinition m).
Proof. grows_walk. Qed.

Lemma grows_solveConstructorInheritance node :
  preserves grows (solveConstructorInheritance node).
Proof. grows_walk. Qed.

Lemma grows_addPrivateSuperFunctions node idRemapping :
  preserves grows (addPrivateSuperFunctions node idRemapping).
Proof. grows_walk. Qed.

Lemma grows_addNonoverridenPublicFunctions node idRemapping :
  preserves grows (addNonoverridenPublicFunctions node idRemapping).
Proof. grows_walk. Qed.

Lemma grows_addStorageVariables node idRemapping :
  preserves grows (addStorageVariables node idRemapping).
Proof. grows_walk. Qed.

Lemma grows_addNonOverridenModifiers node idRemapping :
  preserves grows (addNonOverridenModifiers node idRemapping).
Proof. grows_walk. Qed.

(** ** The arguments of the base constructors *)

Lemma invocationArguments_other ast k modifiers :
  ∀ args, Forall (fun m => ¬ invokes ast k m) modifiers ->
          invocationArguments ast args modifiers !! k = args !! k.
Proof.
  induction modifiers as [|m modifiers IH]; intros args Hall; [done|].
  apply Forall_cons in Hall as [Hm Hall]. simpl.
  unfold invocationArguments in *. simpl. rewrite IH by done.
  destruct (isContractDefinition ast _) eqn:Hcontract; [|done].
  apply lookup_insert_ne. intros Heq. apply Hm. split; [done|]. by rewrite <- Heq.
Qed.

Lemma invocationArguments_last ast k before inv after args :
  invokes ast k inv ->
  Forall (fun m => ¬ invokes ast k m) after ->
  invocationArguments ast args (before ++ inv :: after) !! k
  = Some (mi_arguments inv).
Proof.
  intros [Hname Hcontract] Hafter. unfold invocationArguments.
  rewrite foldl_app. simpl.
  fold (invocationArguments ast args before).
  rewrite Hname, Hcontract.
  match goal with
  | |- foldl ?f ?a after !! k = _ =>
      change (invocationArguments ast a after !! k = Some (mi_arguments inv))
  end.
  rewrite invocationArguments_other by done. apply lookup_insert_eq.
Qed.

Lemma specifierArguments_other args specifier k :
  ¬ specifies k specifier ->
  specifierArguments args specifier !! k = args !! k.
Proof.
  intros Hk. unfold specifierArguments, specifies in *.
  destruct (args !! _) as [argList|].
  - case_bool_decide; [|done]. apply lookup_insert_ne. done.
  - apply lookup_insert_ne. done.
Qed.

Lemma specifiers_other specs k : ∀ args,
  Forall (fun s => ¬ specifies k s) specs ->
  foldl specifierArguments args specs !! k = args !! k.
Proof.
  induction specs as [|s specs IH]; intros args Hall; [done|].
  apply Forall_cons in Hall as [Hs Hall]. simpl.
  rewrite IH by done. by apply specifierArguments_other.
Qed.

Lemma specifiers_not_longer specs k a : ∀ args,
  args !! k = Some a ->
  Forall (fun s => specifies k s -> length (is_arguments s) ≤ length a) specs ->
  foldl specifierArguments args specs !! k = Some a.
Proof.
  induction specs as [|s specs IH]; intros args Ha Hall; [done|].
  apply Forall_cons in Hall as [Hs Hall]. simpl. apply IH; [|done].
  destruct (decide (nn_referencedDeclaration (is_baseType s) = k)) as [Hk|Hk].
  - unfold specifierArguments. unfold specifies in Hk. rewrite Hk, Ha.
    rewrite bool_decide_eq_false_2; [done|]. specialize (Hs Hk). lia.
  - by rewrite specifierArguments_other.
Qed.

Lemma specifiers_keep specs k : ∀ args,
  is_Some (args !! k) -> is_Some (foldl specifierArguments args specs !! k).
Proof.
  induction specs as [|s specs IH]; intros args Ha; [done|].
  simpl. apply IH. unfold specifierArguments.
  destruct (args !! nn_referencedDeclaration (is_baseType s)); [case_bool_decide|];
    try done; by apply lookup_insert_is_Some'; right.
Qed.

Lemma invocationArguments_keep ast modifiers k : ∀ args,
  is_Some (args !! k) -> is_Some (invocationArguments ast args modifiers !! k).
Proof.
  induction modifiers as [|m modifiers IH]; intros args Ha; [done|].
  unfold invocationArguments in *. simpl. apply IH.
  destruct (isContractDefinition ast _); [|done].
  by apply lookup_insert_is_Some'; right.
Qed.

(** X18.
    For a contract with a constructor, [getArguments] leaves the entry of a
    contract that no invocation and no specifier names; the arguments of
    the last invocation naming a contract are its entry unless a specifier
    of that contract has strictly more arguments; and no entry is ever
    removed. *)
Theorem getArguments_invocations_then_longer_specifiers
    (contract : ContractDefinition) (constructorFunc : FunctionDefinition)
    (args : gmap nat (list Expression)) (ast : AST) (k : nat) :
  let result := getArguments contract (Some constructorFunc) args ast in
  (Forall (fun m => ¬ invokes ast k m) (f_modifiers constructorFunc) ->
   Forall (fun s => ¬ specifies k s) (vInheritanceSpecifiers contract) ->
   result !! k = args !! k)
  ∧ (∀ before inv after,
       f_modifiers constructorFunc = before ++ inv :: after ->
       invokes ast k inv ->
       Forall (fun m => ¬ invokes ast k m) after ->
       Forall (fun s => specifies k s ->
                        length (is_arguments s) ≤ length (mi_arguments inv))
              (vInheritanceSpecifiers contract) ->
       result !! k = Some (mi_arguments inv))
  ∧ (is_Some (args !! k) -> is_Some (result !! k)).
Proof.
  intros result. subst result. unfold getArguments.
  fold (invocationArguments ast args (f_modifiers constructorFunc)).
  repeat split.
  - intros Hmods Hspecs. rewrite specifiers_other by done.
    by apply invocationArguments_other.
  - intros before inv after Hmodifiers Hinv Hafter Hspecs.
    apply specifiers_not_longer; [|done].
    rewrite Hmodifiers. by apply invocationArguments_last.
  - intros Ha. by apply specifiers_keep, invocationArguments_keep.
Qed.

Lemma getArguments_invocations_then_longer_specifiers_witness :
  getArguments Samples.DerivedTwice (Some Samples.constructorNamingBase) ∅
    Samples.hierarchy !! 1
  = Some [Identifier "a" 7].
Proof.
  pose proof (getArguments_invocations_then_longer_specifiers
                Samples.DerivedTwice Samples.constructorNamingBase ∅
                Samples.hierarchy 1) as (_ & Hinvoked & _).
  apply (Hinvoked [] (mkModifierInvocation (NameIdentifier "Base" 1)
                        [Identifier "a" 7]) []).
  - reflexivity.
  - split; [reflexivity | vm_compute; reflexivity].
  - constructor.
  - repeat constructor.
Defined.

(** ** The private copies of the base functions *)

Lemma mapM_run {A B} (f : A -> M B) (P : A -> B -> Prop) l :
  (∀ x, returns (f x)) ->
  (∀ x ast y ast', f x ast = Ok (y, ast') -> P x y) ->
  ∀ ast, ∃ ys ast', mapM f l ast = Ok (ys, ast')
                    ∧ context ast' = context ast ∧ Forall2 P l ys.
Proof.
  intros Hret HP ast.
  destruct (returns_mapM f l Hret ast) as (ys & ast' & Hrun & Hctx).
  exists ys, ast'. split; [done|]. split; [done|].
  clear Hctx. revert ast ys ast' Hrun.
  induction l as [|x l IH]; intros ast ys ast' Hrun; simpl in Hrun.
  - injection Hrun as <- _. constructor.
  - apply bind_Ok in Hrun as (y & ast1 & Hx & Hrun).
    apply bind_Ok in Hrun as (ys' & ast2 & Hl & Hrun).
    injection Hrun as <- _. constructor; [by eapply HP | by eapply IH].
Qed.

Lemma cloneFunctionDefinition_copyOf f ast cl ast' :
  cloneFunctionDefinition f ast = Ok (cl, ast') ->
  copyOf f cl ∧ f_name cl = f_name f.
Proof.
  intros Hrun. unfold cloneFunctionDefinition in Hrun.
  apply bind_Ok in Hrun as (i & ast1 & _ & Hrun).
  apply bind_Ok in Hrun as (ps & ast2 & Hps & Hrun).
  apply bind_Ok in Hrun as (rs & ast3 & Hrs & Hrun).
  apply bind_Ok in Hrun as (ms & ast4 & _ & Hrun).
  apply bind_Ok in Hrun as (b & ast5 & Hb & Hrun).
  injection Hrun as <- _.
  apply cloneParameterList_shape in Hps, Hrs.
  unfold copyOf. simpl. repeat split; try done.
  destruct (f_body f); [|by injection Hb as <- _].
  unfold cloneBlock in Hb. by injection Hb as <- _.
Qed.

Lemma clonePrivateSuperFunctions_run node depth base b ast :
  context ast !! base = Some b ->
  ∃ clones ast',
    clonePrivateSuperFunctions node depth base ast = Ok (clones, ast')
    ∧ context ast' = context ast
    ∧ Forall2 (fun func p => p.1 = func
                             ∧ privateCopyOf node depth func p.2
                             ∧ copyOf func p.2)
              (filter (fun func => f_isConstructor func = false) (vFunctions b))
              clones.
Proof.
  intros Hb. unfold clonePrivateSuperFunctions, bind at 1.
  rewrite (locate_run _ _ _ Hb).
  apply mapM_run.
  - intros func. apply returns_bind; [apply returns_cloneFunctionDefinition|].
    intros cl. apply returns_ret.
  - intros func a p a' Hstep.
    apply bind_Ok in Hstep as (cl & a1 & Hcl & Hstep).
    injection Hstep as <- _.
    apply cloneFunctionDefinition_copyOf in Hcl as [Hcopy Hname].
    split; [done|]. split.
    + unfold privateCopyOf. simpl. by rewrite Hname.
    + unfold copyOf in *. simpl. done.
Qed.

Lemma inlineBases_run node :
  ∀ (indexed : list (nat * nat)) (ibs : list (nat * ContractDefinition))
    (idRemapping : gmap nat FunctionDefinition) ast c,
  context ast !! node = Some c ->
  Forall2 (fun i ib => i.1 = ib.1 ∧ i.2 ≠ node
                       ∧ context ast !! i.2 = Some ib.2) indexed ibs ->
  ∃ clones ast',
    foldM (inlineBase node) indexed idRemapping ast
    = Ok (record idRemapping clones, ast')
    ∧ context ast'
      = <[node := setChildren c (c_children c ++ (ChildFunction <$> clones.*2))]>
          (context ast)
    ∧ Forall2 (fun df p => p.1 = df.2
                           ∧ privateCopyOf node df.1 df.2 p.2
                           ∧ copyOf df.2 p.2)
              (superFunctionsOf ibs) clones.
Proof.
  induction indexed as [|[depth base] indexed IH];
    intros ibs0 idRemapping ast c Hc Hall;
    inversion Hall as [|? [depth' b] ? ibs (Hd & Hne & Hb) Hrest]; subst.
  - exists [], ast. split; [done|]. split; [|constructor].
    simpl. rewrite app_nil_r, insert_id; [done|]. rewrite Hc. by destruct c.
  - simpl in Hd, Hne, Hb. subst depth'.
    destruct (clonePrivateSuperFunctions_run node depth base b ast Hb)
      as (clones & ast1 & Hclones & Hctx1 & Hcopies).
    simpl. unfold bind at 1. unfold inlineBase at 1. unfold bind at 1.
    rewrite Hclones. unfold bind at 1.
    rewrite (appendAll_run node _ ast1 c) by (by rewrite Hctx1).
    unfold ret at 1.
    set (c1 := setChildren c (c_children c ++ (ChildFunction <$> clones.*2))).
    set (ast2 := mkAST (roots ast1) (<[node := c1]> (context ast1)) (nextId ast1)).
    edestruct (IH ibs (record idRemapping clones) ast2 c1)
      as (clones' & ast' & Hrun & Hctx' & Hcopies').
    { unfold ast2. simpl. apply lookup_insert_eq. }
    { eapply Forall2_impl; [exact Hrest|]. simpl.
      intros [d i] [d' x] (? & Hi & Hx). simpl in *.
      repeat split; try done. rewrite Hctx1, lookup_insert_ne; done. }
    exists (clones ++ clones'), ast'. split.
    { transitivity (foldM (inlineBase node) indexed
                            (record idRemapping clones) ast2); [reflexivity|].
      rewrite Hrun. unfold record. by rewrite foldl_app. }
    split.
    { rewrite Hctx'. unfold ast2. simpl. rewrite Hctx1, insert_insert_eq.
      unfold c1, setChildren. simpl.
      by rewrite fmap_app, fmap_app, app_assoc. }
    unfold superFunctionsOf. rewrite fmap_cons. simpl.
    apply Forall2_app; [|exact Hcopies'].
    apply Forall2_fmap_l. eapply Forall2_impl; [exact Hcopies|]. simpl. done.
Qed.

Lemma located_indexed ast node ids bs :
  located ast ids bs -> node ∉ ids ->
  ∀ g : nat -> nat,
    Forall2 (fun (i : nat * nat) (ib : nat * ContractDefinition) =>
               i.1 = ib.1 ∧ i.2 ≠ node ∧ context ast !! i.2 = Some ib.2)
            (imap (fun i x => (g i, x)) ids) (imap (fun i b => (g i, b)) bs).
Proof.
  induction 1 as [|id b ids bs Hb _ IH]; intros Hnode g; [constructor|].
  apply not_elem_of_cons in Hnode as [Hne Hnode].
  simpl. constructor; [done|]. apply (IH Hnode (g ∘ S)).
Qed.

Lemma record_lookup_Some clones : ∀ (idRemapping : gmap nat FunctionDefinition) k,
  is_Some (record idRemapping clones !! k)
  ↔ is_Some (idRemapping !! k) ∨ k ∈ f_id <$> clones.*1.
Proof.
  induction clones as [|[func cl] clones IH]; intros idRemapping k.
  - simpl. rewrite elem_of_nil. tauto.
  - unfold record in *. simpl. rewrite IH, lookup_insert_is_Some, elem_of_cons.
    destruct (decide (f_id func = k)); intuition congruence.
Qed.

Lemma record_lookup_NoDup clones : ∀ (idRemapping : gmap nat FunctionDefinition),
  NoDup (f_id <$> clones.*1) ->
  Forall (fun p => record idRemapping clones !! f_id p.1 = Some p.2) clones.
Proof.
  induction clones as [|[func cl] clones IH]; intros idRemapping Hnodup;
    [constructor|].
  simpl in Hnodup. apply NoDup_cons in Hnodup as [Hfresh Hnodup].
  constructor; [|by apply IH].
  simpl. unfold record. simpl.
  fold (record (<[f_id func := cl]> idRemapping) clones).
  destruct (record (<[f_id func := cl]> idRemapping) clones !! f_id func)
    as [priv|] eqn:Hpriv.
  - apply remapping_lookup in Hpriv as [Hpriv|(func' & Hin & Hid)].
    + by rewrite lookup_insert_eq in Hpriv.
    + exfalso. apply Hfresh. rewrite <- Hid.
      apply list_elem_of_fmap_2. apply list_elem_of_fmap. by exists (func', priv).
  - assert (is_Some (record (<[f_id func := cl]> idRemapping) clones !! f_id func))
      as [? Hsome]; [|congruence].
    apply record_lookup_Some. left. rewrite lookup_insert_eq. done.
Qed.

Lemma addPrivateSuperFunctions_run
    (node : nat) (c : ContractDefinition) (bs : list ContractDefinition)
    (ast : AST) :
  context ast !! node = Some c ->
  located ast (getBaseContracts c) bs ->
  node ∉ getBaseContracts c ->
  ∃ clones ast',
    addPrivateSuperFunctions node ∅ ast = Ok (record ∅ clones, ast')
    ∧ context ast'
      = <[node := setChildren c (c_children c ++ (ChildFunction <$> clones.*2))]>
          (context ast)
    ∧ Forall2 (fun df p => p.1 = df.2
                           ∧ privateCopyOf node df.1 df.2 p.2
                           ∧ copyOf df.2 p.2)
              (superFunctions bs) clones.
Proof.
  intros Hc Hbs Hself.
  destruct (inlineBases_run node (imap pair (getBaseContracts c)) (imap pair bs)
              ∅ ast c Hc (located_indexed _ _ _ _ Hbs Hself id))
    as (clones & ast' & Hrun & Hctx & Hcopies).
  exists clones, ast'. split; [|done].
  unfold addPrivateSuperFunctions, bind. by rewrite (locate_run _ _ _ Hc).
Qed.

(** X11.
    [addPrivateSuperFunctions] never fails on a contract whose bases are in
    the store: it appends to the contract, in order, one private copy named
    [name_s<depth>] of every function that is not a constructor of every
    base, nearest base first, keeping kind, mutability, body and
    parameters, and maps the id of each original to its copy; the keys of
    the mapping are these ids and no others. *)
Theorem addPrivateSuperFunctions_copies_every_base_function
    (node : nat) (c : ContractDefinition) (bs : list ContractDefinition)
    (ast : AST) :
  context ast !! node = Some c ->
  located ast (getBaseContracts c) bs ->
  node ∉ getBaseContracts c ->
  ∃ idRemapping ast' privs,
    addPrivateSuperFunctions node ∅ ast = Ok (idRemapping, ast')
    ∧ context ast'
      = <[node := setChildren c (c_children c ++ (ChildFunction <$> privs))]>
          (context ast)
    ∧ Forall2 (fun df priv => privateCopyOf node df.1 df.2 priv
                              ∧ copyOf df.2 priv)
              (superFunctions bs) privs
    ∧ (∀ k, is_Some (idRemapping !! k)
            ↔ k ∈ ((fun df => f_id df.2) <$> superFunctions bs))
    ∧ (NoDup ((fun df => f_id df.2) <$> superFunctions bs) ->
       Forall2 (fun df priv => idRemapping !! f_id df.2 = Some priv)
               (superFunctions bs) privs).
Proof.
  intros Hc Hbs Hself.
  destruct (addPrivateSuperFunctions_run node c bs ast Hc Hbs Hself)
    as (clones & ast' & Hrun & Hctx & Hcopies).
  assert (clones.*1 = (superFunctions bs).*2) as Hfuncs.
  { clear -Hcopies. induction Hcopies as [|df p dfs ps (Hp & _) _ IH]; [done|].
    rewrite !fmap_cons. by f_equal. }
  assert ((fun df : nat * FunctionDefinition => f_id df.2) <$> superFunctions bs
          = f_id <$> clones.*1) as Hids.
  { rewrite Hfuncs. by rewrite <- list_fmap_compose. }
  exists (record ∅ clones), ast', (clones.*2).
  split; [done|]. split; [done|]. split.
  { apply Forall2_fmap_r. eapply Forall2_impl; [exact Hcopies|]. simpl. tauto. }
  split.
  { intros k. rewrite record_lookup_Some, lookup_empty, Hids.
    split; [intros [[? ?]|?]; done | by right]. }
  intros Hnodup. rewrite Hids in Hnodup.
  pose proof (record_lookup_NoDup clones ∅ Hnodup) as Hrec.
  apply Forall2_fmap_r.
  clear -Hcopies Hrec. revert Hrec.
  generalize (record ∅ clones). intros remap Hrec.
  induction Hcopies as [|df p dfs ps (Hp & _) _ IH]; [constructor|].
  apply Forall_cons in Hrec as [Hhead Hrec].
  constructor; [by rewrite <- Hp | by apply IH].
Qed.

Lemma addPrivateSuperFunctions_copies_every_base_function_witness :
  ∃ idRemapping ast' privs,
    addPrivateSuperFunctions 2 ∅ Samples.hierarchy = Ok (idRemapping, ast')
    ∧ context ast'
      = <[2 := setChildren Samples.Derived
                 (c_children Samples.Derived ++ (ChildFunction <$> privs))]>
          (context Samples.hierarchy)
    ∧ Forall2 (fun df priv => privateCopyOf 2 df.1 df.2 priv ∧ copyOf df.2 priv)
              (superFunctions [Samples.Base]) privs
    ∧ (∀ k, is_Some (idRemapping !! k)
            ↔ k ∈ ((fun df => f_id df.2) <$> superFunctions [Samples.Base]))
    ∧ (NoDup ((fun df => f_id df.2) <$> superFunctions [Samples.Base]) ->
       Forall2 (fun df priv => idRemapping !! f_id df.2 = Some priv)
               (superFunctions [Samples.Base]) privs).
Proof.
  apply (addPrivateSuperFunctions_copies_every_base_function
           2 Samples.Derived [Samples.Base] Samples.hierarchy).
  - reflexivity.
  - repeat constructor.
  - exact Derived_not_among_its_bases.
Defined.

(** ** The modifier flattener *)

Section Recorded.

Context {A V : Type} (key : A -> nat).

Lemma recorded_is_Some pairs : ∀ (idRemapping : gmap nat V) k,
  is_Some (recorded key idRemapping pairs !! k)
  ↔ is_Some (idRemapping !! k) ∨ k ∈ key <$> pairs.*1.
Proof.
  induction pairs as [|[x cl] pairs IH]; intros idRemapping k.
  - simpl. rewrite elem_of_nil. tauto.
  - unfold recorded in *. simpl. rewrite IH, lookup_insert_is_Some, elem_of_cons.
    destruct (decide (key x = k)); intuition congruence.
Qed.

Lemma recorded_other pairs : ∀ (idRemapping : gmap nat V) k,
  k ∉ key <$> pairs.*1 ->
  recorded key idRemapping pairs !! k = idRemapping !! k.
Proof.
  induction pairs as [|[x cl] pairs IH]; intros idRemapping k Hk; [done|].
  rewrite !fmap_cons in Hk. apply not_elem_of_cons in Hk as [Hne Hk].
  unfold recorded in *. simpl. rewrite IH by done.
  by apply lookup_insert_ne.
Qed.

Lemma recorded_NoDup pairs : ∀ (idRemapping : gmap nat V),
  NoDup (key <$> pairs.*1) ->
  Forall (fun p => recorded key idRemapping pairs !! key p.1 = Some p.2) pairs.
Proof.
  induction pairs as [|[x cl] pairs IH]; intros idRemapping Hnodup;
    [constructor|].
  rewrite !fmap_cons in Hnodup. apply NoDup_cons in Hnodup as [Hfresh Hnodup].
  constructor; [|by apply IH].
  unfold recorded. simpl.
  fold (recorded key (<[key x := cl]> idRemapping) pairs).
  rewrite recorded_other by done. apply lookup_insert_eq.
Qed.

Lemma recorded_app pairs1 pairs2 (idRemapping : gmap nat V) :
  recorded key idRemapping (pairs1 ++ pairs2)
  = recorded key (recorded key idRemapping pairs1) pairs2.
Proof. unfold recorded. by rewrite foldl_app. Qed.

End Recorded.

Lemma set_add_longer x s :
  length s < length (set_add x s) ↔ x ∉ s.
Proof.
  unfold set_add. case_bool_decide as Hx.
  - split; [lia | done].
  - rewrite length_app. simpl. split; [done | lia].
Qed.

Lemma nonOverridden_ext mods : ∀ s s',
  (∀ n, n ∈ s ↔ n ∈ s') -> nonOverridden s mods = nonOverridden s' mods.
Proof.
  induction mods as [|m mods IH]; intros s s' Hss; [done|].
  simpl. destruct (decide (m_name m ∈ s)) as [Hin|Hin].
  - assert (m_name m ∈ s') as Hin' by (by apply Hss).
    rewrite (bool_decide_eq_true_2 _ Hin), (bool_decide_eq_true_2 _ Hin').
    by apply IH.
  - assert (m_name m ∉ s') as Hin' by (by rewrite <- Hss).
    rewrite (bool_decide_eq_false_2 _ Hin), (bool_decide_eq_false_2 _ Hin').
    f_equal. apply IH. intros n. rewrite !elem_of_cons, Hss. done.
Qed.

Lemma nonOverridden_app l1 : ∀ s l2,
  nonOverridden s (l1 ++ l2)
  = nonOverridden s l1 ++ nonOverridden (add_all s (m_name <$> l1)) l2.
Proof.
  induction l1 as [|m l1 IH]; intros s l2; [done|].
  simpl. change (add_all s (m_name m :: (m_name <$> l1)))
    with (add_all (set_add (m_name m) s) (m_name <$> l1)).
  destruct (decide (m_name m ∈ s)) as [Hin|Hin].
  - rewrite bool_decide_eq_true_2 by done. rewrite IH.
    unfold set_add. by rewrite bool_decide_eq_true_2.
  - rewrite bool_decide_eq_false_2 by done. simpl. f_equal. rewrite IH.
    f_equal. apply nonOverridden_ext. intros n.
    rewrite !add_all_elem_of, set_add_elem_of, elem_of_cons. tauto.
Qed.

Lemma nonOverridden_names mods : ∀ s,
  NoDup (m_name <$> nonOverridden s mods)
  ∧ ∀ n, n ∈ (m_name <$> nonOverridden s mods)
         ↔ ((n ∉ s) ∧ n ∈ (m_name <$> mods)).
Proof.
  induction mods as [|m mods IH]; intros s.
  - simpl. split; [constructor|]. intros n. rewrite elem_of_nil. tauto.
  - simpl. case_bool_decide as Hin.
    + destruct (IH s) as [Hnodup Hiff]. split; [done|].
      intros n. rewrite Hiff, elem_of_cons. split; [tauto|].
      intros (Hn & [->|Hm]); done.
    + destruct (IH (m_name m :: s)) as [Hnodup Hiff]. split.
      * rewrite fmap_cons. apply NoDup_cons. split; [|done].
        rewrite Hiff, elem_of_cons. tauto.
      * intros n. rewrite fmap_cons, !elem_of_cons, Hiff, elem_of_cons.
        destruct (decide (n = m_name m)) as [->|Hne]; tauto.
Qed.

Lemma nonOverridden_first mods : ∀ s m,
  m ∈ nonOverridden s mods ->
  ∃ pre post, mods = pre ++ m :: post ∧ m_name m ∉ m_name <$> pre.
Proof.
  induction mods as [|m0 mods IH]; intros s m Hin; simpl in Hin.
  - by apply elem_of_nil in Hin.
  - case_bool_decide as Hseen.
    + destruct (IH _ _ Hin) as (pre & post & -> & Hpre).
      exists (m0 :: pre), post. split; [done|].
      rewrite fmap_cons, not_elem_of_cons. split; [|done].
      intros Heq. pose proof (nonOverridden_names (pre ++ m :: post) s) as [_ Hiff].
      assert (m_name m ∈ m_name <$> nonOverridden s (pre ++ m :: post)) as Hn
        by (by apply list_elem_of_fmap_2).
      apply Hiff in Hn as [Hn _]. congruence.
    + apply elem_of_cons in Hin as [->|Hin].
      * exists [], mods. split; [done|]. apply not_elem_of_nil.
      * destruct (IH _ _ Hin) as (pre & post & -> & Hpre).
        exists (m0 :: pre), post. split; [done|].
        rewrite fmap_cons, not_elem_of_cons. split; [|done].
        intros Heq. pose proof (nonOverridden_names (pre ++ m :: post)
                                  (m_name m0 :: s)) as [_ Hiff].
        assert (m_name m ∈ m_name <$> nonOverridden (m_name m0 :: s)
                                         (pre ++ m :: post)) as Hn
          by (by apply list_elem_of_fmap_2).
        apply Hiff in Hn as [Hn _]. apply Hn. rewrite Heq. left.
Qed.

Lemma cloneModifierDefinition_copyOf m ast cl ast' :
  cloneModifierDefinition m ast = Ok (cl, ast') -> modifierCopyOf m cl.
Proof.
  intros Hrun. unfold cloneModifierDefinition in Hrun.
  apply bind_Ok in Hrun as (i & ast1 & _ & Hrun).
  apply bind_Ok in Hrun as (ps & ast2 & Hps & Hrun).
  apply bind_Ok in Hrun as (b & ast3 & Hb & Hrun).
  injection Hrun as <- _. apply cloneParameterList_shape in Hps.
  unfold modifierCopyOf. simpl. repeat split; try done.
  destruct (m_body m); [|by injection Hb as <- _].
  unfold cloneBlock in Hb. by injection Hb as <- _.
Qed.

Lemma addNonOverridenModifiers_loops node idRemapping :
  addNonOverridenModifiers node idRemapping
  = (let* c := locate node in
     let* (_, idRemapping) :=
       foldM (inheritModifiers node) (getBaseContracts c)
         (foldl (fun s modifier => set_add (m_name modifier) s) []
                (vModifiers c), idRemapping) in
     ret idRemapping).
Proof. reflexivity. Qed.

Lemma foldM_cons {A B} (f : B -> A -> M B) x l b ast :
  foldM f (x :: l) b ast
  = match f b x ast with
    | Ok (b', ast') => foldM f l b' ast'
    | Err e => Err e
    end.
Proof. done. Qed.

Lemma inheritModifier_run node names (idRemapping : gmap nat ModifierDefinition)
    m ast x :
  context ast !! node = Some x ->
  if bool_decide (m_name m ∈ names) then
    inheritModifier node (names, idRemapping) m ast
    = Ok ((names, idRemapping), ast)
  else
    ∃ cl ast',
      inheritModifier node (names, idRemapping) m ast
      = Ok ((names ++ [m_name m], <[m_id m := cl]> idRemapping), ast')
      ∧ context ast'
        = <[node := setChildren x (c_children x ++ [ChildModifier cl])]>
            (context ast)
      ∧ modifierCopyOf m cl.
Proof.
  intros Hx. unfold inheritModifier. cbv zeta.
  case_bool_decide as Hin.
  - rewrite bool_decide_eq_false_2 by (rewrite set_add_longer; tauto).
    unfold set_add. by rewrite bool_decide_eq_true_2.
  - rewrite bool_decide_eq_true_2 by (by rewrite set_add_longer).
    unfold set_add. rewrite (bool_decide_eq_false_2 _ Hin).
    destruct (returns_cloneModifierDefinition m ast)
      as (cl & ast1 & Hcl & Hctx1).
    exists cl. eexists. unfold bind at 1. rewrite Hcl.
    unfold bind at 1. unfold appendChild, modifyChildren.
    rewrite Hctx1, Hx. unfold ret. split; [reflexivity|]. simpl.
    split; [done|]. by eapply cloneModifierDefinition_copyOf.
Qed.

Lemma inheritModifiers_run node mods :
  ∀ names (idRemapping : gmap nat ModifierDefinition) ast x,
  context ast !! node = Some x ->
  ∃ names' clones ast',
    foldM (inheritModifier node) mods (names, idRemapping) ast
    = Ok ((names',
           recorded m_id idRemapping (zip (nonOverridden names mods) clones)),
          ast')
    ∧ (∀ n, n ∈ names' ↔ n ∈ names ∨ n ∈ m_name <$> mods)
    ∧ context ast'
      = <[node := setChildren x (c_children x ++ (ChildModifier <$> clones))]>
          (context ast)
    ∧ Forall2 modifierCopyOf (nonOverridden names mods) clones.
Proof.
  induction mods as [|m mods IH]; intros names idRemapping ast x Hx.
  - exists names, [], ast. split; [done|].
    split; [intros n; rewrite elem_of_nil; tauto|]. split; [|constructor].
    simpl. rewrite app_nil_r, insert_id; [done|]. rewrite Hx. by destruct x.
  - rewrite foldM_cons.
    pose proof (inheritModifier_run node names idRemapping m ast x Hx) as Hstep.
    cbn [nonOverridden]. destruct (bool_decide (m_name m ∈ names)) eqn:Hin.
    + rewrite Hstep.
      destruct (IH names idRemapping ast x Hx)
        as (names' & clones & ast' & Hrun & Hnames & Hctx' & Hcopies).
      exists names', clones, ast'. split; [done|]. split; [|done].
      intros n. rewrite Hnames, fmap_cons, elem_of_cons.
      apply bool_decide_eq_true_1 in Hin. split; [tauto|].
      intros [?|[->|?]]; tauto.
    + destruct Hstep as (cl & ast1 & -> & Hctx1 & Hcopy).
      set (x1 := setChildren x (c_children x ++ [ChildModifier cl])) in *.
      destruct (IH (names ++ [m_name m]) (<[m_id m := cl]> idRemapping) ast1 x1)
        as (names' & clones & ast' & Hrun & Hnames & Hctx' & Hcopies);
        [rewrite Hctx1; apply lookup_insert_eq|].
      assert (nonOverridden (names ++ [m_name m]) mods
              = nonOverridden (m_name m :: names) mods) as Hext.
      { apply nonOverridden_ext. intros n.
        rewrite elem_of_app, list_elem_of_singleton, elem_of_cons. tauto. }
      rewrite Hext in *.
      exists names', (cl :: clones), ast'. split; [done|]. split.
      { intros n. rewrite Hnames, elem_of_app, list_elem_of_singleton,
          fmap_cons, elem_of_cons. tauto. }
      split; [|by constructor].
      rewrite Hctx', Hctx1, insert_insert_eq.
      unfold x1, setChildren. simpl. by rewrite <- app_assoc.
Qed.

Lemma inheritBases_run node ids :
  ∀ bs names (idRemapping : gmap nat ModifierDefinition) ast x,
  context ast !! node = Some x ->
  located ast ids bs ->
  node ∉ ids ->
  ∃ names' clones ast',
    foldM (inheritModifiers node) ids (names, idRemapping) ast
    = Ok ((names',
           recorded m_id idRemapping
             (zip (nonOverridden names (concat (vModifiers <$> bs))) clones)),
          ast')
    ∧ context ast'
      = <[node := setChildren x (c_children x ++ (ChildModifier <$> clones))]>
          (context ast)
    ∧ Forall2 modifierCopyOf
        (nonOverridden names (concat (vModifiers <$> bs))) clones.
Proof.
  induction ids as [|id ids IH]; intros bs0 names idRemapping ast x Hx Hbs Hnode;
    inversion Hbs as [|? b ? bs Hb Hrest]; subst.
  - exists names, [], ast. split; [done|]. split; [|constructor].
    simpl. rewrite app_nil_r, insert_id; [done|]. rewrite Hx. by destruct x.
  - apply not_elem_of_cons in Hnode as [Hne Hnode].
    rewrite foldM_cons. unfold inheritModifiers at 1. unfold bind at 1.
    rewrite (locate_run _ _ _ Hb).
    destruct (inheritModifiers_run node (vModifiers b) names idRemapping ast x Hx)
      as (names1 & clones1 & ast1 & -> & Hnames1 & Hctx1 & Hcopies1).
    set (x1 := setChildren x (c_children x ++ (ChildModifier <$> clones1))) in *.
    destruct (IH bs names1
                (recorded m_id idRemapping
                   (zip (nonOverridden names (vModifiers b)) clones1))
                ast1 x1)
      as (names' & clones & ast' & -> & Hctx' & Hcopies); [| |done|].
    { rewrite Hctx1. apply lookup_insert_eq. }
    { eapply located_frame; [exact Hrest|]. intros k Hk.
      rewrite Hctx1. apply lookup_insert_ne. intros <-. done. }
    assert (nonOverridden names1 (concat (vModifiers <$> bs))
            = nonOverridden (add_all names (m_name <$> vModifiers b))
                            (concat (vModifiers <$> bs))) as Hext.
    { apply nonOverridden_ext. intros n. rewrite Hnames1, add_all_elem_of. done. }
    rewrite Hext in *.
    exists names', (clones1 ++ clones), ast'.
    rewrite fmap_cons. simpl. rewrite nonOverridden_app.
    split.
    { rewrite zip_with_app by (by eapply Forall2_length).
      by rewrite recorded_app. }
    split; [|by apply Forall2_app].
    rewrite Hctx', Hctx1, insert_insert_eq. unfold x1, setChildren. simpl.
    by rewrite fmap_app, app_assoc.
Qed.

(** X14.
    [addNonOverridenModifiers] never fails on a contract whose bases are in
    the store: it appends one clone for every modifier name of a base that
    the contract does not declare itself, the clone of the first modifier
    of that name from the nearest base on, each name once, and maps the id
    of each cloned modifier to its clone, with no other key. *)
Theorem addNonOverridenModifiers_clones_the_nearest_of_each_new_name
    (node : nat) (c : ContractDefinition) (bs : list ContractDefinition)
    (ast : AST) :
  context ast !! node = Some c ->
  located ast (getBaseContracts c) bs ->
  node ∉ getBaseContracts c ->
  let inherited :=
    nonOverridden (m_name <$> vModifiers c) (concat (vModifiers <$> bs)) in
  ∃ idRemapping ast' clones,
    addNonOverridenModifiers node ∅ ast = Ok (idRemapping, ast')
    ∧ context ast'
      = <[node := setChildren c (c_children c ++ (ChildModifier <$> clones))]>
          (context ast)
    ∧ Forall2 modifierCopyOf inherited clones
    ∧ NoDup (m_name <$> inherited)
    ∧ (∀ n, n ∈ (m_name <$> inherited)
            ↔ ((n ∉ (m_name <$> vModifiers c))
               ∧ ∃ b m, b ∈ bs ∧ m ∈ vModifiers b ∧ m_name m = n))
    ∧ (∀ m, m ∈ inherited ->
            ∃ pre post, concat (vModifiers <$> bs) = pre ++ m :: post
                        ∧ m_name m ∉ (m_name <$> pre))
    ∧ (∀ k, is_Some (idRemapping !! k) ↔ k ∈ (m_id <$> inherited))
    ∧ (NoDup (m_id <$> inherited) ->
       Forall2 (fun m cl => idRemapping !! m_id m = Some cl) inherited clones).
Proof.
  intros Hc Hbs Hself inherited.
  set (names := foldl (fun s modifier => set_add (m_name modifier) s) []
                      (vModifiers c)).
  destruct (inheritBases_run node (getBaseContracts c) bs names ∅ ast c
              Hc Hbs Hself)
    as (names' & clones & ast' & Hrun & Hctx & Hcopies).
  assert (nonOverridden names (concat (vModifiers <$> bs)) = inherited) as Hinh.
  { apply nonOverridden_ext. intros n. unfold names.
    transitivity (n ∈ add_all [] (m_name <$> vModifiers c)).
    - unfold add_all. by rewrite foldl_fmap.
    - rewrite add_all_elem_of, elem_of_nil. tauto. }
  rewrite Hinh in *.
  pose proof (Forall2_length _ _ _ Hcopies) as Hlen.
  assert ((zip inherited clones).*1 = inherited) as Hfst
    by (apply fst_zip; lia).
  exists (recorded m_id ∅ (zip inherited clones)), ast', clones.
  split.
  { rewrite addNonOverridenModifiers_loops. unfold bind at 1.
    rewrite (locate_run _ _ _ Hc). unfold bind at 1. fold names.
    by rewrite Hrun. }
  split; [done|]. split; [done|].
  destruct (nonOverridden_names (concat (vModifiers <$> bs))
              (m_name <$> vModifiers c)) as [Hnodup Hiff].
  split; [done|]. split.
  { intros n. fold inherited in Hiff. rewrite Hiff.
    split; intros [Hown Hbase]; (split; [done|]).
    - apply list_elem_of_fmap in Hbase as (m & -> & Hm).
      apply elem_of_concat in Hm as (l & Hm & Hl).
      apply list_elem_of_fmap in Hl as (b & -> & Hb). by exists b, m.
    - destruct Hbase as (b & m & Hb & Hm & <-).
      apply list_elem_of_fmap_2, elem_of_concat.
      exists (vModifiers b). split; [done|]. by apply list_elem_of_fmap_2. }
  split; [intros m; apply nonOverridden_first|]. split.
  { intros k. rewrite recorded_is_Some, lookup_empty, Hfst.
    split; [intros [[? ?]|?]; done | by right]. }
  intros Hids.
  pose proof (recorded_NoDup m_id (zip inherited clones) ∅) as Hrec.
  rewrite Hfst in Hrec. specialize (Hrec Hids).
  clear -Hcopies Hrec. revert Hrec.
  generalize (recorded m_id ∅ (zip inherited clones)). intros remap Hrec.
  induction Hcopies as [|m cl ms cls _ _ IH]; [constructor|].
  simpl in Hrec. apply Forall_cons in Hrec as [Hhead Hrec].
  constructor; [done | by apply IH].
Qed.

Lemma addNonOverridenModifiers_clones_the_nearest_of_each_new_name_witness :
  ∃ idRemapping ast' clones,
    addNonOverridenModifiers 2 ∅ Samples.guards = Ok (idRemapping, ast')
    ∧ context ast'
      = <[2 := setChildren Samples.Guarded (c_children Samples.Guarded ++ (ChildModifier <$> clones))]>
          (context Samples.guards)
    ∧ Forall2 modifierCopyOf [Samples.modifier 12 "whenOpen"] clones.
Proof.
  destruct (addNonOverridenModifiers_clones_the_nearest_of_each_new_name
              2 Samples.Guarded [Samples.Guard] Samples.guards eq_refl ltac:(repeat constructor)
              Derived_not_among_its_bases)
    as (idRemapping & ast' & clones & Hrun & Hctx & Hcopies & _).
  exists idRemapping, ast', clones. split; [exact Hrun|]. split; [exact Hctx|].
  exact Hcopies.
Defined.

(** ** The remapping of the storage flattener *)
Lemma inheritVariables_run node vars :
  ∀ (idRemapping : gmap nat VariableDeclaration) ast c,
  context ast !! node = Some c ->
  foldM (inheritVariable node) vars idRemapping ast
  = Ok (recorded v_id idRemapping (zip vars (cloned (nextId ast) vars)),
        mkAST (roots ast)
          (<[node := setChildren c
                       ((ChildVariable <$> reverse (cloned (nextId ast) vars))
                        ++ c_children c)]> (context ast))
          (nextId ast + length vars)).
Proof.
  induction vars as [|v vars IH]; intros idRemapping ast c Hc.
  - simpl. unfold ret. f_equal. f_equal.
    destruct ast as [r ctx n]. simpl in *. f_equal; [|lia].
    rewrite insert_id; [done|]. rewrite Hc. by destruct c.
  - rewrite foldM_cons, (inheritVariable_run _ _ _ _ _ Hc).
    rewrite (IH _ _ (setChildren c (ChildVariable (withId (nextId ast) v)
                                    :: c_children c)))
      by apply lookup_insert_eq.
    rewrite cloned_cons. cbn -[cloned reverse]. f_equal. f_equal. f_equal; [|lia].
    rewrite insert_insert_eq. f_equal. unfold setChildren. cbn -[cloned reverse]. f_equal.
    rewrite reverse_cons, fmap_app. cbn -[cloned reverse]. by rewrite <- app_assoc.
Qed.

Lemma cloned_lookup n vars i v :
  vars !! i = Some v -> cloned n vars !! i = Some (withId (n + i) v).
Proof. intros Hv. unfold cloned. by rewrite list_lookup_imap, Hv. Qed.

Lemma cloned_length n vars : length (cloned n vars) = length vars.
Proof. unfold cloned. apply length_imap. Qed.

(** X13.
    [addStorageVariables] never fails on a contract whose bases are in the
    store.  Of the declarations of one name among the bases it keeps the
    last it meets going from the farthest base to the nearest, and it maps
    the id of each declaration it keeps to the copy, numbered from the
    counter in the order of the name-keyed map; the mapping has no other
    key. *)
Theorem addStorageVariables_records_the_merged_declarations
    (node : nat) (c : ContractDefinition) (bs : list ContractDefinition)
    (ast : AST) :
  context ast !! node = Some c ->
  located ast (getBaseContracts c) bs ->
  let merged := (mergeByName (inheritedDeclarations bs)).*2 in
  ∃ idRemapping ast',
    addStorageVariables node ∅ ast = Ok (idRemapping, ast')
    ∧ (∀ v, v ∈ merged
            ↔ last (filter (fun d => v_name d = v_name v)
                           (inheritedDeclarations bs)) = Some v)
    ∧ (∀ k, is_Some (idRemapping !! k) ↔ k ∈ (v_id <$> merged))
    ∧ (NoDup (v_id <$> merged) ->
       ∀ i v, merged !! i = Some v ->
              idRemapping !! v_id v = Some (withId (nextId ast + i) v)).
Proof.
  intros Hc Hbs merged.
  pose proof (cloned_length (nextId ast) merged) as Hlen.
  assert ((zip merged (cloned (nextId ast) merged)).*1 = merged) as Hfst
    by (apply fst_zip; lia).
  eexists _, _. split.
  { unfold addStorageVariables. unfold bind at 1. rewrite (locate_run _ _ _ Hc).
    unfold bind at 1.
    rewrite (collect_run ast (reverse (getBaseContracts c)) (reverse bs))
      by (by apply Forall2_reverse).
    rewrite foldl_collectInheritedVariables.
    fold (mergeByName (concat (vStateVariables <$> reverse bs))).
    fold (inheritedDeclarations bs). fold merged.
    apply (inheritVariables_run node merged ∅ ast c Hc). }
  split.
  { intros v.
    pose proof (mergeByName_values_filter (inheritedDeclarations bs) (v_name v))
      as Hfilter.
    fold merged in Hfilter. split.
    - intros Hin.
      assert (v ∈ filter (fun d => v_name d = v_name v) merged) as Hv
        by (by apply list_elem_of_filter).
      rewrite Hfilter in Hv. destruct (last _) as [d|].
      + by apply list_elem_of_singleton in Hv as ->.
      + by apply elem_of_nil in Hv.
    - intros Hlast. rewrite Hlast in Hfilter.
      assert (v ∈ filter (fun d => v_name d = v_name v) merged) as Hv
        by (rewrite Hfilter; left).
      by apply list_elem_of_filter in Hv as [_ ?]. }
  split.
  { intros k. rewrite recorded_is_Some, lookup_empty, Hfst.
    split; [intros [[? ?]|?]; done | by right]. }
  intros Hnodup i v Hv.
  pose proof (recorded_NoDup v_id (zip merged (cloned (nextId ast) merged)) ∅)
    as Hrec.
  rewrite Hfst in Hrec. specialize (Hrec Hnodup).
  rewrite Forall_forall in Hrec.
  apply (Hrec (v, withId (nextId ast + i) v)).
  apply list_elem_of_lookup. exists i.
  apply lookup_zip_with_Some. exists v, (withId (nextId ast + i) v).
  split; [done|]. split; [done|]. by apply cloned_lookup.
Qed.

Lemma addStorageVariables_records_the_merged_declarations_witness :
  ∃ idRemapping ast',
    addStorageVariables 2 ∅ Samples.hierarchy = Ok (idRemapping, ast')
    ∧ idRemapping !! 10 = Some (withId 100 (Samples.variable 10 "x" 1))
    ∧ idRemapping !! 11 = Some (withId 101 (Samples.variable 11 "a" 1)).
Proof.
  destruct (addStorageVariables_records_the_merged_declarations
              2 Samples.Derived [Samples.Base] Samples.hierarchy
              eq_refl ltac:(repeat constructor))
    as (idRemapping & ast' & Hrun & _ & _ & Hentries).
  exists idRemapping, ast'. split; [exact Hrun|].
  assert (NoDup (v_id <$> (mergeByName (inheritedDeclarations [Samples.Base])).*2))
    as Hnodup.
  { vm_compute. apply NoDup_cons. split; [|apply NoDup_singleton].
    intros Hin. apply list_elem_of_singleton in Hin. discriminate. }
  split.
  - apply (Hentries Hnodup 0 (Samples.variable 10 "x" 1)). reflexivity.
  - apply (Hentries Hnodup 1 (Samples.variable 11 "a" 1)). reflexivity.
Defined.

Lemma addStorageVariables_remapping node c bs ast :
  context ast !! node = Some c ->
  located ast (getBaseContracts c) bs ->
  ∃ ast',
    addStorageVariables node ∅ ast
    = Ok (recorded v_id ∅
            (zip (mergeByName (inheritedDeclarations bs)).*2
                 (cloned (nextId ast) (mergeByName (inheritedDeclarations bs)).*2)),
          ast').
Proof.
  intros Hc Hbs. eexists.
  unfold addStorageVariables. unfold bind at 1. rewrite (locate_run _ _ _ Hc).
  unfold bind at 1.
  rewrite (collect_run ast (reverse (getBaseContracts c)) (reverse bs))
    by (by apply Forall2_reverse).
  rewrite foldl_collectInheritedVariables.
  fold (mergeByName (concat (vStateVariables <$> reverse bs))).
  fold (inheritedDeclarations bs).
  apply (inheritVariables_run node _ ∅ ast c Hc).
Qed.

Lemma recorded_lookup {A V : Type} (key : A -> nat) pairs :
  ∀ (idRemapping : gmap nat V) k v,
  recorded key idRemapping pairs !! k = Some v ->
  idRemapping !! k = Some v ∨ ∃ x, (x, v) ∈ pairs ∧ key x = k.
Proof.
  induction pairs as [|[x cl] pairs IH]; intros idRemapping k v Hk; [by left|].
  unfold recorded in *. simpl in Hk. apply IH in Hk as [Hk|(x' & Hin & Hx')].
  - destruct (decide (key x = k)) as [<-|Hne].
    + rewrite lookup_insert_eq in Hk. injection Hk as <-.
      right. exists x. split; [left | done].
    + rewrite lookup_insert_ne in Hk by done. by left.
  - right. exists x'. split; [by right | done].
Qed.

(** ** The references of a contract and the reference rewriter *)

(** Induction on expressions and statements, with the nodes below a node
    covered by the hypothesis. *)
Lemma Expression_nested_ind (P : Expression -> Prop) :
  (∀ name r, P (Identifier name r)) ->
  (∀ name r, P (IdentifierPath name r)) ->
  (∀ b member r, P b -> P (MemberAccess b member r)) ->
  (∀ f args, P f -> Forall P args -> P (FunctionCall f args)) ->
  (∀ label children, Forall P children -> P (OtherExpression label children)) ->
  ∀ e, P e.
Proof.
  intros HId HPath HMember HCall HOther.
  fix IH 1. intros [name r|name r|b member r|f args|label children].
  - apply HId.
  - apply HPath.
  - apply HMember, IH.
  - apply HCall; [apply IH|].
    induction args as [|a args IHargs]; constructor; [apply IH | exact IHargs].
  - apply HOther.
    induction children as [|a children IHc]; constructor; [apply IH | exact IHc].
Qed.

Lemma Statement_nested_ind (P : Statement -> Prop) :
  (∀ e, P (ExpressionStatement e)) ->
  (∀ p e, P (Return p e)) ->
  (∀ stmts, Forall P stmts -> P (Block stmts)) ->
  (∀ label exprs stmts, Forall P stmts -> P (OtherStatement label exprs stmts)) ->
  ∀ s, P s.
Proof.
  intros HExpr HReturn HBlock HOther.
  fix IH 1. intros [e|p e|stmts|label exprs stmts].
  - apply HExpr.
  - apply HReturn.
  - apply HBlock.
    induction stmts as [|a stmts IHs]; constructor; [apply IH | exact IHs].
  - apply HOther.
    induction stmts as [|a stmts IHs]; constructor; [apply IH | exact IHs].
Qed.

Lemma walkList_cons {A} (walk : A -> nat -> A * nat) x l n :
  walkList walk (x :: l) n
  = ((walk x n).1 :: (walkList walk l (walk x n).2).1,
     (walkList walk l (walk x n).2).2).
Proof.
  simpl. destruct (walk x n) as [x' n1]. simpl.
  by destruct (walkList walk l n1).
Qed.

Lemma walkList_Forall2 {A} (walk : A -> nat -> A * nat) (P : A -> A -> Prop) l :
  Forall (fun x => ∀ n, P x (walk x n).1) l ->
  ∀ n, Forall2 P l (walkList walk l n).1.
Proof.
  induction 1 as [|x l Hx _ IH]; intros n; [constructor|].
  rewrite walkList_cons. simpl. constructor; [apply Hx | apply IH].
Qed.

Lemma walkList_id {A} (walk : A -> nat -> A * nat) l :
  Forall (fun x => ∀ n, walk x n = (x, n)) l ->
  ∀ n, walkList walk l n = (l, n).
Proof.
  induction 1 as [|x l Hx _ IH]; intros n; [done|].
  rewrite walkList_cons, Hx. simpl. by rewrite IH.
Qed.

Lemma walkOption_id {A} (walk : A -> nat -> A * nat) o :
  (∀ x, o = Some x -> ∀ n, walk x n = (x, n)) ->
  ∀ n, walkOption walk o n = (o, n).
Proof.
  intros Hwalk n. destruct o as [x|]; [|done]. simpl. by rewrite Hwalk.
Qed.

Lemma Forall_concat_fmap {A} (refs : A -> list nat) (Q : list nat -> Prop) l :
  (∀ rs rs', (∀ r, r ∈ rs' -> r ∈ rs) -> Q rs -> Q rs') ->
  Q (concat (refs <$> l)) -> Forall (fun x => Q (refs x)) l.
Proof.
  intros Hmono HQ. apply Forall_forall. intros x Hx.
  eapply Hmono; [|exact HQ]. intros r Hr. apply elem_of_concat.
  exists (refs x). split; [done|]. by apply list_elem_of_fmap_2.
Qed.

Section Rewriting.

Context {V : Type} `{Declaration V} (idRemapping : gmap nat V).

Lemma untouched_sub rs rs' :
  (∀ r, r ∈ rs' -> r ∈ rs) -> untouched idRemapping rs -> untouched idRemapping rs'.
Proof. intros Hsub Hrs r Hr. by apply Hrs, Hsub. Qed.

Lemma untouched_app rs1 rs2 :
  untouched idRemapping (rs1 ++ rs2) ↔ untouched idRemapping rs1 ∧ untouched idRemapping rs2.
Proof.
  unfold untouched. split.
  - intros Hall. split; intros r Hr; apply Hall, elem_of_app; tauto.
  - intros [H1 H2] r [Hr|Hr]%elem_of_app; eauto.
Qed.

Lemma redirected_sub before before' r :
  (∀ k, k ∈ before -> k ∈ before') -> redirected idRemapping before r -> redirected idRemapping before' r.
Proof.
  intros Hsub [[Hr Hnone]|(k & v & Hk & Hv & ->)]; [left | right]; eauto 10.
Qed.

Lemma redirects_nil before : redirects idRemapping before [].
Proof. by intros r Hr%elem_of_nil. Qed.

Lemma redirects_app b1 b2 a1 a2 :
  redirects idRemapping b1 a1 -> redirects idRemapping b2 a2 -> redirects idRemapping (b1 ++ b2) (a1 ++ a2).
Proof.
  intros H1 H2 r [Hr|Hr]%elem_of_app.
  - eapply redirected_sub; [|by apply H1]. intros k Hk. apply elem_of_app. by left.
  - eapply redirected_sub; [|by apply H2]. intros k Hk. apply elem_of_app. by right.
Qed.

Lemma redirects_concat {A} (refs : A -> list nat) l l' :
  Forall2 (fun x x' => redirects idRemapping (refs x) (refs x')) l l' ->
  redirects idRemapping (concat (refs <$> l)) (concat (refs <$> l')).
Proof.
  induction 1 as [|x x' l l' Hx _ IH]; [apply redirects_nil|].
  rewrite !fmap_cons. simpl. by apply redirects_app.
Qed.

Lemma walkList_redirects {A} (refs : A -> list nat)
    (walk : A -> nat -> A * nat) l :
  Forall (fun x => ∀ n, redirects idRemapping (refs x) (refs (walk x n).1)) l ->
  ∀ n, redirects idRemapping (concat (refs <$> l)) (concat (refs <$> (walkList walk l n).1)).
Proof.
  intros Hall n. apply redirects_concat.
  by apply (walkList_Forall2 walk (fun x x' => redirects idRemapping (refs x) (refs x'))).
Qed.

Lemma walkList_untouched {A} (refs : A -> list nat)
    (walk : A -> nat -> A * nat) l :
  Forall (fun x => untouched idRemapping (refs x) -> ∀ n, walk x n = (x, n)) l ->
  untouched idRemapping (concat (refs <$> l)) ->
  ∀ n, walkList walk l n = (l, n).
Proof.
  intros Hall Hl. apply walkList_id.
  apply (Forall_concat_fmap refs (untouched idRemapping)) in Hl; [|apply untouched_sub].
  rewrite Forall_forall in *. intros x Hx. by apply Hall, Hl.
Qed.

(** *** Expressions *)
Lemma walkExpression_untouched e :
  untouched idRemapping (referencesOfExpression e) ->
  ∀ n, walkExpression idRemapping e n = (e, n).
Proof.
  induction e as [name r|name r|b member r IH|f args IHf IHargs
                 |label children IHc] using Expression_nested_ind;
    intros Hrefs n; simpl in *.
  - by rewrite Hrefs by left.
  - by rewrite Hrefs by left.
  - rewrite Hrefs by left. rewrite IH; [done|].
    eapply untouched_sub; [|exact Hrefs]. intros k Hk. by right.
  - apply untouched_app in Hrefs as [Hf Hargs].
    rewrite IHf by done.
    by rewrite (walkList_untouched referencesOfExpression _ _ IHargs Hargs).
  - by rewrite (walkList_untouched referencesOfExpression _ _ IHc Hrefs).
Qed.

Lemma redirects_lookup r remapping :
  idRemapping !! r = Some remapping ->
  redirects idRemapping [r] [decl_id remapping].
Proof.
  intros Hr k ->%list_elem_of_singleton. right.
  exists r, remapping. split; [left | done].
Qed.

Lemma redirects_kept r :
  idRemapping !! r = None -> redirects idRemapping [r] [r].
Proof.
  intros Hr k ->%list_elem_of_singleton. left. split; [left | done].
Qed.

Lemma walkExpression_redirects e :
  ∀ n, redirects idRemapping (referencesOfExpression e)
                 (referencesOfExpression (walkExpression idRemapping e n).1).
Proof.
  induction e as [name r|name r|b member r IH|f args IHf IHargs
                 |label children IHc] using Expression_nested_ind;
    intros n; simpl.
  - destruct (idRemapping !! r) as [remapping|] eqn:Hr; simpl.
    + by eapply redirects_lookup.
    + by apply redirects_kept.
  - destruct (idRemapping !! r) as [remapping|] eqn:Hr; simpl.
    + by eapply redirects_lookup.
    + by apply redirects_kept.
  - destruct (idRemapping !! r) as [remapping|] eqn:Hr; simpl.
    + intros k ->%list_elem_of_singleton. right.
      exists r, remapping. split; [left | done].
    + specialize (IH n). destruct (walkExpression idRemapping b n) as [b' n1].
      simpl in *. apply (redirects_app [r] _ [r]); [by apply redirects_kept | done].
  - specialize (IHf n). destruct (walkExpression idRemapping f n) as [f' n1].
    pose proof (walkList_redirects referencesOfExpression _ _ IHargs n1) as Hargs.
    destruct (walkList _ args n1) as [args' n2]. simpl in *.
    by apply redirects_app.
  - pose proof (walkList_redirects referencesOfExpression _ _ IHc n) as Hc.
    destruct (walkList _ children n) as [children' n1]. done.
Qed.

Lemma walkExpressions_untouched l :
  untouched idRemapping (concat (referencesOfExpression <$> l)) ->
  ∀ n, walkList (walkExpression idRemapping) l n = (l, n).
Proof.
  apply (walkList_untouched referencesOfExpression).
  apply Forall_forall. intros e _. apply walkExpression_untouched.
Qed.

Lemma walkExpressions_redirects l n :
  redirects idRemapping (concat (referencesOfExpression <$> l))
    (concat (referencesOfExpression
               <$> (walkList (walkExpression idRemapping) l n).1)).
Proof.
  apply (walkList_redirects referencesOfExpression).
  apply Forall_forall. intros e _. apply walkExpression_redirects.
Qed.

(** *** Statements *)
Lemma walkStatement_untouched s :
  untouched idRemapping (referencesOfStatement s) ->
  ∀ n, walkStatement idRemapping s n = (s, n).
Proof.
  induction s as [e|p e|stmts IH|label exprs stmts IH]
    using Statement_nested_ind; intros Hrefs n; simpl in *.
  - by rewrite walkExpression_untouched.
  - destruct e as [e|]; simpl in *; [|done].
    by rewrite walkExpression_untouched.
  - by rewrite (walkList_untouched referencesOfStatement _ _ IH Hrefs).
  - apply untouched_app in Hrefs as [Hexprs Hstmts].
    rewrite walkExpressions_untouched by done.
    by rewrite (walkList_untouched referencesOfStatement _ _ IH Hstmts).
Qed.

Lemma walkStatement_redirects s :
  ∀ n, redirects idRemapping (referencesOfStatement s)
                 (referencesOfStatement (walkStatement idRemapping s n).1).
Proof.
  induction s as [e|p e|stmts IH|label exprs stmts IH]
    using Statement_nested_ind; intros n; simpl.
  - pose proof (walkExpression_redirects e n) as He.
    by destruct (walkExpression idRemapping e n).
  - destruct e as [e|]; simpl; [|apply redirects_nil].
    pose proof (walkExpression_redirects e n) as He.
    by destruct (walkExpression idRemapping e n).
  - pose proof (walkList_redirects referencesOfStatement _ _ IH n) as Hs.
    by destruct (walkList _ stmts n).
  - pose proof (walkExpressions_redirects exprs n) as He.
    destruct (walkList _ exprs n) as [exprs' n1].
    pose proof (walkList_redirects referencesOfStatement _ _ IH n1) as Hs.
    destruct (walkList _ stmts n1) as [stmts' n2]. simpl in *.
    by apply redirects_app.
Qed.

Lemma walkBody_untouched b :
  untouched idRemapping (referencesOfBody b) ->
  ∀ n, walkOption (walkList (walkStatement idRemapping)) b n = (b, n).
Proof.
  intros Hrefs. apply walkOption_id. intros stmts -> n. simpl in Hrefs.
  apply (walkList_untouched referencesOfStatement); [|done].
  apply Forall_forall. intros s _. apply walkStatement_untouched.
Qed.

Lemma walkBody_redirects b n :
  redirects idRemapping (referencesOfBody b)
    (referencesOfBody (walkOption (walkList (walkStatement idRemapping)) b n).1).
Proof.
  destruct b as [stmts|]; simpl; [|apply redirects_nil].
  pose proof (walkList_redirects referencesOfStatement
                (walkStatement idRemapping) stmts) as Hs.
  specialize (Hs ltac:(apply Forall_forall; intros s _;
                       apply walkStatement_redirects) n).
  by destruct (walkList _ stmts n).
Qed.

(** *** Declarations *)
Lemma walkNameNode_untouched x :
  untouched idRemapping (referencesOfNameNode x) ->
  ∀ n, walkNameNode idRemapping x n = (x, n).
Proof.
  intros Hrefs n. destruct x as [name r|name r|name r]; simpl in *;
    [| |done]; by rewrite Hrefs by left.
Qed.

Lemma walkNameNode_redirects x n :
  redirects idRemapping (referencesOfNameNode x)
            (referencesOfNameNode (walkNameNode idRemapping x n).1).
Proof.
  destruct x as [name r|name r|name r]; simpl; [| |apply redirects_nil];
    (destruct (idRemapping !! r) as [remapping|] eqn:Hr; simpl;
     [by eapply redirects_lookup | by apply redirects_kept]).
Qed.

Lemma walkVariableDeclaration_untouched v :
  untouched idRemapping (referencesOfVariable v) ->
  ∀ n, walkVariableDeclaration idRemapping v n = (v, n).
Proof.
  intros Hrefs n. unfold walkVariableDeclaration.
  rewrite (walkOption_id (walkExpression idRemapping) (v_value v)).
  - by destruct v.
  - intros e He. apply walkExpression_untouched.
    unfold referencesOfVariable in Hrefs. by rewrite He in Hrefs.
Qed.

Lemma walkVariableDeclaration_redirects v n :
  redirects idRemapping (referencesOfVariable v)
    (referencesOfVariable (walkVariableDeclaration idRemapping v n).1).
Proof.
  unfold walkVariableDeclaration, referencesOfVariable.
  destruct (v_value v) as [e|]; simpl; [|apply redirects_nil].
  pose proof (walkExpression_redirects e n) as He.
  by destruct (walkExpression idRemapping e n).
Qed.

Lemma walkParameterList_untouched p :
  untouched idRemapping (referencesOfParameters p) ->
  ∀ n, walkParameterList idRemapping p n = (p, n).
Proof.
  intros Hrefs n. unfold walkParameterList.
  rewrite (walkList_untouched referencesOfVariable); [by destruct p| |done].
  apply Forall_forall. intros v _. apply walkVariableDeclaration_untouched.
Qed.

Lemma walkParameterList_redirects p n :
  redirects idRemapping (referencesOfParameters p)
    (referencesOfParameters (walkParameterList idRemapping p n).1).
Proof.
  unfold walkParameterList, referencesOfParameters.
  pose proof (walkList_redirects referencesOfVariable
                (walkVariableDeclaration idRemapping) (pl_parameters p)) as Hp.
  specialize (Hp ltac:(apply Forall_forall; intros v _;
                       apply walkVariableDeclaration_redirects) n).
  by destruct (walkList _ (pl_parameters p) n).
Qed.

Lemma walkModifierInvocation_untouched m :
  untouched idRemapping (referencesOfInvocation m) ->
  ∀ n, walkModifierInvocation idRemapping m n = (m, n).
Proof.
  intros [Hname Hargs]%untouched_app n. unfold walkModifierInvocation.
  rewrite walkNameNode_untouched by done.
  rewrite walkExpressions_untouched by done. by destruct m.
Qed.

Lemma walkModifierInvocation_redirects m n :
  redirects idRemapping (referencesOfInvocation m)
    (referencesOfInvocation (walkModifierInvocation idRemapping m n).1).
Proof.
  unfold walkModifierInvocation, referencesOfInvocation.
  pose proof (walkNameNode_redirects (mi_modifierName m) n) as Hname.
  destruct (walkNameNode idRemapping (mi_modifierName m) n) as [name n1].
  pose proof (walkExpressions_redirects (mi_arguments m) n1) as Hargs.
  destruct (walkList _ (mi_arguments m) n1) as [args n2]. simpl in *.
  by apply redirects_app.
Qed.

Lemma walkFunctionDefinition_untouched f :
  untouched idRemapping (referencesOfFunction f) ->
  ∀ n, walkFunctionDefinition idRemapping f n = (f, n).
Proof.
  intros (Hps & (Hrs & (Hms & Hb)%untouched_app)%untouched_app)%untouched_app n.
  unfold walkFunctionDefinition.
  rewrite !walkParameterList_untouched by done.
  rewrite (walkList_untouched referencesOfInvocation); [| |done].
  - rewrite walkBody_untouched by done. by destruct f.
  - apply Forall_forall. intros m _. apply walkModifierInvocation_untouched.
Qed.

Lemma walkFunctionDefinition_redirects f n :
  redirects idRemapping (referencesOfFunction f)
    (referencesOfFunction (walkFunctionDefinition idRemapping f n).1).
Proof.
  unfold walkFunctionDefinition, referencesOfFunction.
  pose proof (walkParameterList_redirects (f_parameters f) n) as Hps.
  destruct (walkParameterList idRemapping (f_parameters f) n) as [ps n1].
  pose proof (walkParameterList_redirects (f_returnParameters f) n1) as Hrs.
  destruct (walkParameterList idRemapping (f_returnParameters f) n1) as [rs n2].
  pose proof (walkList_redirects referencesOfInvocation
                (walkModifierInvocation idRemapping) (f_modifiers f)) as Hms.
  specialize (Hms ltac:(apply Forall_forall; intros m _;
                        apply walkModifierInvocation_redirects) n2).
  destruct (walkList _ (f_modifiers f) n2) as [ms n3].
  pose proof (walkBody_redirects (f_body f) n3) as Hb.
  destruct (walkOption _ (f_body f) n3) as [b n4]. simpl in *.
  repeat apply redirects_app; done.
Qed.

Lemma walkModifierDefinition_untouched m :
  untouched idRemapping (referencesOfModifier m) ->
  ∀ n, walkModifierDefinition idRemapping m n = (m, n).
Proof.
  intros [Hps Hb]%untouched_app n. unfold walkModifierDefinition.
  rewrite walkParameterList_untouched by done.
  rewrite walkBody_untouched by done. by destruct m.
Qed.

Lemma walkModifierDefinition_redirects m n :
  redirects idRemapping (referencesOfModifier m)
    (referencesOfModifier (walkModifierDefinition idRemapping m n).1).
Proof.
  unfold walkModifierDefinition, referencesOfModifier.
  pose proof (walkParameterList_redirects (m_parameters m) n) as Hps.
  destruct (walkParameterList idRemapping (m_parameters m) n) as [ps n1].
  pose proof (walkBody_redirects (m_body m) n1) as Hb.
  destruct (walkOption _ (m_body m) n1) as [b n2]. simpl in *.
  by apply redirects_app.
Qed.

Lemma walkChild_untouched ch :
  untouched idRemapping (referencesOfChild ch) ->
  ∀ n, walkChild idRemapping ch n = (ch, n).
Proof.
  intros Hrefs n. destruct ch as [s|v|f|m|label]; simpl in *.
  - apply untouched_app in Hrefs as [Hbase Hargs].
    rewrite walkNameNode_untouched by done.
    rewrite walkExpressions_untouched by done. by destruct s.
  - by rewrite walkVariableDeclaration_untouched.
  - by rewrite walkFunctionDefinition_untouched.
  - by rewrite walkModifierDefinition_untouched.
  - done.
Qed.

Lemma walkChild_redirects ch n :
  redirects idRemapping (referencesOfChild ch)
            (referencesOfChild (walkChild idRemapping ch n).1).
Proof.
  destruct ch as [s|v|f|m|label]; simpl.
  - pose proof (walkNameNode_redirects (is_baseType s) n) as Hbase.
    destruct (walkNameNode idRemapping (is_baseType s) n) as [base n1].
    pose proof (walkExpressions_redirects (is_arguments s) n1) as Hargs.
    destruct (walkList _ (is_arguments s) n1) as [args n2]. simpl in *.
    by apply redirects_app.
  - pose proof (walkVariableDeclaration_redirects v n) as Hv.
    by destruct (walkVariableDeclaration idRemapping v n).
  - pose proof (walkFunctionDefinition_redirects f n) as Hf.
    by destruct (walkFunctionDefinition idRemapping f n).
  - pose proof (walkModifierDefinition_redirects m n) as Hm.
    by destruct (walkModifierDefinition idRemapping m n).
  - apply redirects_nil.
Qed.

End Rewriting.

(** X15.
    Where no reference in the contract is a key of the mapping,
    [updateReferencedDeclarations] leaves the store exactly as it was. *)
Theorem updateReferencedDeclarations_without_remapped_references
    {V : Type} `{Declaration V} (node : nat) (idRemapping : gmap nat V)
    (ast : AST) (c : ContractDefinition) :
  context ast !! node = Some c ->
  (∀ r, r ∈ referencesOf c -> idRemapping !! r = None) ->
  updateReferencedDeclarations node idRemapping ast = Ok (tt, ast).
Proof.
  intros Hc Hrefs. unfold updateReferencedDeclarations. rewrite Hc.
  rewrite (walkList_untouched idRemapping referencesOfChild); [| |exact Hrefs].
  - f_equal. f_equal. destruct ast as [r ctx n]. simpl in *. f_equal.
    apply insert_id. rewrite Hc. by destruct c.
  - apply Forall_forall. intros ch _. apply walkChild_untouched.
Qed.

Lemma updateReferencedDeclarations_without_remapped_references_witness :
  updateReferencedDeclarations 2 (∅ : gmap nat FunctionDefinition) Samples.calling
  = Ok (tt, Samples.calling).
Proof.
  apply (updateReferencedDeclarations_without_remapped_references
           2 ∅ Samples.calling Samples.DerivedCalling).
  - reflexivity.
  - intros r _. apply lookup_empty.
Defined.

Lemma updateReferencedDeclarations_redirects
    {V : Type} `{Declaration V} (node : nat) (idRemapping : gmap nat V)
    (ast ast' : AST) (c : ContractDefinition) :
  context ast !! node = Some c ->
  updateReferencedDeclarations node idRemapping ast = Ok (tt, ast') ->
  ∃ c',
    context ast' !! node = Some c'
    ∧ redirects idRemapping (referencesOf c) (referencesOf c').
Proof.
  intros Hc Hrun. unfold updateReferencedDeclarations in Hrun. rewrite Hc in Hrun.
  pose proof (walkList_redirects idRemapping referencesOfChild
                (walkChild idRemapping) (c_children c)) as Hwalk.
  specialize (Hwalk ltac:(apply Forall_forall; intros ch _;
                          apply walkChild_redirects) (nextId ast)).
  destruct (walkList _ (c_children c) (nextId ast)) as [chs n].
  injection Hrun as <-. simpl in *.
  exists (setChildren c chs). split; [apply lookup_insert_eq | exact Hwalk].
Qed.

(** X16.
    After [updateReferencedDeclarations] every reference in the contract is
    one that was there and is not remapped, or the id of the declaration a
    reference that was there is remapped to; and where no key of the
    mapping is the id of a replacement, no remapped reference is left. *)
Theorem updateReferencedDeclarations_redirects_the_references
    {V : Type} `{Declaration V} (node : nat) (idRemapping : gmap nat V)
    (ast ast' : AST) (c : ContractDefinition) :
  context ast !! node = Some c ->
  updateReferencedDeclarations node idRemapping ast = Ok (tt, ast') ->
  ∃ c',
    context ast' !! node = Some c'
    ∧ (∀ r, r ∈ referencesOf c' ->
            (r ∈ referencesOf c ∧ idRemapping !! r = None)
            ∨ ∃ k v, k ∈ referencesOf c ∧ idRemapping !! k = Some v
                     ∧ r = decl_id v)
    ∧ ((∀ k v, idRemapping !! k = Some v -> idRemapping !! decl_id v = None) ->
       ∀ r, r ∈ referencesOf c' -> idRemapping !! r = None).
Proof.
  intros Hc Hrun.
  destruct (updateReferencedDeclarations_redirects _ _ _ _ _ Hc Hrun)
    as (c' & Hc' & Hwalk).
  exists c'. split; [done|]. split; [exact Hwalk|].
  intros Hfresh r Hr. destruct (Hwalk r Hr) as [[_ Hnone]|(k & v & _ & Hv & ->)];
    [done | by eapply Hfresh].
Qed.

Lemma updateReferencedDeclarations_redirects_the_references_witness :
  ∃ c',
    context Samples.callingRewritten !! 2 = Some c'
    ∧ (∀ r, r ∈ referencesOf c' ->
            (r ∈ referencesOf Samples.DerivedCalling
             ∧ ({[30 := Samples.fooCopy]} : gmap nat FunctionDefinition) !! r = None)
            ∨ ∃ k v, k ∈ referencesOf Samples.DerivedCalling
                     ∧ ({[30 := Samples.fooCopy]} : gmap nat FunctionDefinition) !! k
                       = Some v
                     ∧ r = decl_id v)
    ∧ ((∀ k v, ({[30 := Samples.fooCopy]} : gmap nat FunctionDefinition) !! k = Some v ->
               ({[30 := Samples.fooCopy]} : gmap nat FunctionDefinition) !! decl_id v
               = None) ->
       ∀ r, r ∈ referencesOf c' ->
            ({[30 := Samples.fooCopy]} : gmap nat FunctionDefinition) !! r = None).
Proof.
  apply (updateReferencedDeclarations_redirects_the_references
           2 {[30 := Samples.fooCopy]} Samples.calling Samples.callingRewritten Samples.DerivedCalling).
  - reflexivity.
  - vm_compute. reflexivity.
Defined.

(** ** The declarations through the reference rewriter *)

Lemma sameHeader_refl f : sameHeader f f.
Proof. by repeat split. Qed.

Lemma sameHeader_trans f g h : sameHeader f g -> sameHeader g h -> sameHeader f h.
Proof. unfold sameHeader. intuition congruence. Qed.

Lemma sameDeclaration_refl ch : sameDeclaration ch ch.
Proof. destruct ch; simpl; try done. Qed.

Lemma sameDeclaration_trans a b c :
  sameDeclaration a b -> sameDeclaration b c -> sameDeclaration a c.
Proof.
  destruct a, b, c; simpl; try done; try (intuition congruence).
  apply sameHeader_trans.
Qed.

Lemma sameDeclarations_refl chs : Forall2 sameDeclaration chs chs.
Proof. apply Forall_Forall2_diag, Forall_forall. intros ch _. apply sameDeclaration_refl. Qed.

Lemma sameDeclarations_trans a b c :
  Forall2 sameDeclaration a b -> Forall2 sameDeclaration b c ->
  Forall2 sameDeclaration a c.
Proof.
  intros Hab. revert c. induction Hab as [|x y a b Hxy _ IH]; intros c Hbc;
    inversion Hbc; subst; constructor; [by eapply sameDeclaration_trans | by apply IH].
Qed.

Section WalkKeepsDeclarations.

Context {V : Type} `{Declaration V} (idRemapping : gmap nat V).

Lemma walkParameterList_shape p n :
  shape (walkParameterList idRemapping p n).1 = shape p
  ∧ pl_id (walkParameterList idRemapping p n).1 = pl_id p.
Proof.
  unfold walkParameterList, shape.
  pose proof (walkList_Forall2 (walkVariableDeclaration idRemapping)
                (fun v v' => (v_name v', v_typeString v')
                             = (v_name v, v_typeString v))
                (pl_parameters p)) as Hps.
  specialize (Hps ltac:(apply Forall_forall; intros v _ k;
                        unfold walkVariableDeclaration;
                        by destruct (walkOption _ (v_value v) k)) n).
  destruct (walkList _ (pl_parameters p) n) as [ps n1]. simpl in *.
  split; [|done]. clear -Hps.
  induction Hps as [|v v' l l' Hv _ IH]; [done|].
  rewrite !fmap_cons. by f_equal.
Qed.

Lemma walkChild_sameDeclaration ch n :
  sameDeclaration ch (walkChild idRemapping ch n).1.
Proof.
  destruct ch as [s|v|f|m|label]; simpl.
  - destruct (walkNameNode _ _ _) as [? ?], (walkList _ _ _) as [? ?]. done.
  - unfold walkVariableDeclaration. by destruct (walkOption _ _ _).
  - unfold walkFunctionDefinition.
    pose proof (walkParameterList_shape (f_parameters f) n) as [Hps _].
    destruct (walkParameterList idRemapping (f_parameters f) n) as [ps n1].
    pose proof (walkParameterList_shape (f_returnParameters f) n1) as [Hrs _].
    destruct (walkParameterList idRemapping (f_returnParameters f) n1) as [rs n2].
    destruct (walkList _ (f_modifiers f) n2) as [ms n3].
    destruct (walkOption _ (f_body f) n3) as [b n4]. simpl in *.
    by repeat split.
  - unfold walkModifierDefinition.
    pose proof (walkParameterList_shape (m_parameters m) n) as [Hps _].
    destruct (walkParameterList idRemapping (m_parameters m) n) as [ps n1].
    destruct (walkOption _ (m_body m) n1) as [b n2]. simpl in *. done.
  - done.
Qed.

Lemma walkChildren_sameDeclaration chs n :
  Forall2 sameDeclaration chs (walkList (walkChild idRemapping) chs n).1.
Proof.
  apply (walkList_Forall2 (walkChild idRemapping) sameDeclaration).
  apply Forall_forall. intros ch _ k. apply walkChild_sameDeclaration.
Qed.

End WalkKeepsDeclarations.

(** X17.
    [updateReferencedDeclarations] rewrites the one contract it is given
    and changes references only: the name and the linearization of the
    contract are kept, and its children are as many, in the same order,
    each of the same sort with the same id, name, visibility and
    signature. *)
Theorem updateReferencedDeclarations_keeps_the_declarations
    {V : Type} `{Declaration V} (node : nat) (idRemapping : gmap nat V)
    (ast ast' : AST) (c : ContractDefinition) :
  context ast !! node = Some c ->
  updateReferencedDeclarations node idRemapping ast = Ok (tt, ast') ->
  ∃ c',
    context ast' = <[node := c']> (context ast)
    ∧ roots ast' = roots ast
    ∧ c_name c' = c_name c
    ∧ linearizedBaseContracts c' = linearizedBaseContracts c
    ∧ Forall2 sameDeclaration (c_children c) (c_children c').
Proof.
  intros Hc Hrun. unfold updateReferencedDeclarations in Hrun. rewrite Hc in Hrun.
  pose proof (walkChildren_sameDeclaration idRemapping (c_children c) (nextId ast))
    as Hwalk.
  destruct (walkList _ (c_children c) (nextId ast)) as [chs n].
  injection Hrun as <-. by exists (setChildren c chs).
Qed.

Lemma updateReferencedDeclarations_keeps_the_declarations_witness :
  ∃ c',
    context Samples.callingRewritten = <[2 := c']> (context Samples.calling)
    ∧ roots Samples.callingRewritten = roots Samples.calling
    ∧ c_name c' = c_name Samples.DerivedCalling
    ∧ linearizedBaseContracts c' = linearizedBaseContracts Samples.DerivedCalling
    ∧ Forall2 sameDeclaration (c_children Samples.DerivedCalling) (c_children c').
Proof.
  apply (updateReferencedDeclarations_keeps_the_declarations
           2 ({[30 := Samples.fooCopy]} : gmap nat FunctionDefinition)
           Samples.calling Samples.callingRewritten Samples.DerivedCalling).
  - reflexivity.
  - vm_compute. reflexivity.
Defined.

(** ** What a visit keeps of the contract *)

Lemma sameDeclaration_isVariable ch ch' :
  sameDeclaration ch ch' -> isVariable ch -> isVariable ch'.
Proof. by destruct ch, ch'. Qed.

Lemma sameDeclaration_isFunctionOrModifier ch ch' :
  sameDeclaration ch ch' -> isFunctionOrModifier ch -> isFunctionOrModifier ch'.
Proof. by destruct ch, ch'. Qed.

Lemma Forall2_Forall_r {A} (P : A -> A -> Prop) (Q : A -> Prop) l l' :
  (∀ x y, P x y -> Q x -> Q y) -> Forall2 P l l' -> Forall Q l -> Forall Q l'.
Proof.
  intros HPQ. induction 1 as [|x y l l' Hxy _ IH]; intros Hl; [constructor|].
  apply Forall_cons in Hl as [Hx Hl]. constructor; [by eapply HPQ | by apply IH].
Qed.

Lemma grownFrom_refl chs : grownFrom chs chs.
Proof.
  exists [], chs, []. rewrite app_nil_r. repeat split; try constructor.
  apply sameDeclarations_refl.
Qed.

Lemma grownFrom_trans a b c : grownFrom a b -> grownFrom b c -> grownFrom a c.
Proof.
  intros (f1 & k1 & b1 & -> & Hf1 & Hk1 & Hb1) (f2 & k2 & b2 & -> & Hf2 & Hk2 & Hb2).
  apply Forall2_app_inv_l in Hk2 as (f1' & rest & Hf1' & Hrest & ->).
  apply Forall2_app_inv_l in Hrest as (k1' & b1' & Hk1' & Hb1' & ->).
  exists (f2 ++ f1'), k1', (b1' ++ b2). split; [by rewrite <- !app_assoc|].
  split.
  { apply Forall_app. split; [done|].
    eapply Forall2_Forall_r; [apply sameDeclaration_isVariable | done | done]. }
  split; [by eapply sameDeclarations_trans|].
  apply Forall_app. split; [|done].
  eapply Forall2_Forall_r; [apply sameDeclaration_isFunctionOrModifier | done | done].
Qed.

Lemma keepsDeclarations_refl node ast : keepsDeclarations node ast ast.
Proof. intros c Hc. exists c. split; [done | apply grownFrom_refl]. Qed.

Lemma keepsDeclarations_trans node a b c :
  keepsDeclarations node a b -> keepsDeclarations node b c ->
  keepsDeclarations node a c.
Proof.
  intros Hab Hbc x Hx. destruct (Hab x Hx) as (y & Hy & Hxy).
  destruct (Hbc y Hy) as (z & Hz & Hyz). exists z. split; [done|].
  by eapply grownFrom_trans.
Qed.

Lemma declarations_reserveId node : preserves (keepsDeclarations node) reserveId.
Proof.
  intros ast a ast' [= _ <-] c Hc. exists c. split; [done | apply grownFrom_refl].
Qed.

Lemma declarations_modifyChildren node n g :
  (∀ chs, grownFrom chs (g chs)) ->
  preserves (keepsDeclarations node) (modifyChildren n g).
Proof.
  intros Hg ast a ast'. unfold modifyChildren.
  destruct (context ast !! n) as [x|] eqn:Hx; [|discriminate].
  intros [= _ <-] c Hc. simpl.
  destruct (decide (n = node)) as [->|Hne].
  - rewrite lookup_insert_eq. eexists. split; [done|]. simpl.
    rewrite Hx in Hc. injection Hc as <-. apply Hg.
  - rewrite lookup_insert_ne by done. exists c. split; [done|].
    apply grownFrom_refl.
Qed.

Lemma grownFrom_append_function chs f : grownFrom chs (chs ++ [ChildFunction f]).
Proof.
  exists [], chs, [ChildFunction f]. repeat split; try constructor; try done.
  apply sameDeclarations_refl.
Qed.

Lemma grownFrom_append_modifier chs m : grownFrom chs (chs ++ [ChildModifier m]).
Proof.
  exists [], chs, [ChildModifier m]. repeat split; try constructor; try done.
  apply sameDeclarations_refl.
Qed.

Lemma grownFrom_prepend_variable chs v : grownFrom chs (ChildVariable v :: chs).
Proof.
  exists [ChildVariable v], chs, []. rewrite app_nil_r.
  repeat split; try constructor; try done. apply sameDeclarations_refl.
Qed.

Lemma grownFrom_same chs chs' : Forall2 sameDeclaration chs chs' -> grownFrom chs chs'.
Proof.
  intros Hsame. exists [], chs', []. rewrite app_nil_r.
  repeat split; try constructor; done.
Qed.

Lemma updateConstructor_sameDeclaration g chs :
  (∀ f, ChildFunction f ∈ chs -> isConstructorKind f = true ->
        sameHeader f (g f)) ->
  Forall2 sameDeclaration chs (updateConstructor g chs).
Proof.
  induction chs as [|ch chs IH]; intros Hg; [constructor|].
  assert (Forall2 sameDeclaration chs (updateConstructor g chs)) as Hrest
    by (apply IH; intros f Hf; apply Hg; by right).
  destruct ch as [s|v|f|m|label]; simpl;
    try (constructor; [apply sameDeclaration_refl | exact Hrest]).
  destruct (isConstructorKind f) eqn:Hkind.
  - constructor; [|apply sameDeclarations_refl]. simpl. apply Hg; [left | done].
  - constructor; [apply sameDeclaration_refl | exact Hrest].
Qed.

Lemma sameHeader_setBody body f : sameHeader f (setBody body f).
Proof. by repeat split. Qed.

Lemma declarations_updateReferencedDeclarations {V} `{Declaration V}
    node n (idRemapping : gmap nat V) :
  preserves (keepsDeclarations node)
            (updateReferencedDeclarations n idRemapping).
Proof.
  intros ast a ast' Hrun c Hc. unfold updateReferencedDeclarations in Hrun.
  destruct (context ast !! n) as [x|] eqn:Hx; [|discriminate].
  pose proof (walkChildren_sameDeclaration idRemapping (c_children x) (nextId ast))
    as Hwalk.
  destruct (walkList _ (c_children x) (nextId ast)) as [chs k].
  injection Hrun as _ <-. simpl.
  destruct (decide (n = node)) as [->|Hne].
  - rewrite lookup_insert_eq. eexists. split; [done|].
    rewrite Hx in Hc. injection Hc as <-. by apply grownFrom_same.
  - rewrite lookup_insert_ne by done. exists c. split; [done|].
    apply grownFrom_refl.
Qed.

Ltac declarations_prim :=
  first [ apply declarations_reserveId
        | apply declarations_updateReferencedDeclarations
        | apply declarations_modifyChildren; intros ?;
          first [ apply grownFrom_append_function
                | apply grownFrom_append_modifier
                | apply grownFrom_prepend_variable
                | apply grownFrom_same, updateConstructor_sameDeclaration;
                  intros ? _ _; apply sameHeader_setBody ] ].

Section KeepsDeclarations.

Variable node : nat.

Local Ltac walk :=
  preserves_walk (keepsDeclarations_refl node) (keepsDeclarations_trans node)
                 declarations_prim.

Lemma declarations_callConstructors n c args constructors :
  preserves (keepsDeclarations node) (callConstructors n c args constructors).
Proof. unfold callConstructors, callConstructor. walk. Qed.

Lemma declarations_collectConstructors c :
  preserves (keepsDeclarations node) (collectConstructors c).
Proof. unfold collectConstructors, collectConstructor. walk. Qed.

Lemma declarations_addPrivateSuperFunctions n idRemapping :
  preserves (keepsDeclarations node) (addPrivateSuperFunctions n idRemapping).
Proof. unfold addPrivateSuperFunctions, inlineBase. walk. Qed.

Lemma declarations_addNonoverridenPublicFunctions n idRemapping :
  preserves (keepsDeclarations node)
            (addNonoverridenPublicFunctions n idRemapping).
Proof. unfold addNonoverridenPublicFunctions, promote. walk. Qed.

Lemma declarations_addStorageVariables n idRemapping :
  preserves (keepsDeclarations node) (addStorageVariables n idRemapping).
Proof. unfold addStorageVariables, collectBase, inheritVariable. walk. Qed.

Lemma declarations_addNonOverridenModifiers n idRemapping :
  preserves (keepsDeclarations node) (addNonOverridenModifiers n idRemapping).
Proof. unfold addNonOverridenModifiers. walk. Qed.

End KeepsDeclarations.

Lemma updateConstructor_first g chs name lin self :
  vConstructor (mkContractDefinition name lin chs) = Some self ->
  sameHeader self (g self) ->
  Forall2 sameDeclaration chs (updateConstructor g chs).
Proof.
  unfold vConstructor, vFunctions. simpl.
  induction chs as [|ch chs IH]; intros Hself Hg; [constructor|].
  destruct ch as [s|v|f|m|label]; simpl in *;
    try (constructor; [done | by apply IH]).
  destruct (isConstructorKind f) eqn:Hkind.
  - rewrite filter_cons_True in Hself by done. injection Hself as ->.
    constructor; [done | apply sameDeclarations_refl].
  - rewrite filter_cons_False in Hself by (by rewrite Hkind).
    constructor; [apply sameHeader_refl | by apply IH].
Qed.

Lemma declarations_solveConstructorInheritance node :
  preserves (keepsDeclarations node) (solveConstructorInheritance node).
Proof.
  intros ast a ast' Hrun. unfold solveConstructorInheritance in Hrun.
  apply bind_Ok in Hrun as (c & ast0 & [Hc ->]%locate_Ok & Hrun).
  apply bind_Ok in Hrun as ([args constructors] & ast1 & Hcollect & Hrun).
  apply bind_Ok in Hrun as (statements & ast2 & Hcall & Hrun).
  apply declarations_collectConstructors with (node := node) in Hcollect.
  apply declarations_callConstructors with (node := node) in Hcall.
  eapply keepsDeclarations_trans; [exact Hcollect|].
  eapply keepsDeclarations_trans; [exact Hcall|].
  case_bool_decide.
  2:{ injection Hrun as _ <-. apply keepsDeclarations_refl. }
  apply bind_Ok in Hrun as (c2 & ast3 & [Hc2 ->]%locate_Ok & Hrun).
  destruct (vConstructor c2) as [self|] eqn:Hself.
  - destruct (f_body self) as [body|].
    + assert (preserves (keepsDeclarations node)
                (let* cloned := cloneBlock body in
                 let* newBody := createBlock (statements ++ cloned) in
                 modifyChildren node (updateConstructor (setBody newBody))))
        as Htail
        by (preserves_walk (keepsDeclarations_refl node)
              (keepsDeclarations_trans node) declarations_prim).
      exact (Htail _ _ _ Hrun).
    + apply bind_Ok in Hrun as (withBody & ast3 & Hbody & Hrun).
      assert (preserves sameContext (generateBody statements self)) as Hsame
        by sameContext_walk.
      specialize (Hsame _ _ _ Hbody).
      unfold generateBody in Hbody.
      apply bind_Ok in Hbody as (newBody & ast4 & _ & Hbody).
      injection Hbody as <- _.
      unfold modifyChildren in Hrun. rewrite Hsame, Hc2 in Hrun.
      injection Hrun as _ <-.
      intros x Hx. rewrite Hc2 in Hx. injection Hx as <-.
      eexists. split; [apply lookup_insert_eq|]. simpl.
      apply grownFrom_same. destruct c2 as [name lin chs].
      eapply updateConstructor_first; [exact Hself|]. apply sameHeader_setBody.
  - assert (preserves (keepsDeclarations node)
              (let* selfConstructor := createDefaultConstructor node in
               let* _ := generateBody statements selfConstructor in
               ret tt)) as Htail
      by (preserves_walk (keepsDeclarations_refl node)
            (keepsDeclarations_trans node) declarations_prim).
    exact (Htail _ _ _ Hrun).
Qed.

(** X5.
    A visit that returns leaves every child of the contract in its place
    and with its header: the children are then state variables put in
    front, the children the contract had, each of the same sort with the
    same id, name, kind, visibility and signature (only what is below a
    declaration may be rewritten), and functions and modifiers appended.
    The linearization of the contract, the other contracts and the units
    are as before. *)
Theorem visitContractDefinition_keeps_the_declarations
    (node : nat) (c : ContractDefinition) (ast ast' : AST) :
  context ast !! node = Some c ->
  visit node ast = Ok (tt, ast') ->
  ∃ c' front kept back,
    context ast' !! node = Some c'
    ∧ c_children c' = front ++ kept ++ back
    ∧ Forall isVariable front
    ∧ Forall2 sameDeclaration (c_children c) kept
    ∧ Forall isFunctionOrModifier back
    ∧ linearizedBaseContracts c' = linearizedBaseContracts c
    ∧ (∀ k, k ≠ node -> context ast' !! k = context ast !! k)
    ∧ roots ast' = roots ast.
Proof.
  intros Hc Hrun.
  pose proof (frame_visitContractDefinition [node] node ltac:(left) _ _ _ Hrun)
    as (Hroots & Hother & Hlin).
  assert (keepsDeclarations node ast ast') as Hkeeps.
  { destruct (decide (length (linearizedBaseContracts c) < 2)) as [Hleaf|Hlen].
    - unfold visitContractDefinition, bind in Hrun.
      rewrite (locate_run _ _ _ Hc) in Hrun.
      rewrite bool_decide_eq_true_2 in Hrun by done.
      injection Hrun as <-. apply keepsDeclarations_refl.
    - destruct (visit_steps node c ast ast' Hc ltac:(lia) Hrun)
        as (fr & vr & mr & ast1 & ast2 & ast3 & ast4 & ast5 & ast6 & ast7
            & H1 & H2 & H3 & H4 & H5 & H6 & H7 & H8).
      apply declarations_solveConstructorInheritance in H1.
      apply declarations_addPrivateSuperFunctions with (node := node) in H2.
      apply declarations_addNonoverridenPublicFunctions with (node := node) in H3.
      apply declarations_addStorageVariables with (node := node) in H4.
      apply declarations_addNonOverridenModifiers with (node := node) in H5.
      apply declarations_updateReferencedDeclarations with (node := node) in H6.
      apply declarations_updateReferencedDeclarations with (node := node) in H7.
      apply declarations_updateReferencedDeclarations with (node := node) in H8.
      repeat (eapply keepsDeclarations_trans; [eassumption|]).
      apply keepsDeclarations_refl. }
  destruct (Hkeeps c Hc) as (c' & Hc' & front & kept & back & Hch & Hf & Hk & Hb).
  exists c', front, kept, back. repeat split; try done.
  - specialize (Hlin node). unfold linearizationOf in Hlin.
    rewrite Hc, Hc' in Hlin. by injection Hlin.
  - intros k Hk'. apply Hother. by intros ->%list_elem_of_singleton.
Qed.

Lemma visitContractDefinition_keeps_the_declarations_witness :
  ∃ c' front kept back,
    context Samples.callingFlattened !! 2 = Some c'
    ∧ c_children c' = front ++ kept ++ back
    ∧ Forall isVariable front
    ∧ Forall2 sameDeclaration (c_children Samples.DerivedCalling) kept
    ∧ Forall isFunctionOrModifier back
    ∧ linearizedBaseContracts c' = linearizedBaseContracts Samples.DerivedCalling
    ∧ (∀ k, k ≠ 2 -> context Samples.callingFlattened !! k = context Samples.calling !! k)
    ∧ roots Samples.callingFlattened = roots Samples.calling.
Proof.
  apply (visitContractDefinition_keeps_the_declarations
           2 Samples.DerivedCalling Samples.calling Samples.callingFlattened).
  - reflexivity.
  - vm_compute. reflexivity.
Defined.

(** ** The names of the private copies *)

Lemma noUnderscore_pretty_N_go x : ∀ s,
  noUnderscore s -> noUnderscore (pretty_N_go x s).
Proof.
  induction (N.lt_wf_0 x) as [x _ IH]; intros s Hs.
  assert (x = 0 ∨ 0 < x)%N as [->|Hpos] by lia.
  - by rewrite pretty_N_go_0.
  - rewrite pretty_N_go_step by done. apply IH.
    { by apply N.div_lt. }
    simpl. split; [|done]. unfold pretty_N_char. by repeat case_match.
Qed.

Lemma noUnderscore_pretty (n : nat) : noUnderscore (pretty n).
Proof.
  unfold pretty, pretty_nat, pretty, pretty_N. case_decide.
  - simpl. split; [done|]. done.
  - by apply noUnderscore_pretty_N_go.
Qed.

Lemma noUnderscore_append s1 s2 : ¬ noUnderscore (s1 +:+ String "_" s2).
Proof.
  induction s1 as [|a s1 IH]; simpl.
  - intros [Hne _]. done.
  - intros [_ Hrest]. by apply IH.
Qed.

Lemma append_underscore_inj a : ∀ c b d,
  noUnderscore b -> noUnderscore d ->
  a +:+ String "_" b = c +:+ String "_" d -> a = c ∧ b = d.
Proof.
  induction a as [|x a IH]; intros [|y c] b d Hb Hd Heq; simpl in Heq.
  - by injection Heq as ->.
  - injection Heq as _ ->. by apply noUnderscore_append in Hb.
  - injection Heq as _ <-. by apply noUnderscore_append in Hd.
  - injection Heq as -> Heq. destruct (IH _ _ _ Hb Hd Heq) as [-> ->]. done.
Qed.

(** The suffix tells the name and the depth apart. *)
Lemma suffixed_inj name1 depth1 name2 depth2 :
  suffixed name1 depth1 = suffixed name2 depth2 ->
  name1 = name2 ∧ depth1 = depth2.
Proof.
  unfold suffixed. intros Heq.
  change (name1 +:+ String "_" (String "s" (pretty (depth1 + 1)))
          = name2 +:+ String "_" (String "s" (pretty (depth2 + 1)))) in Heq.
  apply append_underscore_inj in Heq as [-> Heq].
  - split; [done|]. injection Heq as Heq. apply (inj pretty) in Heq. lia.
  - simpl. split; [done | apply noUnderscore_pretty].
  - simpl. split; [done | apply noUnderscore_pretty].
Qed.

(** X12.
    Where no base declares two functions of one name, the private copies
    [addPrivateSuperFunctions] appends have pairwise different names, also
    where a name ends in a suffix like the one it adds: the names of the
    pass do not collide with each other. *)
Theorem addPrivateSuperFunctions_copies_bear_distinct_names
    (node : nat) (c : ContractDefinition) (bs : list ContractDefinition)
    (ast : AST) :
  context ast !! node = Some c ->
  located ast (getBaseContracts c) bs ->
  node ∉ getBaseContracts c ->
  NoDup ((fun df => (df.1, f_name df.2)) <$> superFunctions bs) ->
  ∃ idRemapping ast' privs,
    addPrivateSuperFunctions node ∅ ast = Ok (idRemapping, ast')
    ∧ context ast' !! node
      = Some (setChildren c (c_children c ++ (ChildFunction <$> privs)))
    ∧ NoDup (f_name <$> privs).
Proof.
  intros Hc Hbs Hself Hnames.
  destruct (addPrivateSuperFunctions_run node c bs ast Hc Hbs Hself)
    as (clones & ast' & Hrun & Hctx & Hcopies).
  exists (record ∅ clones), ast', (clones.*2).
  split; [done|]. split; [rewrite Hctx; apply lookup_insert_eq|].
  assert (f_name <$> clones.*2
          = (fun p : nat * string => suffixed p.2 p.1)
              <$> ((fun df : nat * FunctionDefinition => (df.1, f_name df.2))
                     <$> superFunctions bs)) as ->.
  { clear -Hcopies.
    induction Hcopies as [|df p dfs ps (_ & (Hname & _) & _) _ IH]; [done|].
    rewrite !fmap_cons. simpl. by f_equal. }
  apply NoDup_fmap_2_strong; [|done].
  intros [d1 n1] [d2 n2] _ _ Heq. simpl in Heq.
  by apply suffixed_inj in Heq as [-> ->].
Qed.

Lemma addPrivateSuperFunctions_copies_bear_distinct_names_witness :
  ∃ idRemapping ast' privs,
    addPrivateSuperFunctions 3 ∅ Samples.twoBases = Ok (idRemapping, ast')
    ∧ context ast' !! 3
      = Some (setChildren Samples.DerivedOfTwo
                (c_children Samples.DerivedOfTwo ++ (ChildFunction <$> privs)))
    ∧ NoDup (f_name <$> privs).
Proof.
  apply (addPrivateSuperFunctions_copies_bear_distinct_names
           3 Samples.DerivedOfTwo [Samples.Left; Samples.Right]
           Samples.twoBases).
  - reflexivity.
  - repeat constructor.
  - intros Hin. apply elem_of_cons in Hin as [Heq|Hin]; [discriminate|].
    apply list_elem_of_singleton in Hin. discriminate.
  - change (NoDup [(0, "foo"); (0, "bar"); (1, "foo"); (1, "foo_s1")]).
    repeat (apply NoDup_cons; split;
            [rewrite ?elem_of_cons, elem_of_nil; intros Hin;
             repeat destruct Hin as [Hin|Hin]; congruence|]).
    apply NoDup_nil_2.
Defined.

(** The copies of that hierarchy: four, the two of [foo] told apart by the
    depth, and the copy of [foo_s1] of the farther base is not the copy of
    [foo] of the nearer. *)
Example addPrivateSuperFunctions_names_of_two_bases :
  ∃ idRemapping ast' c',
    addPrivateSuperFunctions 3 ∅ Samples.twoBases = Ok (idRemapping, ast')
    ∧ context ast' !! 3 = Some c'
    ∧ f_name <$> vFunctions c' = ["foo_s1"; "bar_s1"; "foo_s2"; "foo_s1_s2"].
Proof.
  eexists _, _, _. split; [vm_compute; reflexivity|].
  split; [vm_compute; reflexivity|]. reflexivity.
Qed.

(** ** The errors of [map] *)

Lemma frame_linearization touched ast ast' k c :
  frame touched ast ast' -> context ast !! k = Some c ->
  ∃ c', context ast' !! k = Some c'
        ∧ linearizedBaseContracts c' = linearizedBaseContracts c.
Proof.
  intros (_ & _ & Hlin) Hc. specialize (Hlin k). unfold linearizationOf in Hlin.
  rewrite Hc in Hlin. destruct (context ast' !! k) as [c'|]; [|done].
  injection Hlin as Hlin. by exists c'.
Qed.

Lemma frame_linearization_inv touched ast ast' k c' :
  frame touched ast ast' -> context ast' !! k = Some c' ->
  ∃ c, context ast !! k = Some c
       ∧ linearizedBaseContracts c' = linearizedBaseContracts c.
Proof.
  intros (_ & _ & Hlin) Hc. specialize (Hlin k). unfold linearizationOf in Hlin.
  rewrite Hc in Hlin. destruct (context ast !! k) as [c|]; [|done].
  injection Hlin as Hlin. by exists c.
Qed.

Lemma closed_frame touched ast ast' :
  frame touched ast ast' -> closed ast -> closed ast'.
Proof.
  intros Hframe Hclosed k c' Hc' b Hb.
  destruct (frame_linearization_inv _ _ _ _ _ Hframe Hc') as (c & Hc & Hlin).
  rewrite Hlin in Hb. destruct (Hclosed k c Hc b Hb) as [x Hx].
  destruct (frame_linearization _ _ _ _ _ Hframe Hx) as (x' & Hx' & _). eauto.
Qed.

Lemma selfless_frame touched ast ast' :
  frame touched ast ast' -> selfless ast -> selfless ast'.
Proof.
  intros Hframe Hself k c' Hc'.
  destruct (frame_linearization_inv _ _ _ _ _ Hframe Hc') as (c & Hc & Hlin).
  unfold getBaseContracts. rewrite Hlin. by apply Hself.
Qed.

Lemma located_exists ast ids :
  (∀ id, id ∈ ids -> is_Some (context ast !! id)) -> ∃ bs, located ast ids bs.
Proof.
  induction ids as [|id ids IH]; intros Hall; [exists []; constructor|].
  destruct (Hall id) as [b Hb]; [left|].
  destruct IH as [bs Hbs]; [intros id' Hin; apply Hall; by right|].
  exists (b :: bs). by constructor.
Qed.

Lemma bases_located ast k c :
  closed ast -> context ast !! k = Some c ->
  ∃ bs, located ast (getBaseContracts c) bs.
Proof.
  intros Hclosed Hc. apply located_exists. intros id Hid.
  apply (Hclosed k c Hc). by apply elem_of_drop_1.
Qed.

(** *** The reads along first bases *)
Lemma squashInterface_closed fuel : ∀ node ast e,
  closed ast -> is_Some (context ast !! node) ->
  squashInterface fuel node ast = Err e -> e = RangeError.
Proof.
  induction fuel as [|fuel IH]; intros node ast e Hclosed [c Hc] Hrun.
  - by injection Hrun as <-.
  - simpl in Hrun. unfold bindR, locateR in Hrun. rewrite Hc in Hrun.
    destruct (getBaseContracts c) as [|b0 bases] eqn:Hbases; [discriminate|].
    destruct (squashInterface fuel b0 ast) as [names|e'] eqn:Hb0; [discriminate|].
    injection Hrun as <-. eapply IH; [done| |exact Hb0].
    apply (Hclosed node c Hc). apply elem_of_drop_1.
    fold (getBaseContracts c). rewrite Hbases. left.
Qed.

Lemma resolveFunctionName_closed fuel : ∀ node name ast e,
  closed ast -> is_Some (context ast !! node) ->
  resolveFunctionName fuel node name ast = Err e ->
  e = RangeError
  ∨ (∃ k, e = TranspileFailedError (MultipleFunctions name k))
  ∨ (∃ k, e = TranspileFailedError (FailedToFind name k)).
Proof.
  induction fuel as [|fuel IH]; intros node name ast e Hclosed [c Hc] Hrun.
  - injection Hrun as <-. by left.
  - simpl in Hrun. unfold bindR, locateR in Hrun. rewrite Hc in Hrun.
    case_bool_decide; [injection Hrun as <-; right; left; eauto|].
    destruct (filter _ (vFunctions c)); [|discriminate].
    destruct (getBaseContracts c) as [|b0 bases] eqn:Hbases.
    { injection Hrun as <-. right. right. eauto. }
    eapply IH; [done| |exact Hrun].
    apply (Hclosed node c Hc). apply elem_of_drop_1.
    fold (getBaseContracts c). rewrite Hbases. left.
Qed.

(** A name of the interface is the name of a function on the way. *)
Lemma resolveFunctionName_of_interface fuel : ∀ fuel' node ast names name n k,
  squashInterface fuel node ast = Ok names ->
  name ∈ names ->
  resolveFunctionName fuel' node name ast
  ≠ Err (TranspileFailedError (FailedToFind n k)).
Proof.
  induction fuel as [|fuel IH]; intros fuel' node ast names name n k Hnames Hin;
    [discriminate|].
  destruct fuel' as [|fuel']; [discriminate|].
  simpl in Hnames. simpl. unfold bindR, locateR in *.
  destruct (context ast !! node) as [c|]; [|discriminate].
  case_bool_decide; [discriminate|].
  destruct (filter (fun f => f_name f = name) (vFunctions c))
    as [|g matches] eqn:Hmatches; [|discriminate].
  assert (name ∉ new_Set (f_name <$> filter
            (fun func => isExternallyVisible func
                         && negb (f_isConstructor func) = true)
            (vFunctions c))) as Hown.
  { unfold new_Set. fold (add_all [] (f_name <$> filter
            (fun func => isExternallyVisible func
                         && negb (f_isConstructor func) = true)
            (vFunctions c))).
    rewrite add_all_elem_of, elem_of_nil. intros [[]|Hn].
    apply list_elem_of_fmap in Hn as (f & -> & Hf).
    apply list_elem_of_filter in Hf as [_ Hf].
    assert (f ∈ filter (fun g => f_name g = f_name f) (vFunctions c)) as Hm
      by (by apply list_elem_of_filter).
    rewrite Hmatches in Hm. by apply elem_of_nil in Hm. }
  destruct (getBaseContracts c) as [|b0 bases].
  - injection Hnames as <-. done.
  - destruct (squashInterface fuel b0 ast) as [inherited|] eqn:Hb0; [|discriminate].
    injection Hnames as <-.
    fold (add_all (new_Set (f_name <$> filter
            (fun func => isExternallyVisible func
                         && negb (f_isConstructor func) = true)
            (vFunctions c))) inherited) in Hin.
    apply add_all_elem_of in Hin as [Hin|Hin]; [done|].
    by eapply IH.
Qed.

Lemma mapR_Err {A B} (f : A -> R B) l ast e :
  mapR f l ast = Err e -> ∃ x, x ∈ l ∧ f x ast = Err e.
Proof.
  induction l as [|x l IH]; intros Hrun; [discriminate|].
  simpl in Hrun. unfold bindR in Hrun.
  destruct (f x ast) as [y|e'] eqn:Hx.
  - destruct (mapR f l ast) as [ys|e'] eqn:Hl; [discriminate|].
    injection Hrun as <-. destruct IH as (x' & Hin & Hx'); [done|].
    exists x'. split; [by right | done].
  - injection Hrun as <-. exists x. split; [left | done].
Qed.

(** *** The steps of a visit *)
Lemma promoteAll_errors node (idRemapping : gmap nat FunctionDefinition) fs :
  ∀ ast e,
  is_Some (context ast !! node) ->
  forEach (promote node idRemapping) fs ast = Err e -> visitError e.
Proof.
  induction fs as [|f fs IH]; intros ast e [x Hx] Hrun; [discriminate|].
  simpl in Hrun. apply bind_Err in Hrun as [Hrun|([] & ast1 & Hstep & Hrun)].
  - unfold promote in Hrun.
    destruct (idRemapping !! f_id f) as [priv|]; [|by injection Hrun as <-].
    apply bind_Err in Hrun as [Hrun|(d & ast0 & Hd & Hrun)].
    + destruct (decide (f_kind f = KindFunction)) as [Hkind|Hkind].
      * destruct (f_isConstructor f) eqn:Hflag.
        { rewrite createDelegatingFunction_flagged_function in Hrun by done.
          by injection Hrun as <-. }
        destruct (createDelegatingFunction_returns f priv node ast Hkind Hflag)
          as (? & ? & Hok). congruence.
      * rewrite createDelegatingFunction_not_a_function in Hrun by done.
        by injection Hrun as <-.
    + apply createDelegatingFunction_Ok in Hd as [_ Hctx].
      unfold appendChild, modifyChildren in Hrun. by rewrite Hctx, Hx in Hrun.
  - eapply IH; [|exact Hrun].
    unfold promote in Hstep.
    destruct (idRemapping !! f_id f) as [priv|]; [|discriminate].
    apply bind_Ok in Hstep as (d & ast0 & Hd & Hstep).
    apply createDelegatingFunction_Ok in Hd as [_ Hctx].
    unfold appendChild, modifyChildren in Hstep. rewrite Hctx, Hx in Hstep.
    injection Hstep as <-. simpl. rewrite lookup_insert_eq. done.
Qed.

Lemma addNonoverridenPublicFunctions_errors node idRemapping ast e :
  closed ast -> is_Some (context ast !! node) ->
  addNonoverridenPublicFunctions node idRemapping ast = Err e -> visitError e.
Proof.
  intros Hclosed Hnode Hrun. unfold addNonoverridenPublicFunctions in Hrun.
  apply bind_Err in Hrun as [Hrun|(depth & ast0 & Hdepth & Hrun)]; [discriminate|].
  injection Hdepth as <- <-.
  apply bind_Err in Hrun as [Hrun|(names & ast1 & Hnames & Hrun)].
  { unfold liftR in Hrun.
    destruct (squashInterface _ _ _) as [?|e'] eqn:Hsquash; [discriminate|].
    injection Hrun as <-.
    by apply squashInterface_closed in Hsquash as ->. }
  apply liftR_Ok in Hnames as [Hnames ->].
  apply bind_Err in Hrun as [Hrun|(resolved & ast2 & Hresolved & Hrun)].
  { unfold liftR in Hrun.
    destruct (mapR _ _ _) as [?|e'] eqn:Hmap; [discriminate|].
    injection Hrun as <-.
    apply mapR_Err in Hmap as (name & Hin & Hname).
    pose proof (fun n k => resolveFunctionName_of_interface
                             _ (callStack ast) _ _ _ _ n k Hnames Hin) as Hfound.
    apply resolveFunctionName_closed in Hname as Hcases; [|done..].
    destruct Hcases as [->|[[k ->]|[k ->]]]; try done.
    exfalso. by eapply Hfound. }
  apply liftR_Ok in Hresolved as [_ ->].
  by eapply promoteAll_errors.
Qed.

Lemma updateReferencedDeclarations_located {V} `{Declaration V} node
    (idRemapping : gmap nat V) ast :
  is_Some (context ast !! node) ->
  ∃ ast', updateReferencedDeclarations node idRemapping ast = Ok (tt, ast').
Proof.
  intros [c Hc]. unfold updateReferencedDeclarations. rewrite Hc.
  destruct (walkList _ _ _). by eexists.
Qed.

Lemma addNonOverridenModifiers_located node c bs ast :
  context ast !! node = Some c ->
  located ast (getBaseContracts c) bs ->
  node ∉ getBaseContracts c ->
  ∃ idRemapping ast', addNonOverridenModifiers node ∅ ast = Ok (idRemapping, ast').
Proof.
  intros Hc Hbs Hself.
  destruct (inheritBases_run node (getBaseContracts c) bs
              (foldl (fun s modifier => set_add (m_name modifier) s) []
                     (vModifiers c)) ∅ ast c Hc Hbs Hself)
    as (names' & clones & ast' & Hrun & _).
  eexists _, ast'. rewrite addNonOverridenModifiers_loops. unfold bind at 1.
  rewrite (locate_run _ _ _ Hc). unfold bind at 1. by rewrite Hrun.
Qed.

Lemma ready_frame node ast ast' :
  frame [node] ast ast' -> ready node ast -> ready node ast'.
Proof.
  intros Hframe (Hclosed & c & Hc & Hself).
  split; [by eapply closed_frame|].
  destruct (frame_linearization _ _ _ _ _ Hframe Hc) as (c' & Hc' & Hlin).
  exists c'. split; [done|]. unfold getBaseContracts. by rewrite Hlin.
Qed.

Lemma visit_errors node ast e :
  closed ast -> selfless ast -> is_Some (context ast !! node) ->
  visit node ast = Err e -> visitError e.
Proof.
  intros Hclosed Hselfless [c Hc] Hrun.
  assert (ready node ast) as Hready.
  { split; [done|]. exists c. split; [done|]. by apply Hselfless. }
  assert (node ∈ [node]) as Hnode by left.
  unfold visitContractDefinition in Hrun.
  apply bind_Err in Hrun as [Hrun|(c0 & ast0 & [Hc0 ->]%locate_Ok & Hrun)].
  { by rewrite (locate_run _ _ _ Hc) in Hrun. }
  case_bool_decide; [discriminate|].
  apply bind_Err in Hrun as [Hrun|([] & ast1 & H1 & Hrun)].
  { pose proof (solveConstructorInheritance_outcome node c ast Hc
                  (Hclosed node c Hc)) as Hout.
    rewrite Hrun in Hout. by destruct Hout as [-> _]. }
  apply (frame_solveConstructorInheritance [node] node Hnode) in H1.
  apply ready_frame in H1; [|done]. clear Hready. rename H1 into Hready.
  apply bind_Err in Hrun as [Hrun|(fr & ast2 & H2 & Hrun)].
  { destruct Hready as (Hcl & c1 & Hc1 & Hs1).
    destruct (bases_located _ _ _ Hcl Hc1) as [bs Hbs].
    destruct (addPrivateSuperFunctions_run node c1 bs ast1 Hc1 Hbs Hs1)
      as (? & ? & Hok & _). congruence. }
  apply (frame_addPrivateSuperFunctions [node] node Hnode) in H2.
  apply ready_frame in H2; [|done]. clear Hready. rename H2 into Hready.
  apply bind_Err in Hrun as [Hrun|([] & ast3 & H3 & Hrun)].
  { destruct Hready as (Hcl & c2 & Hc2 & _).
    by eapply addNonoverridenPublicFunctions_errors. }
  apply (frame_addNonoverridenPublicFunctions [node] node Hnode) in H3.
  apply ready_frame in H3; [|done]. clear Hready. rename H3 into Hready.
  apply bind_Err in Hrun as [Hrun|(vr & ast4 & H4 & Hrun)].
  { destruct Hready as (Hcl & c3 & Hc3 & _).
    destruct (bases_located _ _ _ Hcl Hc3) as [bs Hbs].
    destruct (addStorageVariables_run node c3 bs ∅ ast3 Hc3 Hbs) as [? Hok].
    congruence. }
  apply (frame_addStorageVariables [node] node Hnode) in H4.
  apply ready_frame in H4; [|done]. clear Hready. rename H4 into Hready.
  apply bind_Err in Hrun as [Hrun|(mr & ast5 & H5 & Hrun)].
  { destruct Hready as (Hcl & c4 & Hc4 & Hs4).
    destruct (bases_located _ _ _ Hcl Hc4) as [bs Hbs].
    destruct (addNonOverridenModifiers_located node c4 bs ast4 Hc4 Hbs Hs4)
      as (? & ? & Hok). congruence. }
  apply (frame_addNonOverridenModifiers [node] node Hnode) in H5.
  apply ready_frame in H5; [|done]. clear Hready. rename H5 into Hready.
  apply bind_Err in Hrun as [Hrun|([] & ast6 & H6 & Hrun)].
  { destruct Hready as (_ & c5 & Hc5 & _).
    destruct (updateReferencedDeclarations_located node fr ast5) as [? Hok];
      [by eexists|]. congruence. }
  apply (frame_updateReferencedDeclarations [node] fr node Hnode) in H6.
  apply ready_frame in H6; [|done]. clear Hready. rename H6 into Hready.
  apply bind_Err in Hrun as [Hrun|([] & ast7 & H7 & Hrun)].
  { destruct Hready as (_ & c6 & Hc6 & _).
    destruct (updateReferencedDeclarations_located node vr ast6) as [? Hok];
      [by eexists|]. congruence. }
  apply (frame_updateReferencedDeclarations [node] vr node Hnode) in H7.
  apply ready_frame in H7; [|done]. clear Hready. rename H7 into Hready.
  apply bind_Err in Hrun as [Hrun|([] & ast8 & H8 & Hrun)]; [|discriminate].
  destruct Hready as (_ & c7 & Hc7 & _).
  destruct (updateReferencedDeclarations_located node mr ast7) as [? Hok];
    [by eexists|]. congruence.
Qed.

Lemma located_frame_is_Some touched ast ast' k :
  frame touched ast ast' -> is_Some (context ast !! k) ->
  is_Some (context ast' !! k).
Proof.
  intros Hframe [c Hc].
  destruct (frame_linearization _ _ _ _ _ Hframe Hc) as (c' & Hc' & _). eauto.
Qed.

Lemma forEach_visit_errors l : ∀ ast e,
  closed ast -> selfless ast ->
  (∀ k, k ∈ l -> is_Some (context ast !! k)) ->
  forEach visit l ast = Err e -> visitError e.
Proof.
  induction l as [|x l IH]; intros ast e Hclosed Hselfless Hl Hrun;
    [discriminate|].
  simpl in Hrun. apply bind_Err in Hrun as [Hrun|([] & ast1 & Hx & Hrun)].
  - eapply visit_errors; [done..| |exact Hrun]. apply Hl. left.
  - apply (frame_visitContractDefinition [x] x ltac:(left)) in Hx.
    eapply (IH ast1); [by eapply closed_frame | by eapply selfless_frame
                      | | exact Hrun].
    intros k Hk. eapply located_frame_is_Some; [done|]. apply Hl. by right.
Qed.

Lemma mapLoop_errors rounds : ∀ contracts ast e,
  length contracts ≤ rounds ->
  closed ast -> selfless ast ->
  (∀ k, k ∈ contracts -> is_Some (context ast !! k)) ->
  mapLoop rounds contracts ast = Err e ->
  visitError e ∨ e = TranspileFailedError UnableToSerialise.
Proof.
  induction rounds as [|rounds IH];
    intros contracts ast e Hlen Hclosed Hselfless Hl Hrun.
  - destruct contracts; [discriminate | simpl in Hlen; lia].
  - destruct contracts as [|c contracts]; [discriminate|].
    rewrite mapLoop_unfold in Hrun.
    case_bool_decide as Hmd; [injection Hrun as <-; by right|].
    assert (∀ k, k ∈ mostDerivedContracts ast (c :: contracts) ->
                 k ∈ c :: contracts) as Hsub.
    { intros k Hk. unfold mostDerivedContracts in Hk.
      apply list_elem_of_filter in Hk. tauto. }
    apply bind_Err in Hrun as [Hrun|([] & ast1 & Hvisit & Hrun)].
    + left. eapply forEach_visit_errors; [done..| |exact Hrun].
      intros k Hk. by apply Hl, Hsub.
    + apply frame_forEach_visit in Hvisit.
      eapply (IH _ ast1); [|by eapply closed_frame|by eapply selfless_frame
                          | |exact Hrun].
      * assert (mostDerivedContracts ast (c :: contracts) ≠ []) as Hne
          by (intros Heq; apply Hmd; by rewrite Heq).
        apply pending_shrinks in Hne.
        change (length (c :: contracts)) with (S (length contracts)) in *. lia.
      * intros k Hk. apply list_elem_of_filter in Hk as [_ Hk].
        eapply located_frame_is_Some; [done|]. by apply Hl.
Qed.

(** X4.
    On a store where every linearized id is a contract of the store and no
    contract is among its own bases, [map] throws nothing but: the
    serialization failure of its queue, several functions of one name in a
    contract, an assertion of the pass, the unsupported copy of a
    constructor, and the overflow of the recursions along first bases.  A
    missing node and a name that cannot be found are never what stops it. *)
Theorem map_errors_on_a_closed_store (ast : AST) (e : error) :
  closed ast ->
  selfless ast ->
  (∀ k, k ∈ vContracts ast -> is_Some (context ast !! k)) ->
  map ast = Err e ->
  e = TranspileFailedError UnableToSerialise
  ∨ (∃ functionName contract,
       e = TranspileFailedError (MultipleFunctions functionName contract))
  ∨ (∃ why, e = AssertionError why)
  ∨ e = NotSupportedYetError
  ∨ e = RangeError.
Proof.
  intros Hclosed Hselfless Hroots Hrun. unfold map in Hrun.
  destruct (mapLoop _ _ _) as [[[] ast']|e'] eqn:Hloop; [discriminate|].
  injection Hrun as ->.
  apply mapLoop_errors in Hloop as [Hvisit| ->]; try done; [|by left].
  destruct e as [[| |]| | | | |]; simpl in Hvisit; try done; eauto 10.
Qed.

Lemma map_errors_on_a_closed_store_witness :
  TranspileFailedError UnableToSerialise
  = TranspileFailedError UnableToSerialise
  ∨ (∃ functionName contract,
       TranspileFailedError UnableToSerialise
       = TranspileFailedError (MultipleFunctions functionName contract))
  ∨ (∃ why, TranspileFailedError UnableToSerialise = AssertionError why)
  ∨ TranspileFailedError UnableToSerialise = NotSupportedYetError
  ∨ TranspileFailedError UnableToSerialise = RangeError.
Proof.
  apply (map_errors_on_a_closed_store Samples.cyclic).
  - intros k c Hc b Hb.
    destruct (decide (k = 1)) as [->|?]; [|destruct (decide (k = 2)) as [->|?];
      [|destruct (decide (k = 3)) as [->|?]]].
    + injection Hc as <-. change (b ∈ [1; 2]) in Hb.
      apply elem_of_cons in Hb as [->|Hb]; [by eexists|].
      apply list_elem_of_singleton in Hb as ->. by eexists.
    + injection Hc as <-. change (b ∈ [2; 1]) in Hb.
      apply elem_of_cons in Hb as [->|Hb]; [by eexists|].
      apply list_elem_of_singleton in Hb as ->. by eexists.
    + injection Hc as <-. change (b ∈ [3]) in Hb.
      apply list_elem_of_singleton in Hb as ->. by eexists.
    + exfalso. unfold Samples.cyclic in Hc. simpl in Hc.
      rewrite !lookup_insert_ne, lookup_empty in Hc by done. discriminate.
  - intros k c Hc.
    destruct (decide (k = 1)) as [->|?]; [|destruct (decide (k = 2)) as [->|?];
      [|destruct (decide (k = 3)) as [->|?]]].
    + injection Hc as <-. intros Hin. change (1 ∈ [2]) in Hin.
      apply list_elem_of_singleton in Hin. discriminate.
    + injection Hc as <-. intros Hin. change (2 ∈ [1]) in Hin.
      apply list_elem_of_singleton in Hin. discriminate.
    + injection Hc as <-. intros Hin. change (3 ∈ []) in Hin.
      by apply elem_of_nil in Hin.
    + exfalso. unfold Samples.cyclic in Hc. simpl in Hc.
      rewrite !lookup_insert_ne, lookup_empty in Hc by done. discriminate.
  - intros k Hk. change (k ∈ [1; 2; 3]) in Hk.
    apply elem_of_cons in Hk as [->|Hk]; [by eexists|].
    apply elem_of_cons in Hk as [->|Hk]; [by eexists|].
    apply list_elem_of_singleton in Hk as ->. by eexists.
  - vm_compute. reflexivity.
Defined.

(** ** The references after a visit *)

Lemma foldM_invariant {A B} (I : B -> AST -> Prop) (f : B -> A -> M B) l :
  (∀ b x ast b' ast', I b ast -> f b x ast = Ok (b', ast') -> I b' ast') ->
  ∀ b ast b' ast', I b ast -> foldM f l b ast = Ok (b', ast') -> I b' ast'.
Proof.
  intros Hf. induction l as [|x l IH]; intros b ast b' ast' HI Hrun.
  - by injection Hrun as <- <-.
  - simpl in Hrun. apply bind_Ok in Hrun as (b1 & ast1 & Hx & Hrun).
    eapply IH; [|exact Hrun]. by eapply Hf.
Qed.

Lemma mapM_invariant {A B} (I : AST -> Prop) (P : B -> Prop) (f : A -> M B) l :
  (∀ x ast y ast', I ast -> f x ast = Ok (y, ast') -> I ast' ∧ P y) ->
  ∀ ast ys ast', I ast -> mapM f l ast = Ok (ys, ast') -> I ast' ∧ Forall P ys.
Proof.
  intros Hf. induction l as [|x l IH]; intros ast ys ast' HI Hrun; simpl in Hrun.
  - injection Hrun as <- <-. split; [done | constructor].
  - apply bind_Ok in Hrun as (y & ast1 & Hx & Hrun).
    apply bind_Ok in Hrun as (ys' & ast2 & Hl & Hrun).
    injection Hrun as <- <-.
    destruct (Hf _ _ _ _ HI Hx) as [HI1 Hy].
    destruct (IH _ _ _ HI1 Hl) as [HI2 Hys]. split; [done | by constructor].
Qed.

(** *** The copies bear new ids *)
Lemma addPrivateSuperFunctions_fresh node ast idRemapping ast' :
  addPrivateSuperFunctions node ∅ ast = Ok (idRemapping, ast') ->
  ∀ k v, idRemapping !! k = Some v -> nextId ast ≤ f_id v.
Proof.
  intros Hrun. unfold addPrivateSuperFunctions in Hrun.
  apply bind_Ok in Hrun as (c & ast0 & [_ ->]%locate_Ok & Hrun).
  apply (foldM_invariant
           (fun (remap : gmap nat FunctionDefinition) a =>
              nextId ast ≤ nextId a
              ∧ ∀ k v, remap !! k = Some v -> nextId ast ≤ f_id v))
    in Hrun as [_ Hfresh]; [done| |].
  - intros remap [depth base] a remap' a' [Hle Hremap] Hstep.
    unfold inlineBase in Hstep.
    apply bind_Ok in Hstep as (clones & a1 & Hclones & Hstep).
    apply bind_Ok in Hstep as ([] & a2 & Happend & Hstep).
    injection Hstep as <- <-.
    unfold clonePrivateSuperFunctions in Hclones.
    apply bind_Ok in Hclones as (b & a0 & [_ ->]%locate_Ok & Hclones).
    apply (mapM_invariant (fun s => nextId ast ≤ nextId s)
             (fun p : FunctionDefinition * FunctionDefinition =>
                nextId ast ≤ f_id p.2))
      in Hclones as [Hle1 Hfresh]; [| |done].
    + split.
      * assert (preserves grows
                  (forEach (fun func => appendChild node (ChildFunction func))
                           clones.*2)) as Hgrows by grows_walk.
        apply Hgrows in Happend. unfold grows in Happend. lia.
      * intros k v Hk. apply remapping_lookup in Hk as [Hk|(func & Hin & _)].
        { by eapply Hremap. }
        rewrite Forall_forall in Hfresh. by apply (Hfresh (func, v)).
    + intros func s p s' Hs Hp.
      apply bind_Ok in Hp as (cl & s1 & Hcl & Hp). injection Hp as <- <-.
      pose proof (grows_cloneFunctionDefinition _ _ _ _ Hcl) as Hgrows.
      apply cloneFunctionDefinition_Ok in Hcl
        as (_ & _ & _ & _ & _ & _ & _ & Hid & _).
      unfold grows in Hgrows. simpl. split; lia.
  - split; [lia|]. intros k v Hk. by rewrite lookup_empty in Hk.
Qed.

Lemma cloneModifierDefinition_id m ast cl ast' :
  cloneModifierDefinition m ast = Ok (cl, ast') -> m_id cl = nextId ast.
Proof.
  intros Hrun. unfold cloneModifierDefinition in Hrun.
  apply bind_Ok in Hrun as (i & ast1 & Hi & Hrun). injection Hi as <- <-.
  apply bind_Ok in Hrun as (ps & ast2 & _ & Hrun).
  apply bind_Ok in Hrun as (b & ast3 & _ & Hrun).
  by injection Hrun as <- _.
Qed.

Lemma addNonOverridenModifiers_fresh node ast idRemapping ast' :
  addNonOverridenModifiers node ∅ ast = Ok (idRemapping, ast') ->
  ∀ k v, idRemapping !! k = Some v -> nextId ast ≤ m_id v.
Proof.
  intros Hrun. rewrite addNonOverridenModifiers_loops in Hrun.
  apply bind_Ok in Hrun as (c & ast0 & [_ ->]%locate_Ok & Hrun).
  apply bind_Ok in Hrun as ([names remap] & ast1 & Hloop & Hrun).
  injection Hrun as <- <-.
  apply (foldM_invariant
           (fun (st : list string * gmap nat ModifierDefinition) a =>
              nextId ast ≤ nextId a
              ∧ ∀ k v, st.2 !! k = Some v -> nextId ast ≤ m_id v))
    in Hloop as [_ Hfresh]; [done| |].
  - intros st base a st' a' HI Hstep. unfold inheritModifiers in Hstep.
    apply bind_Ok in Hstep as (b & a0 & [_ ->]%locate_Ok & Hstep).
    eapply (foldM_invariant
              (fun (st : list string * gmap nat ModifierDefinition) a =>
                 nextId ast ≤ nextId a
                 ∧ ∀ k v, st.2 !! k = Some v -> nextId ast ≤ m_id v));
      [|exact HI|exact Hstep].
    clear. intros [names remap] m a [names' remap'] a' [Hle Hremap] Hstep.
    unfold inheritModifier in Hstep. cbv zeta in Hstep.
    case_bool_decide.
    + apply bind_Ok in Hstep as (cl & a1 & Hcl & Hstep).
      apply bind_Ok in Hstep as ([] & a2 & Happend & Hstep).
      injection Hstep as <- <- <-.
      pose proof (grows_cloneModifierDefinition _ _ _ _ Hcl) as Hgrows.
      apply cloneModifierDefinition_id in Hcl.
      apply grows_modifyChildren in Happend. unfold grows in *.
      simpl. split; [lia|]. intros k v Hk.
      destruct (decide (m_id m = k)) as [<-|Hne].
      * rewrite lookup_insert_eq in Hk. injection Hk as <-. lia.
      * rewrite lookup_insert_ne in Hk by done. by eapply Hremap.
    + injection Hstep as <- <- <-. done.
  - simpl. split; [lia|]. intros k v Hk. by rewrite lookup_empty in Hk.
Qed.

(** *** The modifiers of the contract before the modifier flattener *)

Lemma keepsModifiers_refl node ast : keepsModifiers node ast ast.
Proof. done. Qed.

Lemma keepsModifiers_trans node a b c :
  keepsModifiers node a b -> keepsModifiers node b c -> keepsModifiers node a c.
Proof. unfold keepsModifiers. congruence. Qed.

Lemma modifiers_reserveId node : preserves (keepsModifiers node) reserveId.
Proof. by intros ast a ast' [= _ <-]. Qed.

Lemma modifiers_modifyChildren node n g :
  (∀ c, vModifiers (setChildren c (g (c_children c))) = vModifiers c) ->
  preserves (keepsModifiers node) (modifyChildren n g).
Proof.
  intros Hg ast a ast'. unfold modifyChildren.
  destruct (context ast !! n) as [c|] eqn:Hc; [|discriminate].
  intros [= _ <-]. unfold keepsModifiers. simpl.
  destruct (decide (n = node)) as [->|Hne].
  - rewrite lookup_insert_eq, Hc. simpl. by rewrite Hg.
  - by rewrite lookup_insert_ne.
Qed.

Lemma vModifiers_append_function c f :
  vModifiers (setChildren c (c_children c ++ [ChildFunction f])) = vModifiers c.
Proof. unfold vModifiers. simpl. by rewrite omap_app, app_nil_r. Qed.

Lemma vModifiers_prepend_variable c v :
  vModifiers (setChildren c (ChildVariable v :: c_children c)) = vModifiers c.
Proof. done. Qed.

Lemma vModifiers_updateConstructor c g :
  vModifiers (setChildren c (updateConstructor g (c_children c))) = vModifiers c.
Proof.
  unfold vModifiers. simpl.
  induction (c_children c) as [|ch chs IH]; [done|].
  destruct ch as [s|v|f|m|l]; simpl; try exact IH.
  - destruct (isConstructorKind f); [done | exact IH].
  - f_equal. exact IH.
Qed.

Ltac modifiers_walk node :=
  preserves_walk (keepsModifiers_refl node) (keepsModifiers_trans node)
    ltac:(first [ apply modifiers_reserveId
                | apply modifiers_modifyChildren; intros ?;
                  first [ apply vModifiers_append_function
                        | apply vModifiers_prepend_variable
                        | apply vModifiers_updateConstructor ] ]).

Lemma modifiers_solveConstructorInheritance node n :
  preserves (keepsModifiers node) (solveConstructorInheritance n).
Proof. modifiers_walk node. Qed.

Lemma modifiers_addPrivateSuperFunctions node n idRemapping :
  preserves (keepsModifiers node) (addPrivateSuperFunctions n idRemapping).
Proof. modifiers_walk node. Qed.

Lemma modifiers_addNonoverridenPublicFunctions node n idRemapping :
  preserves (keepsModifiers node) (addNonoverridenPublicFunctions n idRemapping).
Proof. modifiers_walk node. Qed.

Lemma modifiers_addStorageVariables node n idRemapping :
  preserves (keepsModifiers node) (addStorageVariables n idRemapping).
Proof. modifiers_walk node. Qed.

(** *** From step to step *)
Lemma step_frame node ast ast' c bs :
  frame [node] ast ast' ->
  context ast !! node = Some c ->
  node ∉ getBaseContracts c ->
  located ast (getBaseContracts c) bs ->
  ∃ c', context ast' !! node = Some c'
        ∧ getBaseContracts c' = getBaseContracts c
        ∧ located ast' (getBaseContracts c') bs.
Proof.
  intros Hframe Hc Hself Hbs.
  destruct (frame_linearization _ _ _ _ _ Hframe Hc) as (c' & Hc' & Hlin).
  exists c'. split; [done|].
  assert (getBaseContracts c' = getBaseContracts c) as Hbases
    by (unfold getBaseContracts; by rewrite Hlin).
  split; [done|]. rewrite Hbases.
  eapply located_frame; [exact Hbs|]. intros id Hid.
  destruct Hframe as (_ & Hother & _). apply Hother.
  intros ->%list_elem_of_singleton. done.
Qed.

Lemma superFunctions_elem d f bs :
  (d, f) ∈ superFunctions bs ->
  ∃ b, b ∈ bs ∧ f ∈ vFunctions b ∧ f_isConstructor f = false.
Proof.
  unfold superFunctions, superFunctionsOf. intros Hin.
  apply elem_of_concat in Hin as (l & Hin & Hl).
  apply list_elem_of_fmap in Hl as ([i b] & -> & Hib).
  apply elem_of_lookup_imap in Hib as (j & b' & [= -> ->] & Hb).
  apply list_elem_of_fmap in Hin as (f' & [= _ ->] & Hf).
  apply list_elem_of_filter in Hf as [Hnc Hf].
  exists b'. split; [by eapply list_elem_of_lookup_2 | done].
Qed.

Lemma elem_of_superFunctions b f bs :
  b ∈ bs -> f ∈ vFunctions b -> f_isConstructor f = false ->
  ∃ d, (d, f) ∈ superFunctions bs.
Proof.
  intros Hb Hf Hnc. apply list_elem_of_lookup in Hb as [i Hi]. exists i.
  unfold superFunctions, superFunctionsOf. apply elem_of_concat.
  eexists. split; [|apply list_elem_of_fmap_2, elem_of_lookup_imap;
                    exists i, b; split; [reflexivity | done]].
  simpl. apply list_elem_of_fmap_2. by apply list_elem_of_filter.
Qed.

(** Within the pass no constructor comes to [createDelegatingFunction]:
    where the functions of the bases bear distinct ids,
    [addPrivateSuperFunctions] records nothing under the id of a constructor
    of a base, and the promotion of such a function stops at the assertion
    of the call site. *)
Lemma promote_inherited_constructor
    (node : nat) (c : ContractDefinition) (bs : list ContractDefinition)
    (ast ast' ast1 : AST) (idRemapping : gmap nat FunctionDefinition)
    (b : ContractDefinition) (f : FunctionDefinition) :
  context ast !! node = Some c ->
  located ast (getBaseContracts c) bs ->
  node ∉ getBaseContracts c ->
  NoDup (f_id <$> concat (vFunctions <$> bs)) ->
  addPrivateSuperFunctions node ∅ ast = Ok (idRemapping, ast') ->
  b ∈ bs -> f ∈ vFunctions b -> f_isConstructor f = true ->
  idRemapping !! f_id f = None
  ∧ promote node idRemapping f ast1
    = Err (AssertionError (NoInlinedBaseFunction (f_id f))).
Proof.
  intros Hc Hbs Hself Hnodup Hrun Hb Hf Hflag.
  assert (idRemapping !! f_id f = None) as Hnone.
  { destruct (addPrivateSuperFunctions_run node c bs ast Hc Hbs Hself)
      as (clones & ast2 & Hrun2 & _ & Hcopies).
    rewrite Hrun2 in Hrun. injection Hrun as <- _.
    apply eq_None_not_Some. rewrite record_lookup_Some, lookup_empty.
    intros [[? ?]|Hin]; [done|].
    assert (clones.*1 = (superFunctions bs).*2) as Hfuncs.
    { clear -Hcopies.
      induction Hcopies as [|df p dfs ps (Hp & _) _ IH]; [done|].
      rewrite !fmap_cons. by f_equal. }
    rewrite Hfuncs in Hin.
    apply list_elem_of_fmap in Hin as (g & Hid & Hg).
    apply list_elem_of_fmap in Hg as ([d g'] & -> & Hg). simpl in Hid.
    apply superFunctions_elem in Hg as (b' & Hb' & Hg & Hnc).
    assert (f ∈ concat (vFunctions <$> bs)) as Hfin.
    { apply elem_of_concat. exists (vFunctions b). split; [done|].
      by apply list_elem_of_fmap_2. }
    assert (g' ∈ concat (vFunctions <$> bs)) as Hgin.
    { apply elem_of_concat. exists (vFunctions b'). split; [done|].
      by apply list_elem_of_fmap_2. }
    apply list_elem_of_lookup in Hfin as [i Hi].
    apply list_elem_of_lookup in Hgin as [j Hj].
    assert (i = j) as ->.
    { eapply NoDup_lookup; [exact Hnodup| |].
      - by rewrite list_lookup_fmap, Hi.
      - rewrite list_lookup_fmap, Hj. simpl. by rewrite Hid. }
    rewrite Hi in Hj. injection Hj as <-. congruence. }
  split; [done|]. unfold promote. by rewrite Hnone.
Qed.

Lemma inheritedDeclarations_elem v bs :
  v ∈ inheritedDeclarations bs -> ∃ b, b ∈ bs ∧ v ∈ vStateVariables b.
Proof.
  unfold inheritedDeclarations. intros Hin.
  apply elem_of_concat in Hin as (l & Hin & Hl).
  apply list_elem_of_fmap in Hl as (b & -> & Hb).
  rewrite elem_of_reverse in Hb. by exists b.
Qed.

Lemma concat_vModifiers_elem m bs :
  m ∈ concat (vModifiers <$> bs) -> ∃ b, b ∈ bs ∧ m ∈ vModifiers b.
Proof.
  intros Hin. apply elem_of_concat in Hin as (l & Hin & Hl).
  apply list_elem_of_fmap in Hl as (b & -> & Hb). by exists b.
Qed.

(** One rewrite with a remapping of declarations that were there to copies
    that were not: no reference to a remapped declaration is left, and no
    reference to a declaration that was there is new. *)
Lemma redirect_step {V} `{Declaration V} (idRemapping : gmap nat V)
    (n0 : nat) (refs refs' : list nat) :
  (∀ r, r ∈ refs' ->
        (r ∈ refs ∧ idRemapping !! r = None)
        ∨ ∃ k v, k ∈ refs ∧ idRemapping !! k = Some v ∧ r = decl_id v) ->
  (∀ k v, idRemapping !! k = Some v -> n0 ≤ decl_id v) ->
  (∀ k, is_Some (idRemapping !! k) -> k < n0) ->
  (∀ r, r ∈ refs' -> idRemapping !! r = None)
  ∧ ∀ K : nat -> Prop,
      (∀ k, K k -> k < n0) ->
      (∀ r, r ∈ refs -> ¬ K r) -> ∀ r, r ∈ refs' -> ¬ K r.
Proof.
  intros Hredirected Hfresh Hkeys. split.
  - intros r Hr. destruct (Hredirected r Hr) as [[_ Hnone]|(k & v & _ & Hv & ->)];
      [done|].
    destruct (idRemapping !! decl_id v) as [w|] eqn:Hw; [|done].
    assert (decl_id v < n0) by (apply Hkeys; by rewrite Hw).
    specialize (Hfresh _ _ Hv). lia.
  - intros K HK Hclean r Hr HKr.
    destruct (Hredirected r Hr) as [[Hold _]|(k & v & _ & Hv & ->)].
    + by apply (Hclean r).
    + specialize (Hfresh _ _ Hv). specialize (HK _ HKr). lia.
Qed.

(** X6.
    After a visit of a contract whose bases carry ids below the counter,
    nothing in the contract refers to a declaration of a base that the
    visit has copied: not to a function of a base that is not a
    constructor, not to a state variable the storage flattener kept, not to
    a modifier that was inherited. *)
Theorem visitContractDefinition_redirects_the_inherited_references
    (node : nat) (c : ContractDefinition) (bs : list ContractDefinition)
    (ast ast' : AST) :
  context ast !! node = Some c ->
  located ast (getBaseContracts c) bs ->
  node ∉ getBaseContracts c ->
  (∀ b, b ∈ bs -> declaredBelow (nextId ast) b) ->
  visit node ast = Ok (tt, ast') ->
  ∃ c',
    context ast' !! node = Some c'
    ∧ ∀ r, r ∈ referencesOf c' ->
        (∀ b f, b ∈ bs -> f ∈ vFunctions b -> f_isConstructor f = false ->
                r ≠ f_id f)
        ∧ (∀ v, v ∈ (mergeByName (inheritedDeclarations bs)).*2 -> r ≠ v_id v)
        ∧ (∀ m, m ∈ nonOverridden (m_name <$> vModifiers c)
                      (concat (vModifiers <$> bs)) ->
                r ≠ m_id m).
Proof.
  intros Hc Hbs Hself Hbelow Hrun.
  assert (node ∈ [node]) as Hnode by left.
  destruct (decide (length (linearizedBaseContracts c) < 2)) as [Hleaf|Hlen].
  { unfold visitContractDefinition, bind in Hrun.
    rewrite (locate_run _ _ _ Hc) in Hrun.
    rewrite bool_decide_eq_true_2 in Hrun by done. injection Hrun as <-.
    assert (bs = []) as ->.
    { unfold getBaseContracts in Hbs.
      destruct (linearizedBaseContracts c) as [|? [|? ?]]; simpl in *;
        try lia; by inversion Hbs. }
    exists c. split; [done|]. intros r _.
    split; [intros b f Hb; by apply elem_of_nil in Hb|].
    split; [intros v Hv; by apply elem_of_nil in Hv|].
    intros m Hm. by apply elem_of_nil in Hm. }
  destruct (visit_steps node c ast ast' Hc ltac:(lia) Hrun)
    as (fr & vr & mr & ast1 & ast2 & ast3 & ast4 & ast5 & ast6 & ast7
        & H1 & H2 & H3 & H4 & H5 & H6 & H7 & H8).
  set (n0 := nextId ast) in *.
  set (merged := (mergeByName (inheritedDeclarations bs)).*2).
  set (inherited := nonOverridden (m_name <$> vModifiers c)
                      (concat (vModifiers <$> bs))).
  (* the constructor linearizer *)
  pose proof (frame_solveConstructorInheritance [node] node Hnode _ _ _ H1) as F1.
  pose proof (grows_solveConstructorInheritance _ _ _ _ H1) as G1.
  pose proof (modifiers_solveConstructorInheritance node _ _ _ _ H1) as M1.
  destruct (step_frame _ _ _ _ _ F1 Hc Hself Hbs) as (c1 & Hc1 & Hb1 & Hbs1).
  assert (node ∉ getBaseContracts c1) as Hself1 by (by rewrite Hb1).
  (* the private copies *)
  pose proof (frame_addPrivateSuperFunctions [node] node Hnode _ _ _ _ H2) as F2.
  pose proof (grows_addPrivateSuperFunctions _ _ _ _ _ H2) as G2.
  pose proof (modifiers_addPrivateSuperFunctions node _ _ _ _ _ H2) as M2.
  pose proof (addPrivateSuperFunctions_fresh _ _ _ _ H2) as Hfr_fresh.
  destruct (addPrivateSuperFunctions_run node c1 bs ast1 Hc1 Hbs1 Hself1)
    as (clones & ast2' & Hrun2 & _ & Hcopies).
  rewrite H2 in Hrun2. injection Hrun2 as -> _.
  assert (clones.*1 = (superFunctions bs).*2) as Hfuncs.
  { clear -Hcopies. induction Hcopies as [|df p dfs ps (Hp & _) _ IH]; [done|].
    rewrite !fmap_cons. by f_equal. }
  destruct (step_frame _ _ _ _ _ F2 Hc1 Hself1 Hbs1) as (c2 & Hc2 & Hb2 & Hbs2).
  assert (node ∉ getBaseContracts c2) as Hself2 by (by rewrite Hb2).
  (* the delegating functions *)
  pose proof (frame_addNonoverridenPublicFunctions [node] node Hnode _ _ _ _ H3)
    as F3.
  pose proof (grows_addNonoverridenPublicFunctions _ _ _ _ _ H3) as G3.
  pose proof (modifiers_addNonoverridenPublicFunctions node _ _ _ _ _ H3) as M3.
  destruct (step_frame _ _ _ _ _ F3 Hc2 Hself2 Hbs2) as (c3 & Hc3 & Hb3 & Hbs3).
  assert (node ∉ getBaseContracts c3) as Hself3 by (by rewrite Hb3).
  (* the state variables *)
  pose proof (frame_addStorageVariables [node] node Hnode _ _ _ _ H4) as F4.
  pose proof (grows_addStorageVariables _ _ _ _ _ H4) as G4.
  pose proof (modifiers_addStorageVariables node _ _ _ _ _ H4) as M4.
  destruct (addStorageVariables_remapping node c3 bs ast3 Hc3 Hbs3)
    as (ast4' & Hrun4).
  rewrite H4 in Hrun4. injection Hrun4 as -> _. fold merged.
  destruct (step_frame _ _ _ _ _ F4 Hc3 Hself3 Hbs3) as (c4 & Hc4 & Hb4 & Hbs4).
  assert (node ∉ getBaseContracts c4) as Hself4 by (by rewrite Hb4).
  (* the modifiers *)
  pose proof (frame_addNonOverridenModifiers [node] node Hnode _ _ _ _ H5) as F5.
  pose proof (addNonOverridenModifiers_fresh _ _ _ _ H5) as Hmr_fresh.
  assert (vModifiers c4 = vModifiers c) as Hmods.
  { pose proof (keepsModifiers_trans _ _ _ _
                  (keepsModifiers_trans _ _ _ _
                     (keepsModifiers_trans _ _ _ _ M1 M2) M3) M4) as M.
    unfold keepsModifiers in M. rewrite Hc4, Hc in M. by injection M. }
  destruct (inheritBases_run node (getBaseContracts c4) bs
              (foldl (fun s modifier => set_add (m_name modifier) s) []
                     (vModifiers c4)) ∅ ast4 c4 Hc4 Hbs4 Hself4)
    as (names' & mclones & ast5' & Hrun5 & _ & Hmcopies).
  assert (nonOverridden
            (foldl (fun s modifier => set_add (m_name modifier) s) []
                   (vModifiers c4))
            (concat (vModifiers <$> bs)) = inherited) as Hinh.
  { apply nonOverridden_ext. intros n. rewrite Hmods.
    transitivity (n ∈ add_all [] (m_name <$> vModifiers c)).
    - unfold add_all. by rewrite foldl_fmap.
    - rewrite add_all_elem_of, elem_of_nil. tauto. }
  rewrite Hinh in *.
  assert (mr = recorded m_id ∅ (zip inherited mclones)) as ->.
  { rewrite addNonOverridenModifiers_loops in H5. unfold bind at 1 in H5.
    rewrite (locate_run _ _ _ Hc4) in H5. unfold bind at 1 in H5.
    rewrite Hrun5 in H5. by injection H5 as <- _. }
  destruct (step_frame _ _ _ _ _ F5 Hc4 Hself4 Hbs4) as (c5 & Hc5 & _ & _).
  (* the keys are declarations that were there, the values are new *)
  assert (∀ k, is_Some (record ∅ clones !! k) ↔ k ∈ (f_id <$> (superFunctions bs).*2))
    as Hfr_keys.
  { intros k. rewrite record_lookup_Some, lookup_empty, Hfuncs.
    split; [intros [[? ?]|?]; done | by right]. }
  assert ((zip merged (cloned (nextId ast3) merged)).*1 = merged) as Hvfst.
  { apply fst_zip. rewrite cloned_length. lia. }
  assert ((zip inherited mclones).*1 = inherited) as Hmfst.
  { apply fst_zip. apply Forall2_length in Hmcopies. lia. }
  assert (∀ k, is_Some (record ∅ clones !! k) -> k < n0) as Hfr_below.
  { intros k Hk. apply Hfr_keys in Hk.
    apply list_elem_of_fmap in Hk as (f & -> & Hf).
    apply list_elem_of_fmap in Hf as ([d f'] & -> & Hdf).
    apply superFunctions_elem in Hdf as (b & Hb & Hf & _).
    destruct (Hbelow b Hb) as (Hfs & _). rewrite Forall_forall in Hfs.
    by apply Hfs. }
  assert (∀ k v, record ∅ clones !! k = Some v -> n0 ≤ decl_id v) as Hfr_new.
  { intros k v Hk. specialize (Hfr_fresh k v Hk). unfold grows in G1.
    simpl. unfold n0. lia. }
  assert (∀ k, is_Some (recorded v_id ∅ (zip merged (cloned (nextId ast3) merged))
                          !! k) -> k < n0) as Hvr_below.
  { intros k Hk. apply recorded_is_Some in Hk as [Hk|Hk];
      [rewrite lookup_empty in Hk; by destruct Hk|].
    rewrite Hvfst in Hk. apply list_elem_of_fmap in Hk as (v & -> & Hv).
    apply list_elem_of_fmap in Hv as ([name v'] & -> & Hv).
    apply mergeByName_keyed in Hv as [_ Hv].
    apply inheritedDeclarations_elem in Hv as (b & Hb & Hv).
    destruct (Hbelow b Hb) as (_ & Hvs & _). rewrite Forall_forall in Hvs.
    by apply Hvs. }
  assert (∀ k v, recorded v_id ∅ (zip merged (cloned (nextId ast3) merged)) !! k
                 = Some v -> n0 ≤ decl_id v) as Hvr_new.
  { intros k v Hk. apply recorded_lookup in Hk as [Hk|(x & Hin & _)];
      [by rewrite lookup_empty in Hk|].
    apply list_elem_of_lookup in Hin as [i Hi].
    apply lookup_zip_with_Some in Hi as (x' & v' & [= <- <-] & Hx & Hv).
    rewrite (cloned_lookup _ _ _ _ Hx) in Hv. injection Hv as <-.
    unfold grows in *. simpl. unfold n0. lia. }
  assert (∀ k, is_Some (recorded m_id ∅ (zip inherited mclones) !! k) -> k < n0)
    as Hmr_below.
  { intros k Hk. apply recorded_is_Some in Hk as [Hk|Hk];
      [rewrite lookup_empty in Hk; by destruct Hk|].
    rewrite Hmfst in Hk. apply list_elem_of_fmap in Hk as (m & -> & Hm).
    apply nonOverridden_first in Hm as (pre & post & Hm & _).
    assert (m ∈ concat (vModifiers <$> bs)) as Hin
      by (rewrite Hm; apply elem_of_app; right; left).
    apply concat_vModifiers_elem in Hin as (b & Hb & Hin).
    destruct (Hbelow b Hb) as (_ & _ & Hms). rewrite Forall_forall in Hms.
    by apply Hms. }
  assert (∀ k v, recorded m_id ∅ (zip inherited mclones) !! k = Some v ->
                 n0 ≤ decl_id v) as Hmr_new.
  { intros k v Hk. specialize (Hmr_fresh k v Hk). unfold grows in *.
    simpl. unfold n0. lia. }
  (* the three rewrites *)
  destruct (updateReferencedDeclarations_redirects _ _ _ _ _ Hc5 H6)
    as (c6 & Hc6 & Hred6).
  destruct (updateReferencedDeclarations_redirects _ _ _ _ _ Hc6 H7)
    as (c7 & Hc7 & Hred7).
  destruct (updateReferencedDeclarations_redirects _ _ _ _ _ Hc7 H8)
    as (c8 & Hc8 & Hred8).
  destruct (redirect_step _ n0 _ _ Hred6 Hfr_new Hfr_below) as [Hf6 _].
  destruct (redirect_step _ n0 _ _ Hred7 Hvr_new Hvr_below) as [Hv7 Hkeep7].
  destruct (redirect_step _ n0 _ _ Hred8 Hmr_new Hmr_below) as [Hm8 Hkeep8].
  assert (∀ r, r ∈ referencesOf c8 -> ¬ is_Some (record ∅ clones !! r)) as Hf8.
  { apply (Hkeep8 (fun k => is_Some (record ∅ clones !! k)) Hfr_below).
    apply (Hkeep7 (fun k => is_Some (record ∅ clones !! k)) Hfr_below).
    intros r Hr [? Hs]. specialize (Hf6 r Hr). congruence. }
  assert (∀ r, r ∈ referencesOf c8 ->
               ¬ is_Some (recorded v_id ∅
                            (zip merged (cloned (nextId ast3) merged)) !! r))
    as Hv8.
  { apply (Hkeep8 (fun k => is_Some (recorded v_id ∅
                     (zip merged (cloned (nextId ast3) merged)) !! k)) Hvr_below).
    intros r Hr [? Hs]. specialize (Hv7 r Hr). fold merged in Hv7. congruence. }
  exists c8. split; [done|]. intros r Hr. split; [|split].
  - intros b f Hb Hf Hnc ->. apply (Hf8 _ Hr). apply Hfr_keys.
    destruct (elem_of_superFunctions b f bs Hb Hf Hnc) as [d Hd].
    apply list_elem_of_fmap_2. apply list_elem_of_fmap. by exists (d, f).
  - intros v Hv ->. apply (Hv8 _ Hr). apply recorded_is_Some. right.
    rewrite Hvfst. by apply list_elem_of_fmap_2.
  - intros m Hm ->. specialize (Hm8 _ Hr).
    assert (is_Some (recorded m_id ∅ (zip inherited mclones) !! m_id m))
      as [? Hsome]; [|congruence].
    apply recorded_is_Some. right. rewrite Hmfst. by apply list_elem_of_fmap_2.
Qed.

Lemma visitContractDefinition_redirects_the_inherited_references_witness :
  ∃ c',
    context Samples.callingFlattened !! 2 = Some c'
    ∧ ∀ r, r ∈ referencesOf c' ->
        (∀ b f, b ∈ [Samples.Base] -> f ∈ vFunctions b ->
                f_isConstructor f = false -> r ≠ f_id f)
        ∧ (∀ v, v ∈ (mergeByName (inheritedDeclarations [Samples.Base])).*2 ->
                r ≠ v_id v)
        ∧ (∀ m, m ∈ nonOverridden (m_name <$> vModifiers Samples.DerivedCalling)
                      (concat (vModifiers <$> [Samples.Base])) ->
                r ≠ m_id m).
Proof.
  apply (visitContractDefinition_redirects_the_inherited_references
           2 Samples.DerivedCalling [Samples.Base] Samples.calling Samples.callingFlattened).
  - reflexivity.
  - repeat constructor.
  - exact Derived_not_among_its_bases.
  - intros b Hb. apply list_elem_of_singleton in Hb as ->.
    repeat split; repeat constructor; vm_compute; lia.
  - vm_compute. reflexivity.
Defined.
